(** * Metadata resolution engine of the WAV-to-FLAC converter

    A shallow embedding of [AdvancedMetadataLookup] from
    [wav_to_flac_converter.py]: the filename classifier, the path
    metadata parser, the four source clients with their caches, and
    the [get_metadata] orchestrator; and of
    [EnhancedWAVToFLACConverter], which finds the audio files,
    converts each one and writes its metadata.

    Modelling conventions.
    - A Python [str] is a [string] of 8-bit characters.  Only the ASCII
      range is interpreted: case mapping, [\d], [\s], [\w] and
      [str.strip] follow CPython on code points below 128; characters
      above are uninterpreted symbols.
    - A Python [int] is a [Z]; a [float] score is a rational in [Q]
      (rounding is not modelled).
    - [Optional[T]] is [option T]; a raised exception is the [Raise]
      outcome of the effect monad.
    - [logging] calls are omitted: they neither return a value that is
      used nor change the state the claims speak about. *)

From Stdlib Require Import ZArith QArith Ascii String List Lia.
From Stdlib Require Import DecimalString.
From stdpp Require Import base option list strings gmap.

Local Open Scope string_scope.
Local Open Scope list_scope.
Local Open Scope Z_scope.

(** ** Python string primitives *)

Module Py.

Definition code (c : ascii) : nat := nat_of_ascii c.

Definition in_range (lo hi : nat) (c : ascii) : bool :=
  (Nat.leb lo (code c)) && (Nat.leb (code c) hi).

Definition is_digit (c : ascii) : bool := in_range 48 57 c.
Definition is_upper (c : ascii) : bool := in_range 65 90 c.
Definition is_lower (c : ascii) : bool := in_range 97 122 c.

(** [str.isspace] on one character, ASCII range: TAB..CR, FS..US, SPACE. *)
Definition is_space (c : ascii) : bool :=
  in_range 9 13 c || in_range 28 32 c.

(** [\w]: letters, digits and the underscore. *)
Definition is_word (c : ascii) : bool :=
  is_digit c || is_upper c || is_lower c || Nat.eqb (code c) 95.

Definition lower_char (c : ascii) : ascii :=
  if is_upper c then ascii_of_nat (code c + 32) else c.

Definition upper_char (c : ascii) : ascii :=
  if is_lower c then ascii_of_nat (code c - 32) else c.

Fixpoint map_string (f : ascii -> ascii) (s : string) : string :=
  match s with
  | EmptyString => EmptyString
  | String c s' => String (f c) (map_string f s')
  end.

(** [s.lower()] and [s.upper()]. *)
Definition lower (s : string) : string := map_string lower_char s.

Fixpoint lstrip_chars (l : list ascii) : list ascii :=
  match l with
  | c :: l' => if is_space c then lstrip_chars l' else l
  | [] => []
  end.

Definition strip_chars (l : list ascii) : list ascii :=
  rev (lstrip_chars (rev (lstrip_chars l))).

(** [s.strip()]. *)
Definition strip (s : string) : string :=
  string_of_list_ascii (strip_chars (list_ascii_of_string s)).

(** Truthiness of a string: [bool(s)]. *)
Definition truthy (s : string) : bool :=
  match s with EmptyString => false | _ => true end.

(** [all([a, b])] on strings. *)
Definition all_truthy (l : list string) : bool := forallb truthy l.

(** [sub in s]. *)
Fixpoint contains (sub s : string) : bool :=
  String.prefix sub s ||
  match s with
  | EmptyString => false
  | String _ s' => contains sub s'
  end.

(** [str(n)] for an int. *)
Definition str_of_int (n : Z) : string := NilZero.string_of_int (Z.to_int n).

(** [s.zfill(width)]: left-pad with zeros, after a leading sign. *)
Definition zfill (width : nat) (s : string) : string :=
  let n := String.length s in
  if Nat.leb width n then s
  else
    let zeros := string_of_list_ascii (repeat "0"%char (width - n)) in
    match s with
    | String c rest =>
        if (Ascii.eqb c "+" || Ascii.eqb c "-")%bool
        then String c (zeros ++ rest)
        else zeros ++ s
    | EmptyString => zeros
    end.

Fixpoint digits_value (acc : Z) (l : list ascii) : Z :=
  match l with
  | [] => acc
  | c :: l' => digits_value (10 * acc + Z.of_nat (code c - 48)) l'
  end.

(** Digits with single underscores between them, as [int()] accepts. *)
Fixpoint int_body_ok (prev_digit : bool) (l : list ascii) : bool :=
  match l with
  | [] => prev_digit
  | c :: l' =>
      if is_digit c then int_body_ok true l'
      else if Ascii.eqb c "_" then prev_digit && int_body_ok false l'
      else false
  end.

(** [int(s)] for a string; [None] stands for [ValueError]. *)
Definition int_of_str (s : string) : option Z :=
  let l := strip_chars (list_ascii_of_string s) in
  let '(neg, body) :=
    match l with
    | c :: l' =>
        if Ascii.eqb c "-" then (true, l')
        else if Ascii.eqb c "+" then (false, l')
        else (false, l)
    | [] => (false, [])
    end in
  if int_body_ok false body
  then
    let v := digits_value 0 (filter (fun c => is_digit c = true) body) in
    Some (if neg then - v else v)
  else None.

End Py.

(** ** The fragment of Python's [re] module used by the program

    A backtracking matcher with Python's priorities: alternatives are
    tried left to right, [*] and [+] are greedy, [search] returns the
    leftmost match.  Patterns are kept as their source text and
    compiled by [parse]. *)

Module Re.

Inductive regex : Type :=
| Eps                                   (* the empty pattern *)
| Never                                 (* a pattern that cannot match *)
| Chr (c : ascii)                       (* a literal character *)
| Class (neg : bool) (p : ascii -> bool) (* [\d], [\s], [[...]], [[^...]], [.] *)
| Cat (r1 r2 : regex)
| Alt (r1 r2 : regex)
| Star (r : regex)                      (* greedy [r*] *)
| Opt (r : regex)                       (* greedy [r?] *)
| Bol                                   (* [^] *)
| Eol                                   (* [$] *)
| WordB                                 (* [\b] *)
| Group (n : nat) (r : regex).          (* the n-th capturing group *)

Definition plus (r : regex) : regex := Cat r (Star r).

Fixpoint times (n : nat) (r : regex) : regex :=
  match n with
  | O => Eps
  | S n' => Cat r (times n' r)
  end.

(** *** Parsing pattern text *)

Definition escape_class (c : ascii) : ascii -> bool :=
  if Ascii.eqb c "d" then Py.is_digit
  else if Ascii.eqb c "s" then Py.is_space
  else if Ascii.eqb c "w" then Py.is_word
  else Ascii.eqb c.

Definition escape (c : ascii) : regex :=
  if Ascii.eqb c "b" then WordB else Class false (escape_class c).

(** The items of a bracket expression, up to the closing bracket. *)
Fixpoint parse_set (fuel : nat) (s : list ascii)
  : option ((ascii -> bool) * list ascii) :=
  match fuel with
  | O => None
  | S f =>
      match s with
      | [] => None
      | "]"%char :: s' => Some (fun _ => false, s')
      | "\"%char :: c :: s' =>
          match parse_set f s' with
          | Some (p, s'') => Some (fun x => escape_class c x || p x, s'')
          | None => None
          end
      | lo :: "-"%char :: hi :: s' =>
          if Ascii.eqb hi "]"
          then
            match parse_set f ("-"%char :: hi :: s') with
            | Some (p, s'') => Some (fun x => Ascii.eqb lo x || p x, s'')
            | None => None
            end
          else if Ascii.eqb hi "\" then None
          else
            match parse_set f s' with
            | Some (p, s'') =>
                Some (fun x => Py.in_range (Py.code lo) (Py.code hi) x || p x, s'')
            | None => None
            end
      | c :: s' =>
          match parse_set f s' with
          | Some (p, s'') => Some (fun x => Ascii.eqb c x || p x, s'')
          | None => None
          end
      end
  end.

Definition parse_class (s : list ascii) : option (regex * list ascii) :=
  match s with
  | "^"%char :: s' =>
      match parse_set (S (length s')) s' with
      | Some (p, s'') => Some (Class true p, s'')
      | None => None
      end
  | _ =>
      match parse_set (S (length s)) s with
      | Some (p, s') => Some (Class false p, s')
      | None => None
      end
  end.

Fixpoint digit_prefix (s : list ascii) : list ascii :=
  match s with
  | c :: s' => if Py.is_digit c then c :: digit_prefix s' else []
  | [] => []
  end.

(** A postfix quantifier: [*], [+], [?] or [{n}]. *)
Definition parse_quant (a : regex) (s : list ascii)
  : option (regex * list ascii) :=
  match s with
  | "*"%char :: s' => Some (Star a, s')
  | "+"%char :: s' => Some (plus a, s')
  | "?"%char :: s' => Some (Opt a, s')
  | "{"%char :: s' =>
      let ds := digit_prefix s' in
      match ds, drop (length ds) s' with
      | _ :: _, "}"%char :: s'' =>
          Some (times (Z.to_nat (Py.digits_value 0 ds)) a, s'')
      | _, _ => None
      end
  | _ => Some (a, s)
  end.

(** Recursive descent; [g] is the number of groups opened so far. *)
Fixpoint parse_alt (fuel g : nat) (s : list ascii)
  : option (regex * nat * list ascii) :=
  match fuel with
  | O => None
  | S f =>
      match parse_seq f g s with
      | Some (r1, g1, "|"%char :: s1) =>
          match parse_alt f g1 s1 with
          | Some (r2, g2, s2) => Some (Alt r1 r2, g2, s2)
          | None => None
          end
      | other => other
      end
  end
with parse_seq (fuel g : nat) (s : list ascii)
  : option (regex * nat * list ascii) :=
  match fuel with
  | O => None
  | S f =>
      match s with
      | [] => Some (Eps, g, s)
      | c :: _ =>
          if (Ascii.eqb c "|" || Ascii.eqb c ")")%bool then Some (Eps, g, s)
          else
            match parse_atom f g s with
            | Some (a, g1, s1) =>
                match parse_quant a s1 with
                | Some (q, s2) =>
                    match parse_seq f g1 s2 with
                    | Some (r, g2, s3) => Some (Cat q r, g2, s3)
                    | None => None
                    end
                | None => None
                end
            | None => None
            end
      end
  end
with parse_atom (fuel g : nat) (s : list ascii)
  : option (regex * nat * list ascii) :=
  match fuel with
  | O => None
  | S f =>
      match s with
      | [] => None
      | "("%char :: s1 =>
          match parse_alt f (S g) s1 with
          | Some (r, g1, ")"%char :: s2) => Some (Group (S g) r, g1, s2)
          | _ => None
          end
      | "["%char :: s1 =>
          match parse_class s1 with
          | Some (r, s2) => Some (r, g, s2)
          | None => None
          end
      | "\"%char :: c :: s1 => Some (escape c, g, s1)
      | "^"%char :: s1 => Some (Bol, g, s1)
      | "$"%char :: s1 => Some (Eol, g, s1)
      | "."%char :: s1 => Some (Class true (fun x => Nat.eqb (Py.code x) 10), g, s1)
      | c :: s1 =>
          if (Ascii.eqb c "*" || Ascii.eqb c "+" || Ascii.eqb c "?")%bool
          then None
          else Some (Chr c, g, s1)
      end
  end.

Definition parse (pattern : string) : option regex :=
  let s := list_ascii_of_string pattern in
  match parse_alt (3 * S (length s)) 0 s with
  | Some (r, _, []) => Some r
  | _ => None
  end.

(** [re.compile]; a pattern outside the fragment matches nothing. *)
Definition compile (pattern : string) : regex :=
  match parse pattern with
  | Some r => r
  | None => Never
  end.

(** *** Matching *)

(** Position in the subject: the character before it and the rest. *)
Record cursor : Type := Cursor { before : option ascii; rest : list ascii }.

(** Captured groups, most recent binding first. *)
Definition captures : Type := list (nat * list ascii).

Definition advance (c : ascii) (l : list ascii) : cursor :=
  {| before := Some c; rest := l |}.

Definition word_before (p : cursor) : bool :=
  match before p with Some c => Py.is_word c | None => false end.

Definition word_after (p : cursor) : bool :=
  match rest p with c :: _ => Py.is_word c | [] => false end.

Definition at_end (p : cursor) : bool :=
  match rest p with
  | [] => true
  | [c] => Nat.eqb (Py.code c) 10
  | _ => false
  end.

Definition chr_match (ic : bool) (c x : ascii) : bool :=
  if ic then Ascii.eqb (Py.lower_char c) (Py.lower_char x)
  else Ascii.eqb c x.

Definition class_match (ic neg : bool) (p : ascii -> bool) (x : ascii) : bool :=
  xorb neg (if ic then p x || p (Py.lower_char x) || p (Py.upper_char x) else p x).

Section Matcher.
Context {R : Type}.
Variable ic : bool.                   (* [re.IGNORECASE] *)

Fixpoint run (r : regex) (p : cursor) (cs : captures)
    (k : cursor -> captures -> option R) {struct r} : option R :=
  match r with
  | Eps => k p cs
  | Never => None
  | Chr c =>
      match rest p with
      | x :: l => if chr_match ic c x then k (advance x l) cs else None
      | [] => None
      end
  | Class neg f =>
      match rest p with
      | x :: l => if class_match ic neg f x then k (advance x l) cs else None
      | [] => None
      end
  | Cat r1 r2 => run r1 p cs (fun p' cs' => run r2 p' cs' k)
  | Alt r1 r2 =>
      match run r1 p cs k with
      | Some res => Some res
      | None => run r2 p cs k
      end
  | Star r1 =>
      (fix loop (fuel : nat) (p : cursor) (cs : captures) : option R :=
         match fuel with
         | O => k p cs
         | S fuel' =>
             match
               run r1 p cs (fun p' cs' =>
                 if Nat.ltb (length (rest p')) (length (rest p))
                 then loop fuel' p' cs'
                 else k p' cs')
             with
             | Some res => Some res
             | None => k p cs
             end
         end) (length (rest p)) p cs
  | Opt r1 =>
      match run r1 p cs k with
      | Some res => Some res
      | None => k p cs
      end
  | Bol => match before p with None => k p cs | Some _ => None end
  | Eol => if at_end p then k p cs else None
  | WordB => if xorb (word_before p) (word_after p) then k p cs else None
  | Group n r1 =>
      run r1 p cs (fun p' cs' =>
        k p' ((n, take (length (rest p) - length (rest p')) (rest p)) :: cs'))
  end.
End Matcher.

(** A match object: where it starts and ends, and its groups. *)
Record Match : Type := MkMatch {
  m_start : nat;
  m_end : nat;
  m_text : list ascii;
  m_groups : captures
}.

(** Try to match at one position. *)
Definition match_here (ic : bool) (r : regex) (start : nat) (p : cursor)
  : option Match :=
  run ic r p [] (fun p' cs =>
    let n := (length (rest p) - length (rest p'))%nat in
    Some {| m_start := start; m_end := (start + n)%nat;
            m_text := take n (rest p); m_groups := cs |}).

(** Leftmost match from the cursor on. *)
Fixpoint search_from (ic : bool) (r : regex) (start : nat)
    (prev : option ascii) (l : list ascii) : option Match :=
  match match_here ic r start {| before := prev; rest := l |} with
  | Some m => Some m
  | None =>
      match l with
      | [] => None
      | c :: l' => search_from ic r (S start) (Some c) l'
      end
  end.

(** [re.search(pattern, s, flags)]. *)
Definition search (ic : bool) (pattern s : string) : option Match :=
  search_from ic (compile pattern) 0 None (list_ascii_of_string s).

(** [m.group(0)]. *)
Definition group0 (m : Match) : string := string_of_list_ascii (m_text m).

(** [m.group(n)]; [None] when the group took no part in the match. *)
Definition group (n : nat) (m : Match) : option string :=
  match List.find (fun e => Nat.eqb (fst e) n) (m_groups m) with
  | Some (_, t) => Some (string_of_list_ascii t)
  | None => None
  end.

(** [re.sub(pattern, repl, s, flags)] for a replacement without
    back-references: every non-overlapping match, left to right. *)
Fixpoint sub_from (ic : bool) (r : regex) (repl : list ascii)
    (fuel : nat) (prev : option ascii) (l : list ascii) : list ascii :=
  match fuel with
  | O => l
  | S fuel' =>
      match match_here ic r 0 {| before := prev; rest := l |} with
      | Some m =>
          match m_end m with
          | O =>
              match l with
              | [] => repl
              | c :: l' => repl ++ c :: sub_from ic r repl fuel' (Some c) l'
              end
          | S n =>
              repl ++ sub_from ic r repl fuel' (last (take (S n) l)) (drop (S n) l)
          end
      | None =>
          match l with
          | [] => []
          | c :: l' => c :: sub_from ic r repl fuel' (Some c) l'
          end
      end
  end.

Definition sub (ic : bool) (pattern repl s : string) : string :=
  let l := list_ascii_of_string s in
  string_of_list_ascii
    (sub_from ic (compile pattern) (list_ascii_of_string repl)
       (S (length l)) None l).

End Re.

(** ** The fragment of [pathlib] used by the program (POSIX flavour) *)

Module Path.

(** A path is its tuple of [parts]; an absolute path starts with the
    root part. *)
Definition t : Type := list string.

Fixpoint split_slash (cur : list ascii) (l : list ascii) : list string :=
  match l with
  | [] => [string_of_list_ascii (rev cur)]
  | c :: l' =>
      if Ascii.eqb c "/"
      then string_of_list_ascii (rev cur) :: split_slash [] l'
      else split_slash (c :: cur) l'
  end.

Definition is_segment (s : string) : bool :=
  negb (String.eqb s "" || String.eqb s ".").

Definition root_of (l : list ascii) : list string :=
  match l with
  | "/"%char :: "/"%char :: "/"%char :: _ => ["/"]
  | "/"%char :: "/"%char :: _ => ["//"]
  | "/"%char :: _ => ["/"]
  | _ => []
  end.

(** [Path(s)]. *)
Definition of_string (s : string) : t :=
  let l := list_ascii_of_string s in
  root_of l ++ List.filter is_segment (split_slash [] l).

Definition is_root (s : string) : bool :=
  String.eqb s "/" || String.eqb s "//".

Definition is_absolute (p : t) : bool :=
  match p with
  | r :: _ => is_root r
  | [] => false
  end.

Fixpoint strip_prefix (other p : list string) : option (list string) :=
  match other, p with
  | [], _ => Some p
  | o :: other', x :: p' =>
      if String.eqb o x then strip_prefix other' p' else None
  | _ :: _, [] => None
  end.

(** [p.relative_to(other)]; [None] stands for [ValueError]. *)
Definition relative_to (p other : t) : option t :=
  match other with
  | [] => if is_absolute p then None else Some p
  | _ => strip_prefix other p
  end.

(** [p.parts[:-1]]. *)
Definition parent_parts (p : t) : list string := removelast p.

(** [p.name]. *)
Definition name (p : t) : string :=
  match List.last p "" with
  | s => if is_root s then "" else s
  end.

(** [s.rfind(".")], as the number of characters before the last dot. *)
Fixpoint rfind_dot (l : list ascii) : option nat :=
  match l with
  | [] => None
  | c :: l' =>
      match rfind_dot l' with
      | Some i => Some (S i)
      | None => if Ascii.eqb c "." then Some O else None
      end
  end.

(** [p.stem]: the name without its last suffix. *)
Definition stem (p : t) : string :=
  let l := list_ascii_of_string (name p) in
  match rfind_dot l with
  | Some i =>
      if (Nat.ltb 0 i && Nat.ltb i (length l - 1))%bool
      then string_of_list_ascii (take i l)
      else name p
  | None => name p
  end.

End Path.

(** ** Filename classifier and path metadata parser *)

Definition matches (pattern s : string) : bool :=
  match Re.search false pattern s with
  | Some _ => true
  | None => false
  end.

Definition generic_patterns : list string :=
  [ "^track\s*\d+";
    "^\d+[\s\-_\.]*track\d*";
    "^\d+[\s\-_\.]*$";
    "^\d+[\s\-_\.]+\d+$";
    "^track[\s\-_\.]*\d+";
    "^\d+[\s\-_\.]*(track|titulo|cancion|song)";
    "^(track|titulo|cancion|song)[\s\-_\.]*\d+";
    "untitled[\s\-_]*\d*";
    "^audio[\s\-_]*\d+";
    "^pista[\s\-_]*\d+" ].

(** [_is_generic_filename]: does the lower-cased, stripped name match
    one of the generic patterns? *)
Definition _is_generic_filename (filename : string) : bool :=
  let filename_lower := Py.strip (Py.lower filename) in
  existsb (fun pattern => matches pattern filename_lower) generic_patterns.

Definition track_number_patterns : list string :=
  [ "^(\d+)[\s\-_\.]*";
    "track[\s\-_]*(\d+)";
    "(\d+)[\s\-_]*track" ].

(** [int(match.group(1))].  Group 1 lies on every path through each of
    the patterns it is used with, so it is always bound when they
    match; an unbound group is treated like a failed conversion. *)
Definition int_of_group1 (m : Re.Match) : option Z :=
  match Re.group 1 m with
  | Some s => Py.int_of_str s
  | None => None
  end.

Fixpoint first_track_number (patterns : list string) (s : string) : option Z :=
  match patterns with
  | [] => None
  | pattern :: patterns' =>
      match Re.search false pattern s with
      | Some m =>
          match int_of_group1 m with
          | Some n => Some n
          | None => first_track_number patterns' s
          end
      | None => first_track_number patterns' s
      end
  end.

(** [_extract_track_number]. *)
Definition _extract_track_number (filename : string) : option Z :=
  first_track_number track_number_patterns (Py.lower filename).

(** Truthiness of an [Optional[int]]: [None] and [0] are false. *)
Definition int_truthy (n : option Z) : bool :=
  match n with
  | Some v => negb (Z.eqb v 0)
  | None => false
  end.

(** The dictionary built by [parse_directory_structure]; its keys are
    fixed, so it is a record. *)
Record PathMetadata : Type := MkPathMetadata {
  pm_title : string;
  pm_artist : string;
  pm_album : string;
  pm_year : string;
  pm_track_number : string;
  pm_is_generic : bool
}.

Definition year_patterns : list string :=
  [ "\b(19|20)\d{2}\b";
    "\((\d{4})\)";
    "\[(\d{4})\]" ].

Definition group_or_empty (n : nat) (m : Re.Match) : string :=
  match Re.group n m with
  | Some s => s
  | None => ""
  end.

(** The [for pattern in year_patterns] loop; [None] is its [else]
    branch (no pattern matched). *)
Fixpoint find_year (patterns : list string) (album_part : string)
  : option (string * string) :=
  match patterns with
  | [] => None
  | pattern :: patterns' =>
      match Re.search false pattern album_part with
      | Some year_match =>
          let year :=
            if Py.contains "(" pattern || Py.contains "[" pattern
            then group_or_empty 1 year_match
            else Re.group0 year_match in
          let album_clean := Py.strip (Re.sub false pattern "" album_part) in
          let album_clean :=
            Py.strip (Re.sub false "\s*[-_\(\)\[\]]\s*" " " album_clean) in
          Some (year, album_clean)
      | None => find_year patterns' album_part
      end
  end.

Definition various_aliases : list string :=
  [ "various artists"; "various"; "compilation"; "va" ].

Definition nth_last (n : nat) (parts : list string) : option string :=
  nth_error (rev parts) n.

(** [parse_directory_structure]; [None] stands for the [ValueError] of
    [relative_to] when the file is not below the scan root. *)
Definition parse_directory_structure (file_path source_path : Path.t)
  : option PathMetadata :=
  match Path.relative_to file_path source_path with
  | None => None
  | Some relative_path =>
      let parts := Path.parent_parts relative_path in
      let filename := Path.stem relative_path in
      let is_generic := _is_generic_filename filename in
      let track_num := _extract_track_number filename in
      let track_number :=
        if int_truthy track_num
        then Py.zfill 2 (Py.str_of_int (default 0 track_num))
        else "" in
      let title :=
        if int_truthy track_num && is_generic
        then
          let clean_title :=
            Re.sub true "^(\d+[\s\-_\.]*)|(track[\s\-_]*\d*[\s\-_]*)" ""
              filename in
          if Py.truthy (Py.strip clean_title)
          then Py.strip clean_title else filename
        else filename in
      let '(year, album) :=
        match nth_last 0 parts with
        | Some album_part =>
            match find_year year_patterns album_part with
            | Some (year, album_clean) => (year, album_clean)
            | None => ("", album_part)
            end
        | None => ("", "")
        end in
      let artist :=
        match nth_last 1 parts with
        | Some artist_part =>
            if bool_decide (Py.lower artist_part ∈ various_aliases)
            then "Various Artists" else artist_part
        | None => ""
        end in
      Some {| pm_title := Py.strip title;
              pm_artist := Py.strip artist;
              pm_album := Py.strip album;
              pm_year := Py.strip year;
              pm_track_number := track_number;
              pm_is_generic := is_generic |}
  end.

(** ** Exceptions, external calls and the lookup state *)

(** The exception classes the handlers of the program tell apart.  All
    are subclasses of [Exception]; [exn_msg] is [str(e)]. *)
Inductive exn_class : Type :=
| TimeoutExpired | FileNotFoundError | CalledProcessError
| WSError | KeyError | IndexError | ValueError | OSError | OtherError.

Record exn : Type := MkExn { exn_cls : exn_class; exn_msg : string }.

#[global] Instance exn_class_eq_dec : EqDecision exn_class.
Proof. solve_decision. Defined.

(** Metadata dictionaries, [Dict[str, str]]. *)
Abbreviation Dict := (gmap string string).

(** The address of a dictionary object. *)
Abbreviation loc := nat (only parsing).

(** *** Answers of the MusicBrainz web service

    [musicbrainzngs] returns nested dictionaries; each is a record
    whose fields are the keys the program reads, [None] when the key
    is absent.  [*_extra] tells whether the dictionary has further
    keys, which only matters for its truthiness. *)

Record ArtistRef : Type := MkArtistRef {
  ar_id : option string; ar_name : option string }.

Record ArtistCredit : Type := MkArtistCredit {
  ac_name : option string; ac_artist : option ArtistRef }.

Record Release : Type := MkRelease {
  rel_extra : bool;
  rel_id : option string;
  rel_title : option string;
  rel_date : option string;
  rel_artist_credit : option (list ArtistCredit) }.

Record RecordingRef : Type := MkRecordingRef {
  rr_id : option string; rr_title : option string }.

Record Track : Type := MkTrack {
  trk_position : option string;
  trk_title : option string;
  trk_length : option string;
  trk_recording : option RecordingRef }.

Record Medium : Type := MkMedium { med_track_list : option (list Track) }.

Record ReleaseBody : Type := MkReleaseBody {
  rb_medium_list : option (list Medium) }.

Record ReleaseDetail : Type := MkReleaseDetail {
  rd_release : option ReleaseBody }.

Record ReleaseRef : Type := MkReleaseRef {
  rref_id : option string;
  rref_title : option string;
  rref_date : option string }.

Record Recording : Type := MkRecording {
  rec_extra : bool;
  rec_id : option string;
  rec_title : option string;
  rec_artist_credit : option (list ArtistCredit);
  rec_release_list : option (list ReleaseRef) }.

(** *** Answers of the AcoustID service *)

Record AcTrack : Type := MkAcTrack {
  at_id : option string; at_position : option string }.

Record AcMedium : Type := MkAcMedium { am_tracks : option (list AcTrack) }.

Record AcRelease : Type := MkAcRelease {
  arl_title : option string;
  arl_id : option string;
  arl_date : option string;
  arl_mediums : option (list AcMedium) }.

Record AcArtist : Type := MkAcArtist {
  aa_name : option string; aa_id : option string }.

Record AcRecording : Type := MkAcRecording {
  arec_title : option string;
  arec_id : option string;
  arec_artists : option (list AcArtist);
  arec_releases : option (list AcRelease) }.

Record AcResult : Type := MkAcResult {
  ares_score : option Q;
  ares_recordings : option (list AcRecording) }.

Record AcResponse : Type := MkAcResponse {
  aresp_status : option string;
  aresp_results : option (list AcResult) }.

(** *** Last.fm objects: opaque handles given out by [pylast] *)

Abbreviation TrackObj := nat (only parsing).
Abbreviation ArtistObj := nat (only parsing).
Abbreviation AlbumObj := nat (only parsing).
Abbreviation TagObj := nat (only parsing).

(** *** Calls that leave the program

    Every call into the clock, the file system, the [fpcalc] tool or
    one of the three web services, indexed by the type of its answer. *)
Inductive call : Type -> Type :=
| TimeTime : call Q
| TimeSleep (secs : Q) : call unit
| SearchReleases (query : string) : call (list Release)
| GetReleaseById (release_id : string) : call ReleaseDetail
| SearchRecordings (query : string) : call (list Recording)
| Stat (p : Path.t) : call Z
| RunFpcalcVersion : call unit
| RunFpcalc : call string
| FingerprintFile (p : Path.t) : call (Q * string)
| AcoustidLookup (fingerprint : string) (duration : Q) : call AcResponse
| LfmGetTrack (artist title : string) : call TrackObj
| LfmTrackGetName (t : TrackObj) : call (option string)
| LfmTrackGetArtist (t : TrackObj) : call (option ArtistObj)
| LfmArtistGetName (a : ArtistObj) : call (option string)
| LfmTrackGetUrl (t : TrackObj) : call (option string)
| LfmTrackGetPlaycount (t : TrackObj) : call (option Z)
| LfmTrackGetListenerCount (t : TrackObj) : call (option Z)
| LfmTrackGetAlbum (t : TrackObj) : call (option AlbumObj)
| LfmAlbumGetName (a : AlbumObj) : call (option string)
| LfmAlbumGetUrl (a : AlbumObj) : call (option string)
| LfmTrackGetTopTags (t : TrackObj) (limit : Z) : call (list TagObj)
| LfmTagGetName (t : TagObj) : call string
| LfmGetArtist (artist : string) : call ArtistObj
| LfmArtistGetCorrection (a : ArtistObj) : call (option string).

Inductive event : Type :=
| Ev {A : Type} (c : call A).

(** Which service a call belongs to. *)
Inductive service : Type := Clock | FileSystem | Catalog | Acoustic | TextSearch.

Definition service_of {A : Type} (c : call A) : service :=
  match c with
  | TimeTime | TimeSleep _ => Clock
  | SearchReleases _ | GetReleaseById _ | SearchRecordings _ => Catalog
  | Stat _ => FileSystem
  | RunFpcalcVersion | RunFpcalc
  | FingerprintFile _ | AcoustidLookup _ _ => Acoustic
  | _ => TextSearch
  end.

Definition event_service (e : event) : service :=
  match e with Ev c => service_of c end.

(** The four source clients. *)
Inductive client : Type :=
| AlbumClient | TrackClient | FingerprintClient | TextClient.

#[global] Instance service_eq_dec : EqDecision service.
Proof. solve_decision. Defined.

#[global] Instance client_eq_dec : EqDecision client.
Proof. solve_decision. Defined.

(** The attributes of an [AdvancedMetadataLookup] instance, the heap of
    dictionary objects it hands out, and the world outside.  [trace]
    lists the external calls made so far; [entered] is a ghost log of
    the client methods entered so far (most recent last). *)
Record State {W : Type} : Type := MkState {
  cache : gmap string (option loc);
  album_cache : gmap string (option (list loc));
  fingerprint_cache : gmap string (option loc);
  lastfm_cache : gmap string (option loc);
  last_request_time : Q;
  fingerprint_enabled : bool;
  lastfm_enabled : bool;
  heap : list Dict;
  world : W;
  trace : list event;
  entered : list client
}.
Arguments State : clear implicits.
Arguments MkState {W}.

(** [rate_limit_delay = 1.1] *)
Definition rate_limit_delay : Q := 1.1%Q.

(** ** The effect monad

    A statement either completes with a value, executes [return], or
    raises.  [R] is the return type of the enclosing function. *)

Inductive outcome (R A : Type) : Type :=
| Normal (a : A)
| Returned (r : R)
| Raised (e : exn).
Arguments Normal {R A}.
Arguments Returned {R A}.
Arguments Raised {R A}.

Definition M (W R A : Type) : Type := State W -> outcome R A * State W.

Declare Scope prog_scope.
Delimit Scope prog_scope with prog.

Section Monad.
Context {W : Type}.

Definition ret {R A} (a : A) : M W R A := fun s => (Normal a, s).

Definition bind {R A B} (m : M W R A) (f : A -> M W R B) : M W R B :=
  fun s =>
    match m s with
    | (Normal a, s') => f a s'
    | (Returned r, s') => (Returned r, s')
    | (Raised e, s') => (Raised e, s')
    end.

(** [return r] *)
Definition return_ {R A} (r : R) : M W R A := fun s => (Returned r, s).

(** [raise e] *)
Definition raise {R A} (e : exn) : M W R A := fun s => (Raised e, s).

(** [try: m  except Exception as e: h e] *)
Definition try_except {R A} (m : M W R A) (h : exn -> M W R A) : M W R A :=
  fun s =>
    match m s with
    | (Raised e, s') => h e s'
    | other => other
    end.

(** A function body all of whose paths end in [return]. *)
Definition fn {R R'} (body : M W R Empty_set) : M W R' R :=
  fun s =>
    match body s with
    | (Normal a, _) => match a with end
    | (Returned r, s') => (Normal r, s')
    | (Raised e, s') => (Raised e, s')
    end.

Definition get_state {R} : M W R (State W) := fun s => (Normal s, s).

Definition modify {R} (f : State W -> State W) : M W R unit :=
  fun s => (Normal tt, f s).

(** The result of a pure expression that may raise. *)
Definition lift {R A} (x : exn + A) : M W R A :=
  match x with
  | inl e => raise e
  | inr a => ret a
  end.

Definition when {R} (b : bool) (m : M W R unit) : M W R unit :=
  if b then m else ret tt.
End Monad.

Notation "x ← y ; z" := (bind y (fun x => z))
  (at level 20, y at level 100, z at level 200, only parsing) : prog_scope.
Notation "' x ← y ; z" := (bind y (fun x => z))
  (at level 20, x pattern, y at level 100, z at level 200, only parsing) : prog_scope.
Notation "y ;; z" := (bind y (fun _ => z))
  (at level 100, z at level 200, only parsing, right associativity) : prog_scope.

(** ** Helpers on dictionaries and scores *)

(** [d.get(k, dflt)] *)
Definition dict_get (d : Dict) (k dflt : string) : string :=
  default dflt (d !! k).

(** Truthiness of [d.get(k)]: the key is present with a non-empty value. *)
Definition has_value (d : Dict) (k : string) : bool :=
  match d !! k with
  | Some v => Py.truthy v
  | None => false
  end.

(** Truthiness of a dictionary: it has at least one key. *)
Definition dict_truthy (d : Dict) : bool := negb (bool_decide (d = ∅)).

(** [x or dflt] for an optional string. *)
Definition or_else (x : option string) (dflt : string) : string :=
  match x with
  | Some v => if Py.truthy v then v else dflt
  | None => dflt
  end.

(** [k in d] for a key modelled as an optional field. *)
Definition present {A : Type} (x : option A) : bool :=
  match x with Some _ => true | None => false end.

(** Truthiness of a list. *)
Definition nonempty {A : Type} (l : list A) : bool :=
  match l with [] => false | _ => true end.

(** [a < b] on scores. *)
Definition Qlt_bool (a b : Q) : bool := negb (Qle_bool b a).

(** The double-quote character, as a string. *)
Definition dquote : string := String (ascii_of_nat 34) EmptyString.

Definition quoted (s : string) : string := dquote ++ s ++ dquote.

(** [sep.join(l)] *)
Fixpoint join (sep : string) (l : list string) : string :=
  match l with
  | [] => ""
  | [x] => x
  | x :: l' => x ++ sep ++ join sep l'
  end.

Definition essential_fields : list string := [ "title"; "artist"; "album" ].

Definition musicbrainz_fields : list string :=
  [ "musicbrainz_recordingid"; "musicbrainz_trackid" ].

(** [_is_metadata_complete] *)
Definition _is_metadata_complete (metadata : Dict) : bool :=
  if existsb
       (fun field =>
          negb (has_value metadata field)
          || String.eqb (Py.strip (dict_get metadata field "")) "")
       essential_fields
  then false
  else if _is_generic_filename (dict_get metadata "title" "")
  then false
  else existsb (has_value metadata) musicbrainz_fields.

(** The fallback dictionary of [get_metadata] (strategy 6). *)
Definition fallback_dict (artist album title : string)
    (track_number : option Z) : Dict :=
  {[ "title" := title;
     "artist" := artist;
     "album" := album;
     "track_number" :=
       if int_truthy track_number
       then Py.zfill 2 (Py.str_of_int (default 0 track_number))
       else "" ]}.

(** One step of the merge loop of [get_metadata], at one key: the
    existing value is taken when it is non-empty and the fallback has
    no non-empty value there.  The loop touches each key once and
    independently, so it is the pointwise [merge]. *)
Definition merge_entry (fallback existing : option string) : option string :=
  match existing with
  | Some value =>
      if Py.truthy value
         && negb (match fallback with Some v => Py.truthy v | None => false end)
      then Some value
      else fallback
  | None => fallback
  end.

Definition merge_existing (fallback_metadata existing_metadata : Dict) : Dict :=
  merge merge_entry fallback_metadata existing_metadata.

(** *** State updates *)

Section Setters.
Context {W : Type}.
Implicit Type s : State W.

Definition set_cache (f : gmap string (option loc) -> gmap string (option loc)) s :=
  MkState (f (cache s)) (album_cache s) (fingerprint_cache s) (lastfm_cache s)
    (last_request_time s) (fingerprint_enabled s) (lastfm_enabled s)
    (heap s) (world s) (trace s) (entered s).

Definition set_album_cache
    (f : gmap string (option (list loc)) -> gmap string (option (list loc))) s :=
  MkState (cache s) (f (album_cache s)) (fingerprint_cache s) (lastfm_cache s)
    (last_request_time s) (fingerprint_enabled s) (lastfm_enabled s)
    (heap s) (world s) (trace s) (entered s).

Definition set_fingerprint_cache
    (f : gmap string (option loc) -> gmap string (option loc)) s :=
  MkState (cache s) (album_cache s) (f (fingerprint_cache s)) (lastfm_cache s)
    (last_request_time s) (fingerprint_enabled s) (lastfm_enabled s)
    (heap s) (world s) (trace s) (entered s).

Definition set_lastfm_cache
    (f : gmap string (option loc) -> gmap string (option loc)) s :=
  MkState (cache s) (album_cache s) (fingerprint_cache s) (f (lastfm_cache s))
    (last_request_time s) (fingerprint_enabled s) (lastfm_enabled s)
    (heap s) (world s) (trace s) (entered s).

Definition set_last_request_time (t : Q) s :=
  MkState (cache s) (album_cache s) (fingerprint_cache s) (lastfm_cache s)
    t (fingerprint_enabled s) (lastfm_enabled s)
    (heap s) (world s) (trace s) (entered s).

Definition set_fingerprint_enabled (b : bool) s :=
  MkState (cache s) (album_cache s) (fingerprint_cache s) (lastfm_cache s)
    (last_request_time s) b (lastfm_enabled s)
    (heap s) (world s) (trace s) (entered s).

Definition set_heap (f : list Dict -> list Dict) s :=
  MkState (cache s) (album_cache s) (fingerprint_cache s) (lastfm_cache s)
    (last_request_time s) (fingerprint_enabled s) (lastfm_enabled s)
    (f (heap s)) (world s) (trace s) (entered s).

Definition record_call (w : W) (e : event) s :=
  MkState (cache s) (album_cache s) (fingerprint_cache s) (lastfm_cache s)
    (last_request_time s) (fingerprint_enabled s) (lastfm_enabled s)
    (heap s) w (trace s ++ [e]) (entered s).

Definition record_enter (c : client) s :=
  MkState (cache s) (album_cache s) (fingerprint_cache s) (lastfm_cache s)
    (last_request_time s) (fingerprint_enabled s) (lastfm_enabled s)
    (heap s) (world s) (trace s) (entered s ++ [c]).
End Setters.

(** ** The class [AdvancedMetadataLookup] *)

Section Lookup.
Context {W : Type}.

(** The world outside the program: how each external call is
    answered, with a value or an exception, and what it leaves
    behind. *)
Variable oracle : forall A : Type, call A -> W -> (exn + A) * W.

(** [SequenceMatcher(None, a, b).ratio()] of [difflib]. *)
Variable ratio : string -> string -> Q.

(** [str(x)] for a float. *)
Variable str_of_float : Q -> string.

Local Open Scope prog_scope.

(** *** Primitive statements *)

Definition call_ext {R A} (c : call A) : M W R A :=
  fun s =>
    match oracle A c (world s) with
    | (inl e, w) => (Raised e, record_call w (Ev c) s)
    | (inr a, w) => (Normal a, record_call w (Ev c) s)
    end.

(** Ghost statement: note that a client method has been entered. *)
Definition enter {R} (c : client) : M W R unit := modify (record_enter c).

(** A new dictionary object. *)
Definition alloc {R} (d : Dict) : M W R loc :=
  fun s => (Normal (length (heap s)), set_heap (fun h => h ++ [d]) s).

Definition deref (h : list Dict) (l : loc) : Dict := default ∅ (h !! l).

(** The current contents of a dictionary object. *)
Definition read {R} (l : loc) : M W R Dict :=
  fun s => (Normal (deref (heap s) l), s).

(** [d[k] = v] *)
Definition setitem {R} (l : loc) (k v : string) : M W R unit :=
  modify (set_heap (fun h => <[l := <[k := v]> (deref h l)]> h)).

Fixpoint for_each {R A} (l : list A) (body : A -> M W R unit) : M W R unit :=
  match l with
  | [] => ret tt
  | x :: l' => body x ;; for_each l' body
  end.

Fixpoint map_m {R A B} (f : A -> M W R B) (l : list A) : M W R (list B) :=
  match l with
  | [] => ret []
  | x :: l' => y ← f x ; ys ← map_m f l' ; ret (y :: ys)
  end.

(** [try: m  except (C1, C2, ...): h]: other exceptions pass. *)
Definition try_except_in {R A} (classes : list exn_class)
    (m : M W R A) (h : exn -> M W R A) : M W R A :=
  try_except m (fun e =>
    if existsb (fun c => bool_decide (c = exn_cls e)) classes
    then h e else raise e).

(** *** [_rate_limit] *)
Definition _rate_limit {R} : M W R unit :=
  current_time ← call_ext TimeTime ;
  s ← get_state ;
  let time_since_last := (current_time - last_request_time s)%Q in
  when (Qlt_bool time_since_last rate_limit_delay)
    (call_ext (TimeSleep (rate_limit_delay - time_since_last)%Q)) ;;
  now ← call_ext TimeTime ;
  modify (set_last_request_time now).

(** *** [audio_fingerprint_lookup] *)

(** The [track_number] found in the media of a release: in each
    medium the first track with the recording's id; a later medium
    overrides an earlier one. *)
Definition position_in_medium (recording_id : option string)
    (medium : AcMedium) : option string :=
  match am_tracks medium with
  | Some tracks =>
      match List.find
              (fun track => bool_decide (at_id track = recording_id)) tracks
      with
      | Some track => Some (default "" (at_position track))
      | None => None
      end
  | None => None
  end.

Definition with_track_position (recording_id : option string)
    (mediums : list AcMedium) (metadata : Dict) : Dict :=
  fold_left
    (fun md medium =>
       match position_in_medium recording_id medium with
       | Some position => <["track_number" := position]> md
       | None => md
       end)
    mediums metadata.

Definition fingerprint_metadata_of (duration : Q) (result : AcResult)
    (recording : AcRecording) : Dict :=
  let metadata : Dict :=
    {[ "title" := default "" (arec_title recording);
       "musicbrainz_recordingid" := default "" (arec_id recording);
       "duration" := str_of_float duration;
       "acoustid_score" :=
         match ares_score result with
         | Some score => str_of_float score
         | None => "0"
         end ]} in
  let metadata :=
    match arec_artists recording with
    | Some (artist0 :: _) =>
        <["musicbrainz_artistid" := default "" (aa_id artist0)]>
          (<["artist" := default "" (aa_name artist0)]> metadata)
    | _ => metadata
    end in
  match arec_releases recording with
  | Some (release :: _) =>
      let metadata :=
        <["date" := default "" (arl_date release)]>
          (<["musicbrainz_albumid" := default "" (arl_id release)]>
             (<["album" := default "" (arl_title release)]> metadata)) in
      match arl_mediums release with
      | Some mediums =>
          with_track_position (arec_id recording) mediums metadata
      | None => metadata
      end
  | _ => metadata
  end.

Definition audio_fingerprint_lookup {R} (file_path : Path.t)
  : M W R (option loc) :=
  enter FingerprintClient ;;
  fn (
    s ← get_state ;
    when (negb (fingerprint_enabled s)) (return_ None) ;;
    st_size ← call_ext (Stat file_path) ;
    let cache_key :=
      ("fingerprint_" ++ Path.name file_path ++ "_"
         ++ Py.str_of_int st_size)%string in
    let remember (v : option loc) : M W (option loc) unit :=
      modify (set_fingerprint_cache (insert cache_key v)) in
    s ← get_state ;
    match fingerprint_cache s !! cache_key with
    | Some v => return_ v
    | None => ret tt
    end ;;
    try_except (
      (* Check if fpcalc is available *)
      try_except_in [TimeoutExpired; FileNotFoundError; CalledProcessError]
        (call_ext RunFpcalcVersion)
        (fun _ =>
           try_except (
             stderr ← call_ext RunFpcalc ;
             when (negb (Py.contains "No input files" stderr)) (
               modify (set_fingerprint_enabled false) ;;
               remember None ;;
               return_ None))
           (fun _ =>
              modify (set_fingerprint_enabled false) ;;
              remember None ;;
              return_ None)) ;;
      (* Generate audio fingerprint *)
      '(duration, fingerprint) ←
        try_except (call_ext (FingerprintFile file_path))
          (fun e =>
             when (Py.contains "fpcalc" (Py.lower (exn_msg e)))
               (modify (set_fingerprint_enabled false)) ;;
             remember None ;;
             return_ None) ;
      when (negb (Py.truthy fingerprint)) (remember None ;; return_ None) ;;
      (* Lookup in AcoustID database *)
      try_except (
        results ← call_ext (AcoustidLookup fingerprint duration) ;
        when (bool_decide (aresp_status results = Some "ok")
              && nonempty (default [] (aresp_results results))) (
          for_each (default [] (aresp_results results)) (fun result =>
            when (Qlt_bool 0.8 (default 0%Q (ares_score result))) (
              match default [] (ares_recordings result) with
              | recording :: _ =>
                  metadata ← alloc (fingerprint_metadata_of duration result recording) ;
                  remember (Some metadata) ;;
                  return_ (Some metadata)
              | [] => ret tt
              end))) ;;
        remember None ;;
        return_ None)
      (fun _ => remember None ;; return_ None))
    (fun _ => remember None ;; return_ None)).

(** *** [search_album_tracks] *)

(** [x[0]] on a list. *)
Definition first_item {A} (l : list A) : exn + A :=
  match l with
  | x :: _ => inr x
  | [] => inl (MkExn IndexError "list index out of range")
  end.

(** The similarity of the query artist with the first credited
    artist; [0] when the key [artist-credit] is absent. *)
Definition credit_score (artist : string)
    (credit : option (list ArtistCredit)) : exn + Q :=
  match credit with
  | Some credits =>
      match first_item credits with
      | inr c =>
          inr (ratio (Py.lower artist) (Py.lower (default "" (ac_name c))))
      | inl e => inl e
      end
  | None => inr 0%Q
  end.

(** The loop over [result['release-list']] that keeps the best
    scoring release. *)
Fixpoint best_release_loop (artist album : string) (releases : list Release)
    (best_release : option Release) (best_score : Q)
  : exn + (option Release * Q) :=
  match releases with
  | [] => inr (best_release, best_score)
  | release :: releases' =>
      let album_score :=
        ratio (Py.lower album) (Py.lower (default "" (rel_title release))) in
      match credit_score artist (rel_artist_credit release) with
      | inl e => inl e
      | inr artist_score =>
          let total_score := ((album_score + artist_score) / 2)%Q in
          if Qlt_bool best_score total_score
          then best_release_loop artist album releases' (Some release) total_score
          else best_release_loop artist album releases' best_release best_score
      end
  end.

(** Truthiness of a release dictionary. *)
Definition release_truthy (r : Release) : bool :=
  rel_extra r || present (rel_id r) || present (rel_title r)
  || present (rel_date r) || present (rel_artist_credit r).

Definition track_info (artist album release_id : string)
    (best_release : Release) (track : Track) : Dict :=
  let info : Dict :=
    {[ "position" := default "" (trk_position track);
       "title" :=
         match trk_recording track with
         | Some recording => default "" (rr_title recording)
         | None => default "" (trk_title track)
         end;
       "length" := default "" (trk_length track);
       "artist" := artist;
       "album" := default album (rel_title best_release);
       "date" := default "" (rel_date best_release);
       "musicbrainz_albumid" := release_id ]} in
  match trk_recording track with
  | Some recording =>
      <["musicbrainz_recordingid" := default "" (rr_id recording)]> info
  | None => info
  end.

(** All tracks of all media, in order. *)
Definition all_tracks (rel : ReleaseBody) : list Track :=
  match rb_medium_list rel with
  | Some mediums =>
      concat (map (fun medium => default [] (med_track_list medium)) mediums)
  | None => []
  end.

Definition search_album_tracks {R} (artist album : string)
  : M W R (option (list loc)) :=
  enter AlbumClient ;;
  fn (
    when (negb (Py.all_truthy [artist; album])) (return_ None) ;;
    let cache_key := Py.lower ("album_" ++ artist ++ "|" ++ album)%string in
    let remember (v : option (list loc)) : M W (option (list loc)) unit :=
      modify (set_album_cache (insert cache_key v)) in
    s ← get_state ;
    match album_cache s !! cache_key with
    | Some v => return_ v
    | None => ret tt
    end ;;
    try_except (
      _rate_limit ;;
      let query :=
        ("artist:" ++ quoted artist ++ " AND release:" ++ quoted album)%string in
      result ← call_ext (SearchReleases query) ;
      result ←
        (if nonempty result then ret result
         else
           let query := ("artist:" ++ artist ++ " AND release:" ++ album)%string in
           call_ext (SearchReleases query)) ;
      when (nonempty result) (
        '(best_release, best_score) ←
          lift (best_release_loop artist album result None 0%Q) ;
        match best_release with
        | Some best_release =>
            when (release_truthy best_release && Qlt_bool 0.7 best_score) (
              release_id ←
                lift (match rel_id best_release with
                      | Some i => inr i
                      | None => inl (MkExn KeyError "'id'")
                      end) ;
              _rate_limit ;;
              detailed_release ← call_ext (GetReleaseById release_id) ;
              match rd_release detailed_release with
              | Some rel =>
                  tracks ←
                    map_m
                      (fun track =>
                         alloc (track_info artist album release_id best_release track))
                      (all_tracks rel) ;
                  remember (Some tracks) ;;
                  return_ (Some tracks)
              | None => ret tt
              end)
        | None => ret tt
        end) ;;
      remember None ;;
      return_ None)
    (fun _ => remember None ;; return_ None)).

(** *** [search_track_by_position] *)

(** [int(track.get('position', 0))]; [None] stands for [ValueError]. *)
Definition position_of (track : Dict) : option Z :=
  match track !! "position" with
  | Some p => Py.int_of_str p
  | None => Some 0
  end.

Definition search_track_by_position {R} (artist album : string)
    (track_number : Z) : M W R (option loc) :=
  fn (
    tracks ← search_album_tracks artist album ;
    match tracks with
    | None | Some [] => return_ None
    | Some tracks =>
        (* Find track by position *)
        for_each tracks (fun track =>
          d ← read track ;
          when (bool_decide (position_of d = Some track_number))
            (return_ (Some track))) ;;
        (* If exact position not found, try by index *)
        when ((0 <=? track_number - 1) && (track_number - 1 <? Z.of_nat (length tracks))) (
          match tracks !! Z.to_nat (track_number - 1) with
          | Some track => return_ (Some track)
          | None => ret tt
          end) ;;
        return_ None
    end).

(** *** [search_musicbrainz_individual] *)

(** The best similarity of the album with one of the releases. *)
Definition best_album_score (album : string)
    (releases : list ReleaseRef) : Q :=
  fold_left
    (fun album_score release =>
       let score :=
         ratio (Py.lower album) (Py.lower (default "" (rref_title release))) in
       if Qlt_bool album_score score then score else album_score)
    releases 0%Q.

(** The loop over [result['recording-list']]. *)
Fixpoint best_recording_loop (artist album title : string)
    (recordings : list Recording)
    (best_recording : option Recording) (best_score : Q)
  : exn + (option Recording * Q) :=
  match recordings with
  | [] => inr (best_recording, best_score)
  | recording :: recordings' =>
      let title_score :=
        ratio (Py.lower title) (Py.lower (default "" (rec_title recording))) in
      match credit_score artist (rec_artist_credit recording) with
      | inl e => inl e
      | inr artist_score =>
          let album_score :=
            match rec_release_list recording with
            | Some releases =>
                if Py.truthy album then best_album_score album releases else 0%Q
            | None => 0%Q
            end in
          let total_score :=
            (title_score * 0.5 + artist_score * 0.3 + album_score * 0.2)%Q in
          if Qlt_bool best_score total_score
          then best_recording_loop artist album title recordings'
                 (Some recording) total_score
          else best_recording_loop artist album title recordings'
                 best_recording best_score
      end
  end.

(** Truthiness of a recording dictionary. *)
Definition recording_truthy (r : Recording) : bool :=
  rec_extra r || present (rec_id r) || present (rec_title r)
  || present (rec_artist_credit r) || present (rec_release_list r).

(** [_extract_recording_metadata] *)
Definition _extract_recording_metadata (recording : Recording)
    (fallback_artist fallback_album fallback_title : string) : exn + Dict :=
  let metadata : Dict :=
    {[ "musicbrainz_recordingid" := default "" (rec_id recording);
       "title" := default fallback_title (rec_title recording);
       "artist" := fallback_artist;
       "album" := fallback_album ]} in
  match
    match rec_artist_credit recording with
    | Some credits =>
        match first_item credits with
        | inr artist_credit =>
            match ac_artist artist_credit with
            | Some a =>
                inr (<["artist" := default fallback_artist (ar_name a)]>
                       (<["musicbrainz_artistid" := default "" (ar_id a)]> metadata))
            | None => inr metadata
            end
        | inl e => inl e
        end
    | None => inr metadata
    end
  with
  | inl e => inl e
  | inr metadata =>
      match rec_release_list recording with
      | Some releases =>
          match first_item releases with
          | inr release =>
              inr (<["date" := default "" (rref_date release)]>
                     (<["album" := default fallback_album (rref_title release)]>
                        (<["musicbrainz_albumid" := default "" (rref_id release)]>
                           metadata)))
          | inl e => inl e
          end
      | None => inr metadata
      end
  end.

Definition search_strategies (artist album title : string) : list string :=
  [ ("artist:" ++ quoted artist ++ " AND recording:" ++ quoted title
       ++ (if Py.truthy album then " AND release:" ++ quoted album else ""))%string;
    ("artist:" ++ artist ++ " AND recording:" ++ title
       ++ (if Py.truthy album then " AND release:" ++ album else ""))%string;
    ("artist:" ++ artist ++ " AND recording:" ++ title)%string;
    (artist ++ " " ++ title)%string ].

Definition search_musicbrainz_individual {R} (artist album title : string)
  : M W R (option loc) :=
  enter TrackClient ;;
  fn (
    when (negb (Py.all_truthy [artist; title])) (return_ None) ;;
    let cache_key :=
      Py.lower ("track_" ++ artist ++ "|" ++ album ++ "|" ++ title)%string in
    let remember (v : option loc) : M W (option loc) unit :=
      modify (set_cache (insert cache_key v)) in
    s ← get_state ;
    match cache s !! cache_key with
    | Some v => return_ v
    | None => ret tt
    end ;;
    try_except (
      _rate_limit ;;
      let strategies := search_strategies artist album title in
      for_each (imap pair strategies) (fun '(i, query) =>
        try_except (
          result ← call_ext (SearchRecordings query) ;
          when (nonempty result) (
            '(best_recording, best_score) ←
              lift (best_recording_loop artist album title result None 0%Q) ;
            let min_threshold := if Nat.eqb i 0 then 0.8%Q else 0.6%Q in
            match best_recording with
            | Some best_recording =>
                when (recording_truthy best_recording
                      && Qle_bool min_threshold best_score) (
                  d ← lift (_extract_recording_metadata best_recording
                              artist album title) ;
                  metadata ← alloc d ;
                  remember (Some metadata) ;;
                  return_ (Some metadata))
            | None => ret tt
            end) ;;
          when (Nat.ltb i (length strategies - 1)) _rate_limit)
        (fun _ => ret tt)) ;;
      remember None ;;
      return_ None)
    (fun _ => remember None ;; return_ None)).

(** *** [lastfm_search] *)

(** [track.get_artist().get_name() if track.get_artist() else dflt]:
    [get_artist] is evaluated for the test and again for the name. *)
Definition track_artist_name {R} (track : TrackObj) (dflt : string)
  : M W R (option string) :=
  a ← call_ext (LfmTrackGetArtist track) ;
  match a with
  | Some _ =>
      a' ← call_ext (LfmTrackGetArtist track) ;
      match a' with
      | Some artist_obj => call_ext (LfmArtistGetName artist_obj)
      | None =>
          raise (MkExn OtherError
                   "'NoneType' object has no attribute 'get_name'")
      end
  | None => ret (Some dflt)
  end.

(** [str(n) if n else '0'] for an optional counter. *)
Definition counter_str (n : option Z) : string :=
  if int_truthy n then Py.str_of_int (default 0 n) else "0".

(** The confidence of a Last.fm answer: the mean of the title and the
    artist similarity between the query and the answer. *)
Definition lastfm_confidence (artist title : string) (metadata : Dict) : Q :=
  let title_similarity :=
    ratio (Py.lower title) (Py.lower (dict_get metadata "title" "")) in
  let artist_similarity :=
    ratio (Py.lower artist) (Py.lower (dict_get metadata "artist" "")) in
  ((title_similarity + artist_similarity) / 2)%Q.

Definition lastfm_search {R} (artist title album : string)
  : M W R (option loc) :=
  enter TextClient ;;
  fn (
    s ← get_state ;
    when (negb (lastfm_enabled s) || negb (Py.all_truthy [artist; title]))
      (return_ None) ;;
    let cache_key :=
      Py.lower ("lastfm_" ++ artist ++ "|" ++ title ++ "|" ++ album)%string in
    let remember (v : option loc) : M W (option loc) unit :=
      modify (set_lastfm_cache (insert cache_key v)) in
    match lastfm_cache s !! cache_key with
    | Some v => return_ v
    | None => ret tt
    end ;;
    try_except (
      call_ext (TimeSleep 0.3%Q) ;;
      (* Search for track *)
      try_except (
        track ← call_ext (LfmGetTrack artist title) ;
        try_except (
          track_title ← call_ext (LfmTrackGetName track) ;
          track_artist ← track_artist_name track artist ;
          track_url ← call_ext (LfmTrackGetUrl track) ;
          metadata ← alloc
            {[ "title" := or_else track_title title;
               "artist" := or_else track_artist artist;
               "lastfm_url" := or_else track_url "" ]} ;
          try_except (
            playcount ← call_ext (LfmTrackGetPlaycount track) ;
            setitem metadata "playcount" (counter_str playcount))
          (fun _ => setitem metadata "playcount" "0") ;;
          try_except (
            listeners ← call_ext (LfmTrackGetListenerCount track) ;
            setitem metadata "listeners" (counter_str listeners))
          (fun _ => setitem metadata "listeners" "0") ;;
          (* Get album info if available *)
          try_except (
            track_album ← call_ext (LfmTrackGetAlbum track) ;
            match track_album with
            | Some album_obj =>
                album_title ← call_ext (LfmAlbumGetName album_obj) ;
                when (Py.truthy (or_else album_title "")) (
                  setitem metadata "album" (or_else album_title "") ;;
                  album_url ← call_ext (LfmAlbumGetUrl album_obj) ;
                  setitem metadata "lastfm_album_url" (or_else album_url ""))
            | None =>
                when (Py.truthy album) (setitem metadata "album" album)
            end)
          (fun _ => when (Py.truthy album) (setitem metadata "album" album)) ;;
          (* Get tags/genres *)
          try_except (
            call_ext (TimeSleep 0.2%Q) ;;
            tags ← call_ext (LfmTrackGetTopTags track 3) ;
            when (nonempty tags) (
              genre_list ← map_m (fun tag => call_ext (LfmTagGetName tag)) tags ;
              when (nonempty genre_list)
                (setitem metadata "genre" (join ", " genre_list))))
          (fun _ => ret tt) ;;
          (* Calculate confidence score based on match quality *)
          d ← read metadata ;
          let confidence := lastfm_confidence artist title d in
          setitem metadata "lastfm_confidence" (str_of_float confidence) ;;
          when (Qlt_bool 0.8 confidence) (
            remember (Some metadata) ;;
            return_ (Some metadata)))
        (fun _ => ret tt))
      (fun _ => ret tt) ;;
      (* Try artist correction if direct search failed *)
      try_except (
        artist_obj ← call_ext (LfmGetArtist artist) ;
        corrected_artist ← call_ext (LfmArtistGetCorrection artist_obj) ;
        match corrected_artist with
        | Some corrected_artist =>
            when (Py.truthy corrected_artist
                  && negb (String.eqb corrected_artist artist)) (
              track ← call_ext (LfmGetTrack corrected_artist title) ;
              track_title ← call_ext (LfmTrackGetName track) ;
              track_artist ← track_artist_name track corrected_artist ;
              metadata ← alloc
                {[ "title" := or_else track_title title;
                   "artist" := or_else track_artist corrected_artist;
                   "album" := album;
                   "lastfm_corrected" := "true" ]} ;
              remember (Some metadata) ;;
              return_ (Some metadata))
        | None => ret tt
        end)
      (fun _ => ret tt) ;;
      remember None ;;
      return_ None)
    (fun _ => remember None ;; return_ None)).

(** *** [get_metadata] *)

(** Truthiness of an optional dictionary object. *)
Definition found {R} (x : option loc) : M W R bool :=
  match x with
  | Some l => d ← read l ; ret (dict_truthy d)
  | None => ret false
  end.

(** [if track_number and not md.get('track_number'):
       md['track_number'] = str(track_number).zfill(2)] *)
Definition backfill_track_number {R} (track_number : option Z) (l : loc)
  : M W R unit :=
  d ← read l ;
  when (int_truthy track_number && negb (has_value d "track_number"))
    (setitem l "track_number"
       (Py.zfill 2 (Py.str_of_int (default 0 track_number)))).

(** Strategies 2 to 6 of [get_metadata]: what it does once the
    existing metadata has been found incomplete. *)
Definition lookup_strategies (artist album title : string)
    (track_number : option Z) (is_generic : bool)
    (file_path : option Path.t) (existing_metadata : option loc)
  : M W loc Empty_set :=
    (* Strategy 2: For GENERIC files - Audio fingerprinting FIRST *)
    s ← get_state ;
    match file_path with
    | Some path =>
        when (is_generic && fingerprint_enabled s) (
          fingerprint_metadata ← audio_fingerprint_lookup path ;
          ok ← found fingerprint_metadata ;
          match fingerprint_metadata with
          | Some l =>
              when ok (backfill_track_number track_number l ;; return_ l)
          | None => ret tt
          end)
    | None => ret tt
    end ;;
    (* Strategy 3: For GENERIC files - Album-based lookup *)
    when (is_generic && int_truthy track_number
          && Py.truthy artist && Py.truthy album) (
      album_metadata ←
        search_track_by_position artist album (default 0 track_number) ;
      ok ← found album_metadata ;
      match album_metadata with
      | Some l => when ok (return_ l)
      | None => ret tt
      end) ;;
    (* Strategy 4: For NON-GENERIC files - Individual track search *)
    when (negb is_generic) (
      track_metadata ← search_musicbrainz_individual artist album title ;
      ok ← found track_metadata ;
      match track_metadata with
      | Some l => when ok (return_ l)
      | None => ret tt
      end ;;
      (* Try audio fingerprinting for non-generic files too *)
      s ← get_state ;
      match file_path with
      | Some path =>
          when (fingerprint_enabled s) (
            fingerprint_metadata ← audio_fingerprint_lookup path ;
            ok ← found fingerprint_metadata ;
            match fingerprint_metadata with
            | Some l =>
                when ok (backfill_track_number track_number l ;; return_ l)
            | None => ret tt
            end)
      | None => ret tt
      end ;;
      (* Try Last.fm with the known (non-generic) title *)
      s ← get_state ;
      when (lastfm_enabled s) (
        lastfm_metadata ← lastfm_search artist title album ;
        ok ← found lastfm_metadata ;
        match lastfm_metadata with
        | Some l =>
            when ok (backfill_track_number track_number l ;; return_ l)
        | None => ret tt
        end)) ;;
    (* Strategy 6: Fallback to directory structure *)
    let fallback_metadata := fallback_dict artist album title track_number in
    existing ←
      match existing_metadata with
      | Some l => read l
      | None => ret ∅
      end ;
    fallback ← alloc (merge_existing fallback_metadata existing) ;
    return_ fallback.

Definition get_metadata {R} (artist album title : string)
    (track_number : option Z) (is_generic : bool)
    (file_path : option Path.t) (existing_metadata : option loc)
  : M W R loc :=
  fn (
    (* Strategy 1: Check if existing metadata is already complete *)
    match existing_metadata with
    | Some l =>
        d ← read l ;
        when (dict_truthy d && _is_metadata_complete d) (return_ l)
    | None => ret tt
    end ;;
    lookup_strategies artist album title track_number is_generic
      file_path existing_metadata).

(** *** The caller in [process_file] *)

(** [int(s) if s.isdigit() else None] *)
Definition track_number_of (s : string) : option Z :=
  if Py.truthy s && forallb Py.is_digit (list_ascii_of_string s)
  then Py.int_of_str s else None.

(** How [process_file] resolves the metadata of one audio file: it
    parses the path and hands the result to [get_metadata]. *)
Definition lookup_for_file {R} (audio_file source_path : Path.t)
    (existing_metadata : option loc) : M W R loc :=
  match parse_directory_structure audio_file source_path with
  | Some dir_metadata =>
      get_metadata (pm_artist dir_metadata) (pm_album dir_metadata)
        (pm_title dir_metadata)
        (track_number_of (pm_track_number dir_metadata))
        (pm_is_generic dir_metadata) (Some audio_file) existing_metadata
  | None => raise (MkExn ValueError "path is not in the subpath of the root")
  end.

End Lookup.

(** [__init__]: empty caches, the clock at zero, and the two switches
    as the configuration sets them. *)
Definition init_state {W : Type} (enable_fingerprinting lastfm_configured : bool)
    (objects : list Dict) (w : W) : State W :=
  MkState ∅ ∅ ∅ ∅ 0%Q enable_fingerprinting lastfm_configured objects w [] [].

(** ** Worlds used in the examples *)

(** A stand-in for [difflib]'s ratio that agrees with it on the pairs
    the examples compare: equal strings (1) and strings without a
    common character (0). *)
Definition exact_ratio (a b : string) : Q :=
  if String.eqb a b then 1%Q else 0%Q.

(** A stand-in for the printing of floats. *)
Definition plain_float (q : Q) : string :=
  (Py.str_of_int (Qnum q) ++ "/" ++ Py.str_of_int (Zpos (Qden q)))%string.

Definition unreachable : exn := MkExn OSError "Network is unreachable".

(** The clock and the file system work; every service is down. *)
Definition offline (A : Type) (c : call A) (w : unit) : (exn + A) * unit :=
  match c in call T return (exn + T) * unit with
  | TimeTime => (inr 0%Q, w)
  | TimeSleep _ => (inr tt, w)
  | Stat _ => (inr 1024, w)
  | _ => (inl unreachable, w)
  end.

(** The catalog answers every search with an empty list. *)
Definition empty_catalog (A : Type) (c : call A) (w : unit)
  : (exn + A) * unit :=
  match c in call T return (exn + T) * unit with
  | TimeTime => (inr 0%Q, w)
  | TimeSleep _ => (inr tt, w)
  | SearchReleases _ => (inr [], w)
  | SearchRecordings _ => (inr [], w)
  | _ => (inl unreachable, w)
  end.

Definition queen_song : Recording :=
  {| rec_extra := false;
     rec_id := Some "rec-1";
     rec_title := Some "Song";
     rec_artist_credit :=
       Some [ {| ac_name := Some "Queen";
                 ac_artist := Some {| ar_id := Some "artist-1";
                                      ar_name := Some "Queen" |} |} ];
     rec_release_list :=
       Some [ {| rref_id := Some "release-1";
                 rref_title := Some "Opera";
                 rref_date := Some "1975" |} ] |}.

(** The catalog fails on a quoted query and answers an unquoted one. *)
Definition flaky_catalog (A : Type) (c : call A) (w : unit)
  : (exn + A) * unit :=
  match c in call T return (exn + T) * unit with
  | TimeTime => (inr 0%Q, w)
  | TimeSleep _ => (inr tt, w)
  | SearchRecordings query =>
      if Py.contains dquote query
      then (inl (MkExn OtherError "400 Bad Request"), w)
      else (inr [queen_song], w)
  | _ => (inl unreachable, w)
  end.


(** ** Vocabulary of the specification

    The program logic's triple, what a lookup may change, and what one
    call of each source client does. *)

Section Vocabulary.
Context {W : Type}.
Variable oracle : forall A : Type, call A -> W -> (exn + A) * W.

Definition hoare {R A} (P : State W -> Prop) (m : M W R A)
    (Qn : A -> State W -> Prop) (Qr : R -> State W -> Prop)
    (Qe : exn -> State W -> Prop) : Prop :=
  forall s, P s ->
    match m s with
    | (Normal a, s') => Qn a s'
    | (Returned r, s') => Qr r s'
    | (Raised e, s') => Qe e s'
    end.

(** Every call to the service raises, whatever the state of the world. *)
Definition service_down (svc : service) : Prop :=
  forall (A : Type) (c : call A) (w : W),
    service_of c = svc -> exists e w', oracle A c w = (inl e, w').

(** What a lookup may change between [s0] and [s]: it appends calls
    to the allowed services to the trace, allocates and fills
    dictionaries and moves the rate limiter's clock; it leaves the
    caches, the two switches and the ghost log alone. *)
Record frame (allowed : service -> bool) (s0 s : State W) : Prop := MkFrame {
  fr_cache : cache s = cache s0;
  fr_album_cache : album_cache s = album_cache s0;
  fr_fingerprint_cache : fingerprint_cache s = fingerprint_cache s0;
  fr_lastfm_cache : lastfm_cache s = lastfm_cache s0;
  fr_lastfm_enabled : lastfm_enabled s = lastfm_enabled s0;
  fr_fingerprint_enabled : fingerprint_enabled s = fingerprint_enabled s0;
  fr_entered : entered s = entered s0;
  fr_trace : exists evs, trace s = trace s0 ++ evs
               /\ Forall (fun e => allowed (event_service e) = true) evs
}.

(** The invariant of a lookup that started in [s0]: the frame, and,
    once [b] is set, the knowledge that a call to the service [svc]
    has been answered. *)
Definition inv (allowed : service -> bool) (svc : service)
    (s0 : State W) (b : bool) (s : State W) : Prop :=
  frame allowed s0 s /\ (b = true -> ~ service_down svc).

Definition catalog_only (svc : service) : bool :=
  bool_decide (svc = Clock) || bool_decide (svc = Catalog).

Definition album_key (artist album : string) : string :=
  Py.lower ("album_" ++ artist ++ "|" ++ album).

(** What one call of [search_album_tracks] does, by cases on the
    guard and on the cache. *)
Definition album_outcome (artist album : string) (s : State W)
    (r : option (list loc)) (s' : State W) : Prop :=
  let s0 := record_enter AlbumClient s in
  if Py.all_truthy [artist; album] then
    match album_cache s !! album_key artist album with
    | Some v => r = v /\ s' = s0
    | None =>
        exists s1, frame catalog_only s0 s1
          /\ s' = set_album_cache (insert (album_key artist album) r) s1
          /\ (service_down Catalog -> r = None)
    end
  else r = None /\ s' = s0.

Definition track_key (artist album title : string) : string :=
  Py.lower ("track_" ++ artist ++ "|" ++ album ++ "|" ++ title).

Definition track_outcome (artist album title : string) (s : State W)
    (r : option loc) (s' : State W) : Prop :=
  let s0 := record_enter TrackClient s in
  if Py.all_truthy [artist; title] then
    match cache s !! track_key artist album title with
    | Some v => r = v /\ s' = s0
    | None =>
        exists s1, frame catalog_only s0 s1
          /\ s' = set_cache (insert (track_key artist album title) r) s1
          /\ (service_down Catalog -> r = None)
    end
  else r = None /\ s' = s0.

Definition text_only (svc : service) : bool :=
  bool_decide (svc = Clock) || bool_decide (svc = TextSearch).

Definition lastfm_key (artist title album : string) : string :=
  Py.lower ("lastfm_" ++ artist ++ "|" ++ title ++ "|" ++ album).

Definition text_outcome (artist title album : string) (s : State W)
    (r : option loc) (s' : State W) : Prop :=
  let s0 := record_enter TextClient s in
  if lastfm_enabled s && Py.all_truthy [artist; title] then
    match lastfm_cache s !! lastfm_key artist title album with
    | Some v => r = v /\ s' = s0
    | None =>
        exists s1, frame text_only s0 s1
          /\ s' = set_lastfm_cache (insert (lastfm_key artist title album) r) s1
          /\ (service_down TextSearch -> r = None)
    end
  else r = None /\ s' = s0.

Definition acoustic_only (svc : service) : bool :=
  bool_decide (svc = Acoustic).

Definition fingerprint_key (file_path : Path.t) (st_size : Z) : string :=
  "fingerprint_" ++ Path.name file_path ++ "_" ++ Py.str_of_int st_size.

(** A lookup that found the [fpcalc] tool missing switches the client
    off before it stores its no-match. *)
Definition fingerprint_stored (key : string) (r : option loc)
    (s1 s' : State W) : Prop :=
  s' = set_fingerprint_cache (insert key r) s1
  \/ (r = None
      /\ s' = set_fingerprint_cache (insert key None)
               (set_fingerprint_enabled false s1)).

Definition fingerprint_outcome (file_path : Path.t) (s : State W)
    (r : option loc) (s' : State W) : Prop :=
  let s0 := record_enter FingerprintClient s in
  if fingerprint_enabled s then
    exists st_size w,
      oracle Z (Stat file_path) (world s) = (inr st_size, w)
      /\ let s1 := record_call w (Ev (Stat file_path)) s0 in
         match fingerprint_cache s !! fingerprint_key file_path st_size with
         | Some v => r = v /\ s' = s1
         | None =>
             exists s2, frame acoustic_only s1 s2
               /\ fingerprint_stored
                    (fingerprint_key file_path st_size) r s2 s'
               /\ (service_down Acoustic -> r = None)
         end
  else r = None /\ s' = s0.

(** The only exception that leaves the client: [stat] failed. *)
Definition fingerprint_raises (file_path : Path.t) (s : State W)
    (e : exn) (s' : State W) : Prop :=
  fingerprint_enabled s = true
  /\ exists w, oracle Z (Stat file_path) (world s) = (inl e, w)
       /\ s' = record_call w (Ev (Stat file_path))
                (record_enter FingerprintClient s).

Definition stat_succeeds (file_path : option Path.t) : Prop :=
  forall path, file_path = Some path ->
    forall w, exists st_size w', oracle Z (Stat path) w = (inr st_size, w').

(** The file keeps its size: [stat] answers [st_size] whenever asked. *)
Definition stat_stable (path : Path.t) (st_size : Z) : Prop :=
  forall w, exists w', oracle Z (Stat path) w = (inr st_size, w').

(** From [s0] to [s] the text search client was not entered, no call
    went to the text search service, and its cache is as it was. *)
Definition quiet (s0 s : State W) : Prop :=
  (exists cs, entered s = entered s0 ++ cs /\ TextClient ∉ cs)
  /\ (exists evs, trace s = trace s0 ++ evs
        /\ Forall (fun e => event_service e <> TextSearch) evs)
  /\ lastfm_cache s = lastfm_cache s0.

(** No cache holds a match. *)
Definition no_match_cached (s : State W) : Prop :=
  (forall k v, cache s !! k = Some v -> v = None)
  /\ (forall k v, album_cache s !! k = Some v -> v = None)
  /\ (forall k v, fingerprint_cache s !! k = Some v -> v = None)
  /\ (forall k v, lastfm_cache s !! k = Some v -> v = None).

(** The fields the fallback guarantees. *)
Definition fields_ok (artist title : string) (d : Dict) : Prop :=
  is_Some (d !! "title") /\ is_Some (d !! "artist")
  /\ (title <> "" -> has_value d "title" = true)
  /\ (artist <> "" -> has_value d "artist" = true).

(** The returned object is in the heap and has the fallback's fields. *)
Definition record_ok (artist title : string) (l : loc) (s : State W) : Prop :=
  exists d, heap s !! l = Some d /\ fields_ok artist title d.

End Vocabulary.

(** ** Inputs of the examples *)

Definition opera_file : Path.t :=
  Path.of_string
    "/music/Queen/A Night at the Opera (1975)/04 Bohemian Rhapsody.wav".

(** What the specification expects for [opera_file]. *)
Definition opera_expected : PathMetadata :=
  {| pm_title := "Bohemian Rhapsody";
     pm_artist := "Queen";
     pm_album := "A Night at the Opera";
     pm_year := "1975";
     pm_track_number := "04";
     pm_is_generic := false |}.

(** A file directly below the scan root, with no tags yet. *)
Definition song_file : Path.t := Path.of_string "/music/Song.wav".

Definition song_start : State unit := init_state true true [∅] tt.

(** A tagged record with a recording identifier, and the same record
    without it. *)
Definition tagged_record : Dict :=
  {[ "title" := "Bohemian Rhapsody"; "artist" := "Queen";
     "album" := "A Night at the Opera";
     "musicbrainz_recordingid" := "b1a9c0e9-d987-4042-ae91-78d6a3267d69" ]}.

Definition untagged_record : Dict :=
  {[ "title" := "Bohemian Rhapsody"; "artist" := "Queen";
     "album" := "A Night at the Opera" ]}.

Definition tagged_start : State unit :=
  init_state true true [tagged_record; untagged_record] tt.

Definition catalog_start : State unit := init_state true false [] tt.

Definition catalog_calls (s : State unit) : nat :=
  length (filter (fun e => event_service e = Catalog) (trace s)).



(** A record with clean text fields whose only identifier is that of
    the album. *)
Definition album_id_record : Dict :=
  {[ "title" := "Song"; "artist" := "Queen"; "album" := "Opera";
     "musicbrainz_albumid" := "release-1" ]}.

Definition album_id_start : State unit :=
  init_state true false [album_id_record] tt.

(** ** Analysis of the regular expressions

    Vocabulary for what a pattern can match: the loop of a repetition,
    patterns that must read a character of a class, patterns that
    always match, and what the captures of a match begin with. *)

(** The loop of [Re.run] at a starred pattern, by name. *)
Section StarLoop.
Context {R : Type}.
Variable ic : bool.
Variable r1 : Re.regex.
Variable k : Re.cursor -> Re.captures -> option R.

Fixpoint star_loop (fuel : nat) (p : Re.cursor) (cs : Re.captures)
  : option R :=
  match fuel with
  | O => k p cs
  | S fuel' =>
      match
        Re.run ic r1 p cs (fun p' cs' =>
          if Nat.ltb (length (Re.rest p')) (length (Re.rest p))
          then star_loop fuel' p' cs'
          else k p' cs')
      with
      | Some res => Some res
      | None => k p cs
      end
  end.
End StarLoop.

(** The cursor after the characters [pre] have been read. *)
Definition cursor_after (prev : option ascii) (pre post : list ascii)
  : Re.cursor :=
  {| Re.before := fold_left (fun _ x => Some x) pre prev; Re.rest := post |}.

Definition all_ascii : list ascii := map ascii_of_nat (seq 0 256).

(** Every character the pattern can read at this place is [good]. *)
Definition reads_only (ic : bool) (good : ascii -> bool) (r : Re.regex) : bool :=
  match r with
  | Re.Chr c => forallb (fun x => implb (Re.chr_match ic c x) (good x)) all_ascii
  | Re.Class neg f =>
      forallb (fun x => implb (Re.class_match ic neg f x) (good x)) all_ascii
  | _ => false
  end.

(** Every match of the pattern reads a [good] character. *)
Fixpoint must_read (ic : bool) (good : ascii -> bool) (r : Re.regex) : bool :=
  match r with
  | Re.Never => true
  | Re.Chr _ | Re.Class _ _ => reads_only ic good r
  | Re.Cat r1 r2 => must_read ic good r1 || must_read ic good r2
  | Re.Alt r1 r2 => must_read ic good r1 && must_read ic good r2
  | Re.Group _ r1 => must_read ic good r1
  | _ => false
  end.

(** The pattern matches the empty string at every place. *)
Fixpoint always_matches (r : Re.regex) : bool :=
  match r with
  | Re.Eps | Re.Star _ | Re.Opt _ => true
  | Re.Cat r1 r2 => always_matches r1 && always_matches r2
  | Re.Alt r1 r2 => always_matches r1 || always_matches r2
  | Re.Group _ r1 => always_matches r1
  | _ => false
  end.

(** The pattern has no capturing group. *)
Fixpoint group_free (r : Re.regex) : bool :=
  match r with
  | Re.Group _ _ => false
  | Re.Cat r1 r2 | Re.Alt r1 r2 => group_free r1 && group_free r2
  | Re.Star r1 | Re.Opt r1 => group_free r1
  | _ => true
  end.

(** A word, character by character, followed by [r]. *)
Definition literal_then (w : list ascii) (r : Re.regex) : Re.regex :=
  fold_right (fun c acc => Re.Cat (Re.Chr c) acc) r w.

(** No character that is left at the cursor is [good]. *)
Definition clean (good : ascii -> bool) (p : Re.cursor) : Prop :=
  Forall (fun x => good x = false) (Re.rest p).

(** ** Digits in file names *)

(** [s.isdigit()], ASCII range: non-empty and digits only. *)
Definition isdigit (s : string) : bool :=
  Py.truthy s && forallb Py.is_digit (list_ascii_of_string s).

Definition all_digits (s : string) : Prop :=
  s <> "" /\ Forall (fun c => Py.is_digit c = true) (list_ascii_of_string s).

(** The string goes on with a digit. *)
Definition starts_with_digit (s : string) : bool :=
  match s with
  | String c _ => Py.is_digit c
  | EmptyString => false
  end.

(** The pattern begins by reading a [good] character. *)
Fixpoint starts_with (ic : bool) (good : ascii -> bool) (r : Re.regex) : bool :=
  match r with
  | Re.Chr _ | Re.Class _ _ => reads_only ic good r
  | Re.Cat r1 _ => starts_with ic good r1
  | Re.Group _ r1 => starts_with ic good r1
  | _ => false
  end.

(** Every group of the pattern begins by reading a [good] character. *)
Fixpoint groups_start_with (ic : bool) (good : ascii -> bool) (r : Re.regex)
  : bool :=
  match r with
  | Re.Group _ r1 => starts_with ic good r1 && groups_start_with ic good r1
  | Re.Cat r1 r2 | Re.Alt r1 r2 =>
      groups_start_with ic good r1 && groups_start_with ic good r2
  | Re.Star r1 | Re.Opt r1 => groups_start_with ic good r1
  | _ => true
  end.

(** Every captured text begins with a [good] character. *)
Definition captures_start_with (good : ascii -> bool) (cs : Re.captures) : Prop :=
  Forall (fun e => match snd e with x :: _ => good x = true | [] => False end) cs.

(** What a successful run of [r] from [p] tells: the continuation
    was entered further on, with captures that all begin with a
    [good] character. *)
Definition run_post {R : Type} (ic : bool) (good : ascii -> bool)
    (r : Re.regex) (p : Re.cursor)
    (k : Re.cursor -> Re.captures -> option R) (res : R) : Prop :=
  exists p' cs',
    k p' cs' = Some res /\ captures_start_with good cs'
    /\ (length (Re.rest p') <= length (Re.rest p))%nat
    /\ (starts_with ic good r = true ->
        exists x l, Re.rest p = x :: l /\ good x = true
          /\ (length (Re.rest p') <= length l)%nat).

(** The string has a digit somewhere. *)
Definition has_digit (s : string) : bool :=
  existsb Py.is_digit (list_ascii_of_string s).

(** Every character of the string is in the ASCII range.  Outside it
    the model does not say what a digit is, while Python's [\d] and
    [int] also accept the decimal digits of other scripts. *)
Definition is_ascii (s : string) : bool :=
  forallb (fun c => Nat.ltb (Py.code c) 128) (list_ascii_of_string s).

(** ** Vocabulary of the path parser *)

(** The year and the album that [parse_directory_structure] reads off
    the last directory. *)
Definition year_and_album (parts : list string) : string * string :=
  match nth_last 0 parts with
  | Some album_part =>
      match find_year year_patterns album_part with
      | Some (year, album_clean) => (year, album_clean)
      | None => ("", album_part)
      end
  | None => ("", "")
  end.

(** The first two digits of a year the pattern accepts. *)
Definition century (s : string) : Prop := s = "19" \/ s = "20".

(** ** Which services a lookup calls *)

(** Between [s0] and [s] only calls to the allowed services were made. *)
Definition calls_only {W : Type} (allowed : service -> bool)
    (s0 s : State W) : Prop :=
  exists evs, trace s = trace s0 ++ evs
    /\ Forall (fun e => allowed (event_service e) = true) evs.

(** The services a fingerprint lookup uses. *)
Definition file_and_acoustic (svc : service) : bool :=
  bool_decide (svc = FileSystem) || bool_decide (svc = Acoustic).

(** The services of the text-based lookups. *)
Definition clock_catalog_text (svc : service) : bool :=
  bool_decide (svc = Clock) || bool_decide (svc = Catalog)
  || bool_decide (svc = TextSearch).

(** Fingerprinting is off, and since [s0] only the text-based lookups
    have made calls. *)
Definition off_inv {W : Type} (s0 s : State W) : Prop :=
  fingerprint_enabled s = false /\ calls_only clock_catalog_text s0 s.

(** ** The clock *)

(** A clock that does not run backwards and a sleep that lasts at
    least as long as asked: [now w] is the time in the world [w]. *)
Record clock_laws {W : Type}
    (oracle : forall A : Type, call A -> W -> (exn + A) * W)
    (now : W -> Q) : Prop := MkClockLaws {
  time_answers : forall w, exists w',
    oracle Q TimeTime w = (inr (now w), w') /\ (now w <= now w')%Q;
  sleep_answers : forall secs w, exists w',
    oracle unit (TimeSleep secs) w = (inr tt, w') /\ (now w + secs <= now w')%Q
}.

(** A world that is only a clock: the time is the world, sleeping
    moves it on, and nothing else answers. *)
Definition ticking (A : Type) (c : call A) (w : Q) : (exn + A) * Q :=
  match c in call T return (exn + T) * Q with
  | TimeTime => (inr w, w)
  | TimeSleep secs => (inr tt, (w + secs)%Q)
  | _ => (inl unreachable, w)
  end.

(** ** Answers of the searches *)

(** What [search_track_by_position] answers, given the track list
    [tracks] that [search_album_tracks] found. *)
Definition position_answer (tracks : option (list loc)) (track_number : Z)
    (r : option loc) : Prop :=
  (forall l, r = Some l -> exists tl, tracks = Some tl /\ l ∈ tl)
  /\ (forall tl, tracks = Some tl ->
        1 <= track_number <= Z.of_nat (length tl) -> is_Some r)
  /\ (tracks = None \/ tracks = Some [] -> r = None).

(** [total_score] of one release in [search_album_tracks]. *)
Definition release_total (ratio : string -> string -> Q)
    (artist album : string) (release : Release)
  : exn + Q :=
  match credit_score ratio artist (rel_artist_credit release) with
  | inl e => inl e
  | inr artist_score =>
      inr ((ratio (Py.lower album) (Py.lower (default "" (rel_title release)))
            + artist_score) / 2)%Q
  end.

(** [total_score] of one recording in [search_musicbrainz_individual]. *)
Definition recording_total (ratio : string -> string -> Q)
    (artist album title : string) (recording : Recording)
  : exn + Q :=
  match credit_score ratio artist (rec_artist_credit recording) with
  | inl e => inl e
  | inr artist_score =>
      let title_score :=
        ratio (Py.lower title) (Py.lower (default "" (rec_title recording))) in
      let album_score :=
        match rec_release_list recording with
        | Some releases =>
            if Py.truthy album then best_album_score ratio album releases
            else 0%Q
        | None => 0%Q
        end in
      inr (title_score * 0.5 + artist_score * 0.3 + album_score * 0.2)%Q
  end.

(** The second probe for the [fpcalc] tool finds it missing: the call
    raises, or its error output is not the tool's usage message. *)
Definition probe_fails (answer : exn + string) : bool :=
  match answer with
  | inl _ => true
  | inr stderr => negb (Py.contains "No input files" stderr)
  end.

(** The catalogue answered [result] to one of the [queries]. *)
Definition answered {W A : Type}
    (oracle : forall A : Type, call A -> W -> (exn + A) * W)
    (c : call A) (result : A) : Prop :=
  exists w, fst (oracle A c w) = inr result.

(** ** The class [EnhancedWAVToFLACConverter] *)

(** *** More of [pathlib] and [str] *)

(** [p.suffix]: the last dot of the name and what follows it, unless
    the dot leads or ends the name. *)
Definition path_suffix (p : Path.t) : string :=
  let l := list_ascii_of_string (Path.name p) in
  match Path.rfind_dot l with
  | Some i =>
      if (Nat.ltb 0 i && Nat.ltb i (length l - 1))%bool
      then string_of_list_ascii (drop i l)
      else ""
  | None => ""
  end.

(** [p / q] *)
Definition joinpath (p q : Path.t) : Path.t :=
  if Path.is_absolute q then q else p ++ q.

(** [p.parent] *)
Definition path_parent (p : Path.t) : Path.t :=
  match p with
  | [r] => if Path.is_root r then p else []
  | _ => removelast p
  end.

(** [s.endswith(suffix)] *)
Definition endswith (s suffix : string) : bool :=
  let l := list_ascii_of_string s in
  let m := list_ascii_of_string suffix in
  Nat.leb (length m) (length l)
  && bool_decide (drop (length l - length m) l = m).

(** *** Calls into the file system, [mutagen] and [pydub] *)

(** The Vorbis comment of a FLAC file: each tag has a list of values.
    [mutagen] compares tag names without regard to case; they are
    kept here in the upper case the program uses. *)
Abbreviation Tags := (gmap string (list string)).

(** An [AudioSegment], as an opaque handle. *)
Abbreviation AudioObj := nat (only parsing).

Inductive file_call : Type -> Type :=
| PathExists (p : Path.t) : file_call bool
| OsWalk (top : Path.t) : file_call (list (Path.t * list string))
| PathCwd : file_call Path.t
| Mkdir (p : Path.t) : file_call unit
| FileSize (p : Path.t) : file_call Z
| Copy2 (src dst : Path.t) : file_call unit
| FlacOpen (p : Path.t) : file_call Tags
| FlacDelete (p : Path.t) : file_call unit
| FlacSave (p : Path.t) (tags : Tags) : file_call unit
| FromWav (p : Path.t) : file_call AudioObj
| Export (audio : AudioObj) (out : Path.t) (format : string)
    (parameters : list string) : file_call unit.

Inductive file_event : Type :=
| FEv {A : Type} (c : file_call A).

(** *** The converter object *)

(** [self.stats], without [start_time], which only the log reads. *)
Record Stats : Type := MkStats {
  total_files : Z;
  converted : Z;
  failed : Z;
  skipped_flac : Z;
  metadata_found : Z;
  metadata_fallback : Z;
  metadata_fingerprint : Z;
  metadata_lastfm : Z;
  metadata_complete : Z
}.

(** The attributes of an [EnhancedWAVToFLACConverter].  The state of
    [self.metadata_lookup] is kept even when there is no such object
    ([has_lookup] is false): its record also holds the heap of
    dictionaries and the world outside.  [file_log] lists the calls of
    [file_call] made so far. *)
Record Converter {W : Type} : Type := MkConverter {
  source_path : Path.t;
  output_folder : string;
  compatibility_mode : bool;
  enable_metadata : bool;
  has_lookup : bool;
  metadata_lookup : State W;
  stats : Stats;
  file_log : list file_event
}.
Arguments Converter : clear implicits.
Arguments MkConverter {W}.

Definition zero_stats : Stats := MkStats 0 0 0 0 0 0 0 0 0.

(** What [__init__] leaves behind when the source path exists and
    [ffmpeg] is found. *)
Definition init_converter {W : Type} (source : string) (output : string)
    (compatibility enable_metadata enable_fingerprinting lastfm_configured : bool)
    (w : W) : Converter W :=
  MkConverter (Path.of_string source) output compatibility enable_metadata
    enable_metadata
    (init_state enable_fingerprinting lastfm_configured [] w)
    zero_stats [].

Section ConverterSetters.
Context {W : Type}.
Implicit Type c : Converter W.

Definition set_lookup (f : State W -> State W) c :=
  MkConverter (source_path c) (output_folder c) (compatibility_mode c)
    (enable_metadata c) (has_lookup c) (f (metadata_lookup c)) (stats c)
    (file_log c).

Definition set_stats (f : Stats -> Stats) c :=
  MkConverter (source_path c) (output_folder c) (compatibility_mode c)
    (enable_metadata c) (has_lookup c) (metadata_lookup c) (f (stats c))
    (file_log c).

Definition record_file_call (w : W) (e : file_event) c :=
  MkConverter (source_path c) (output_folder c) (compatibility_mode c)
    (enable_metadata c) (has_lookup c)
    (MkState (cache (metadata_lookup c)) (album_cache (metadata_lookup c))
       (fingerprint_cache (metadata_lookup c)) (lastfm_cache (metadata_lookup c))
       (last_request_time (metadata_lookup c))
       (fingerprint_enabled (metadata_lookup c))
       (lastfm_enabled (metadata_lookup c)) (heap (metadata_lookup c)) w
       (trace (metadata_lookup c)) (entered (metadata_lookup c)))
    (stats c) (file_log c ++ [e]).
End ConverterSetters.

(** [self.stats[k] += 1] and [self.stats['total_files'] = n]. *)
Definition set_total_files (n : Z) (st : Stats) : Stats :=
  MkStats n (converted st) (failed st) (skipped_flac st) (metadata_found st)
    (metadata_fallback st) (metadata_fingerprint st) (metadata_lastfm st)
    (metadata_complete st).

Definition bump_converted (st : Stats) : Stats :=
  MkStats (total_files st) (converted st + 1) (failed st) (skipped_flac st)
    (metadata_found st) (metadata_fallback st) (metadata_fingerprint st)
    (metadata_lastfm st) (metadata_complete st).

Definition bump_failed (st : Stats) : Stats :=
  MkStats (total_files st) (converted st) (failed st + 1) (skipped_flac st)
    (metadata_found st) (metadata_fallback st) (metadata_fingerprint st)
    (metadata_lastfm st) (metadata_complete st).

Definition bump_skipped_flac (st : Stats) : Stats :=
  MkStats (total_files st) (converted st) (failed st) (skipped_flac st + 1)
    (metadata_found st) (metadata_fallback st) (metadata_fingerprint st)
    (metadata_lastfm st) (metadata_complete st).

Definition bump_metadata_found (st : Stats) : Stats :=
  MkStats (total_files st) (converted st) (failed st) (skipped_flac st)
    (metadata_found st + 1) (metadata_fallback st) (metadata_fingerprint st)
    (metadata_lastfm st) (metadata_complete st).

Definition bump_metadata_fallback (st : Stats) : Stats :=
  MkStats (total_files st) (converted st) (failed st) (skipped_flac st)
    (metadata_found st) (metadata_fallback st + 1) (metadata_fingerprint st)
    (metadata_lastfm st) (metadata_complete st).

Definition bump_metadata_fingerprint (st : Stats) : Stats :=
  MkStats (total_files st) (converted st) (failed st) (skipped_flac st)
    (metadata_found st) (metadata_fallback st) (metadata_fingerprint st + 1)
    (metadata_lastfm st) (metadata_complete st).

Definition bump_metadata_lastfm (st : Stats) : Stats :=
  MkStats (total_files st) (converted st) (failed st) (skipped_flac st)
    (metadata_found st) (metadata_fallback st) (metadata_fingerprint st)
    (metadata_lastfm st + 1) (metadata_complete st).

Definition bump_metadata_complete (st : Stats) : Stats :=
  MkStats (total_files st) (converted st) (failed st) (skipped_flac st)
    (metadata_found st) (metadata_fallback st) (metadata_fingerprint st)
    (metadata_lastfm st) (metadata_complete st + 1).

(** *** The effect monad of the converter's methods *)

Definition CM (W R A : Type) : Type :=
  Converter W -> outcome R A * Converter W.

Declare Scope conv_scope.
Delimit Scope conv_scope with conv.

Section ConverterMonad.
Context {W : Type}.

Definition cret {R A} (a : A) : CM W R A := fun c => (Normal a, c).

Definition cbind {R A B} (m : CM W R A) (f : A -> CM W R B) : CM W R B :=
  fun c =>
    match m c with
    | (Normal a, c') => f a c'
    | (Returned r, c') => (Returned r, c')
    | (Raised e, c') => (Raised e, c')
    end.

Definition creturn {R A} (r : R) : CM W R A := fun c => (Returned r, c).

Definition craise {R A} (e : exn) : CM W R A := fun c => (Raised e, c).

Definition ctry {R A} (m : CM W R A) (h : exn -> CM W R A) : CM W R A :=
  fun c =>
    match m c with
    | (Raised e, c') => h e c'
    | other => other
    end.

Definition cfn {R R'} (body : CM W R Empty_set) : CM W R' R :=
  fun c =>
    match body c with
    | (Normal a, _) => match a with end
    | (Returned r, c') => (Normal r, c')
    | (Raised e, c') => (Raised e, c')
    end.

Definition cget {R} : CM W R (Converter W) := fun c => (Normal c, c).

Definition cmodify {R} (f : Converter W -> Converter W) : CM W R unit :=
  fun c => (Normal tt, f c).

Definition cwhen {R} (b : bool) (m : CM W R unit) : CM W R unit :=
  if b then m else cret tt.

(** A method of [self.metadata_lookup], run on its state. *)
Definition on_lookup {R A} (m : M W R A) : CM W R A :=
  fun c =>
    match m (metadata_lookup c) with
    | (o, s') => (o, set_lookup (fun _ => s') c)
    end.
End ConverterMonad.

Notation "x ← y ; z" := (cbind y (fun x => z))
  (at level 20, y at level 100, z at level 200, only parsing) : conv_scope.
Notation "' x ← y ; z" := (cbind y (fun x => z))
  (at level 20, x pattern, y at level 100, z at level 200, only parsing) : conv_scope.
Notation "y ;; z" := (cbind y (fun _ => z))
  (at level 100, z at level 200, only parsing, right associativity) : conv_scope.

(** *** Tags and metadata *)

(** The mapping of [get_existing_metadata], in the order of the
    source. *)
Definition flac_to_meta : list (string * string) :=
  [ ("TITLE", "title"); ("ARTIST", "artist"); ("ALBUM", "album");
    ("DATE", "date"); ("TRACKNUMBER", "track_number"); ("GENRE", "genre");
    ("ALBUMARTIST", "albumartist"); ("COMPOSER", "composer");
    ("MUSICBRAINZ_TRACKID", "musicbrainz_recordingid");
    ("MUSICBRAINZ_ALBUMID", "musicbrainz_albumid");
    ("MUSICBRAINZ_ARTISTID", "musicbrainz_artistid") ].

(** [audio_file[flac_tag][0]] when [flac_tag in audio_file].  A tag
    that [mutagen] reports as present has at least one value; a tag
    with no value counts as absent. *)
Definition first_value (tags : Tags) (flac_tag : string) : option string :=
  match tags !! flac_tag with
  | Some (value :: _) => Some value
  | _ => None
  end.

(** The loop of [get_existing_metadata] over the tag mapping. *)
Definition metadata_of_tags (tags : Tags) : Dict :=
  fold_left
    (fun (metadata : Dict) '(flac_tag, meta_key) =>
       match first_value tags flac_tag with
       | Some value =>
           if Py.truthy value && Py.truthy (Py.strip value)
           then <[meta_key := Py.strip value]> metadata
           else metadata
       | None => metadata
       end)
    flac_to_meta ∅.

(** The two mappings of [embed_metadata], in the order of the source. *)
Definition tag_mapping : list (string * string) :=
  [ ("title", "TITLE"); ("artist", "ARTIST"); ("album", "ALBUM");
    ("date", "DATE"); ("year", "DATE"); ("track_number", "TRACKNUMBER");
    ("genre", "GENRE"); ("albumartist", "ALBUMARTIST");
    ("composer", "COMPOSER"); ("comment", "COMMENT") ].

Definition mb_mapping : list (string * string) :=
  [ ("musicbrainz_recordingid", "MUSICBRAINZ_TRACKID");
    ("musicbrainz_albumid", "MUSICBRAINZ_ALBUMID");
    ("musicbrainz_artistid", "MUSICBRAINZ_ARTISTID");
    ("musicbrainz_releasegroupid", "MUSICBRAINZ_RELEASEGROUPID") ].

(** One of the loops of [embed_metadata]:
    [if key in metadata and metadata[key]: audio_file[flac_key] = metadata[key]]. *)
Definition set_tags (mapping : list (string * string)) (metadata : Dict)
    (tags : Tags) : Tags :=
  fold_left
    (fun (tags : Tags) '(key, flac_key) =>
       if has_value metadata key
       then <[flac_key := [dict_get metadata key ""]]> tags
       else tags)
    mapping tags.

(** The tags [embed_metadata] saves: those it sets on the comment it
    has just cleared. *)
Definition tags_of_metadata (metadata : Dict) : Tags :=
  set_tags mb_mapping metadata (set_tags tag_mapping metadata ∅).

(** The [parameters] of the export, by mode. *)
Definition export_parameters (compatibility_mode : bool) : list string :=
  if compatibility_mode
  then [ "-compression_level"; "8"; "-sample_fmt"; "s16" ]
  else [ "-compression_level"; "12"; "-sample_fmt"; "s32" ].

(** [file.lower().endswith(('.wav', '.flac'))] *)
Definition is_audio_name (file : string) : bool :=
  endswith (Py.lower file) ".wav" || endswith (Py.lower file) ".flac".

(** The statistics update of [process_single_file], by the source of
    the metadata. *)
Definition count_source (metadata existing_metadata : Dict) (st : Stats)
  : Stats :=
  if bool_decide (metadata = existing_metadata) then bump_metadata_complete st
  else if has_value metadata "acoustid_score" then bump_metadata_fingerprint st
  else if has_value metadata "lastfm_confidence" then bump_metadata_lastfm st
  else if has_value metadata "musicbrainz_recordingid" then bump_metadata_found st
  else bump_metadata_fallback st.

(** [should_update_metadata] *)
Definition should_update (metadata existing_metadata : Dict) : bool :=
  negb (dict_truthy existing_metadata)
  || negb (bool_decide (metadata = existing_metadata))
  || (negb (has_value existing_metadata "musicbrainz_recordingid")
      && has_value metadata "musicbrainz_recordingid").

Section ConverterMethods.
Context {W : Type}.
Variable oracle : forall A : Type, call A -> W -> (exn + A) * W.
Variable file_oracle : forall A : Type, file_call A -> W -> (exn + A) * W.
Variable ratio : string -> string -> Q.
Variable str_of_float : Q -> string.

Local Open Scope conv_scope.

Definition call_file {R A} (fc : file_call A) : CM W R A :=
  fun c =>
    match file_oracle A fc (world (metadata_lookup c)) with
    | (inl e, w) => (Raised e, record_file_call w (FEv fc) c)
    | (inr a, w) => (Normal a, record_file_call w (FEv fc) c)
    end.

Fixpoint cfor_each {R A} (l : list A) (body : A -> CM W R unit)
  : CM W R unit :=
  match l with
  | [] => cret tt
  | x :: l' => body x ;; cfor_each l' body
  end.

(** *** [get_existing_metadata]

    Only opening the file can raise, and it comes before the first
    tag is copied: the dictionary is empty when the handler runs. *)
Definition get_existing_metadata {R} (file_path : Path.t) : CM W R loc :=
  cfn (
    metadata ←
      ctry (
        if String.eqb (Py.lower (path_suffix file_path)) ".flac"
        then
          audio_file ← call_file (FlacOpen file_path) ;
          cret (metadata_of_tags audio_file)
        else cret ∅)
      (fun _ => cret ∅) ;
    l ← on_lookup (alloc metadata) ;
    creturn l).

(** *** [find_audio_files] *)
Definition find_audio_files {R} : CM W R (list Path.t) :=
  c ← cget ;
  walk ← call_file (OsWalk (source_path c)) ;
  cret (concat
          (map (fun '(root, files) =>
                  map (fun file => joinpath root (Path.of_string file))
                    (List.filter is_audio_name files))
             walk)).

(** *** [get_relative_path] *)
Definition get_relative_path {R} (file_path : Path.t) : CM W R Path.t :=
  c ← cget ;
  match Path.relative_to file_path (source_path c) with
  | Some relative_path => cret relative_path
  | None => craise (MkExn ValueError "path is not in the subpath of the root")
  end.

(** *** [create_output_directory] *)
Definition create_output_directory {R} (relative_path : Path.t)
  : CM W R Path.t :=
  c ← cget ;
  cwd ← call_file PathCwd ;
  let output_dir :=
    joinpath (joinpath cwd (Path.of_string (output_folder c)))
      (path_parent relative_path) in
  call_file (Mkdir output_dir) ;;
  cret output_dir.

(** *** [embed_metadata]

    [delete] clears the comment in the file and in memory, so what
    [save] writes is what the two loops have set. *)
Definition embed_metadata {R} (flac_file : Path.t) (metadata : loc)
  : CM W R bool :=
  cfn (
    ctry (
      call_file (FlacOpen flac_file) ;;
      call_file (FlacDelete flac_file) ;;
      d ← on_lookup (read metadata) ;
      call_file (FlacSave flac_file (tags_of_metadata d)) ;;
      creturn true)
    (fun _ => creturn false)).

(** *** [convert_wav_to_flac]

    The compression ratio is only logged, but its division by the
    size of the input raises when that is zero. *)
Definition convert_wav_to_flac {R} (input_file output_file : Path.t)
  : CM W R bool :=
  cfn (
    ctry (
      audio ← call_file (FromWav input_file) ;
      c ← cget ;
      call_file (Export audio output_file "flac"
                   (export_parameters (compatibility_mode c))) ;;
      exists_ ← call_file (PathExists output_file) ;
      created ←
        (if exists_ : bool
         then st_size ← call_file (FileSize output_file) ; cret (0 <? st_size)
         else cret false) ;
      if created : bool
      then
        input_size ← call_file (FileSize input_file) ;
        call_file (FileSize output_file) ;;
        cwhen (input_size =? 0)
          (craise (MkExn OtherError "division by zero")) ;;
        creturn true
      else creturn false)
    (fun _ => creturn false)).

(** *** [process_single_file] *)

(** The metadata part of [process_single_file]. *)
Definition handle_metadata {R} (audio_file output_file : Path.t)
  : CM W R unit :=
  c ← cget ;
  existing_metadata ← get_existing_metadata output_file ;
  dir_metadata ←
    match parse_directory_structure audio_file (source_path c) with
    | Some dir_metadata => cret dir_metadata
    | None => craise (MkExn ValueError "path is not in the subpath of the root")
    end ;
  let track_number := track_number_of (pm_track_number dir_metadata) in
  metadata ←
    on_lookup (get_metadata oracle ratio str_of_float
              (pm_artist dir_metadata) (pm_album dir_metadata)
              (pm_title dir_metadata) track_number
              (pm_is_generic dir_metadata) (Some audio_file)
              (Some existing_metadata)) ;
  (* Add any additional directory metadata *)
  cwhen (Py.truthy (pm_year dir_metadata))
    (on_lookup (setitem metadata "year" (pm_year dir_metadata))) ;;
  cwhen (Py.truthy (pm_track_number dir_metadata))
    (on_lookup (setitem metadata "track_number" (pm_track_number dir_metadata))) ;;
  (* Update statistics based on metadata source *)
  md ← on_lookup (read metadata) ;
  existing ← on_lookup (read existing_metadata) ;
  cmodify (set_stats (count_source md existing)) ;;
  cwhen (should_update md existing)
    (cbind (embed_metadata output_file metadata) (fun _ => cret tt)).

Definition process_single_file {R} (audio_file : Path.t) : CM W R bool :=
  cfn (
    ctry (
      relative_path ← get_relative_path audio_file ;
      output_dir ← create_output_directory relative_path ;
      (* Determine output file path *)
      '(output_file, needs_conversion) ←
        (if String.eqb (Py.lower (path_suffix audio_file)) ".wav"
         then
           cret (joinpath output_dir
                   (Path.of_string (Path.stem audio_file ++ ".flac")%string),
                 true)
         else
           let output_file :=
             joinpath output_dir (Path.of_string (Path.name audio_file)) in
           exists_ ← call_file (PathExists output_file) ;
           cwhen (negb exists_) (call_file (Copy2 audio_file output_file)) ;;
           cmodify (set_stats bump_skipped_flac) ;;
           cret (output_file, false)) ;
      cwhen needs_conversion (
        ok ← convert_wav_to_flac audio_file output_file ;
        cwhen (negb ok) (creturn false)) ;;
      (* Handle metadata if enabled *)
      c ← cget ;
      cwhen (enable_metadata c && has_lookup c)
        (handle_metadata audio_file output_file) ;;
      creturn true)
    (fun _ => creturn false)).

(** *** [convert_all]

    The progress report after every tenth file reads the clock for
    the log only; it is left out with the log. *)
Definition convert_all {R} : CM W R (Z * Z) :=
  cfn (
    audio_files ← find_audio_files ;
    cmodify (set_stats (set_total_files (Z.of_nat (length audio_files)))) ;;
    cwhen (negb (nonempty audio_files)) (creturn (0, 0)) ;;
    cfor_each audio_files (fun audio_file =>
      ok ← process_single_file audio_file ;
      if ok : bool
      then cmodify (set_stats bump_converted)
      else cmodify (set_stats bump_failed)) ;;
    c ← cget ;
    creturn (converted (stats c), failed (stats c))).

End ConverterMethods.

(** ** Vocabulary of the converter's methods *)

Section ConverterVocabulary.
Context {W : Type}.

Definition choare {R A} (P : Converter W -> Prop) (m : CM W R A)
    (Qn : A -> Converter W -> Prop) (Qr : R -> Converter W -> Prop)
    (Qe : exn -> Converter W -> Prop) : Prop :=
  forall c, P c ->
    match m c with
    | (Normal a, c') => Qn a c'
    | (Returned r, c') => Qr r c'
    | (Raised e, c') => Qe e c'
    end.

(** The three counters that [convert_all] keeps. *)
Definition same_counts (c0 c : Converter W) : Prop :=
  total_files (stats c) = total_files (stats c0)
  /\ converted (stats c) = converted (stats c0)
  /\ failed (stats c) = failed (stats c0).

End ConverterVocabulary.

(** The files [find_audio_files] picks from the answer of [os.walk]. *)
Definition audio_files_of (walk : list (Path.t * list string)) : list Path.t :=
  concat
    (map (fun '(root, files) =>
            map (fun file => joinpath root (Path.of_string file))
              (List.filter is_audio_name files))
       walk).

(** A loop that copies values from one naming to another:
    [if g a: m[k] = g a] for each pair [(a, k)]. *)
Definition put_all {V : Type} (g : string -> option V)
    (l : list (string * string)) (m : gmap string V) : gmap string V :=
  fold_left
    (fun m '(a, k) => match g a with Some v => <[k := v]> m | None => m end)
    l m.

(** What the loop leaves at the key [k0]. *)
Fixpoint last_put {V : Type} (g : string -> option V)
    (l : list (string * string)) (k0 : string) (acc : option V) : option V :=
  match l with
  | [] => acc
  | (a, k) :: l' =>
      last_put g l' k0
        (if String.eqb k k0
         then match g a with Some v => Some v | None => acc end
         else acc)
  end.

(** What [get_existing_metadata] takes from one tag. *)
Definition read_value (tags : Tags) (flac_tag : string) : option string :=
  match first_value tags flac_tag with
  | Some value =>
      if Py.truthy value && Py.truthy (Py.strip value)
      then Some (Py.strip value) else None
  | None => None
  end.

(** What [embed_metadata] writes for one key. *)
Definition written_value (metadata : Dict) (key : string)
  : option (list string) :=
  if has_value metadata key then Some [dict_get metadata key ""] else None.

(** Metadata as [get_existing_metadata] yields it: every value is
    non-empty and stripped, and every key is one the method knows. *)
Definition well_read (metadata : Dict) : Prop :=
  forall k v, metadata !! k = Some v ->
    Py.truthy v = true /\ Py.strip v = v /\ k ∈ map snd flac_to_meta.

(** The answers that make a conversion succeed, from the world [w]
    on: the input loads, the export goes through, the output exists
    with a positive size, and the size of the input is not zero. *)
Definition conversion_answers {W : Type}
    (file_oracle : forall A : Type, file_call A -> W -> (exn + A) * W)
    (input_file output_file : Path.t) (compatibility_mode : bool) (w : W)
  : Prop :=
  exists audio w1 w2 w3 st_size w4 input_size w5 output_size w6,
    file_oracle _ (FromWav input_file) w = (inr audio, w1)
    /\ file_oracle _
         (Export audio output_file "flac" (export_parameters compatibility_mode))
         w1 = (inr tt, w2)
    /\ file_oracle _ (PathExists output_file) w2 = (inr true, w3)
    /\ file_oracle _ (FileSize output_file) w3 = (inr st_size, w4)
    /\ 0 < st_size
    /\ file_oracle _ (FileSize input_file) w4 = (inr input_size, w5)
    /\ input_size <> 0
    /\ file_oracle _ (FileSize output_file) w5 = (inr output_size, w6).

(** The five counters of the metadata sources, added up. *)
Definition metadata_total (st : Stats) : Z :=
  metadata_found st + metadata_fallback st + metadata_fingerprint st
  + metadata_lastfm st + metadata_complete st.

(** Since [c0] the counters of [convert_all] and the switches are
    unchanged, [n] files have been counted under a metadata source and
    at most [k] as an existing FLAC file. *)
Definition counted {W : Type} (c0 : Converter W) (n k : Z) (c : Converter W)
  : Prop :=
  same_counts c0 c
  /\ enable_metadata c = enable_metadata c0
  /\ has_lookup c = has_lookup c0
  /\ metadata_total (stats c) = metadata_total (stats c0) + n
  /\ skipped_flac (stats c0) <= skipped_flac (stats c)
     <= skipped_flac (stats c0) + k.

(** The five counters of the metadata sources, one by one. *)
Definition source_counts (st : Stats) : Z * Z * Z * Z * Z :=
  (metadata_found st, metadata_fallback st, metadata_fingerprint st,
   metadata_lastfm st, metadata_complete st).

(** The five ways of counting a file under a metadata source. *)
Definition source_bumps : list (Stats -> Stats) :=
  [ bump_metadata_found; bump_metadata_fallback; bump_metadata_fingerprint;
    bump_metadata_lastfm; bump_metadata_complete ].

(** Since [c0] the counters of [convert_all] and the switches are
    unchanged, the file has been counted as an existing FLAC file at
    most [k] times, and the five counters of the metadata sources are
    as they were ([n] false) or exactly one of them is one higher
    ([n] true). *)
Definition tallied {W : Type} (c0 : Converter W) (n : bool) (k : Z)
    (c : Converter W) : Prop :=
  same_counts c0 c
  /\ enable_metadata c = enable_metadata c0
  /\ has_lookup c = has_lookup c0
  /\ (if n
      then exists bump, bump ∈ source_bumps
             /\ source_counts (stats c) = source_counts (bump (stats c0))
      else source_counts (stats c) = source_counts (stats c0))
  /\ skipped_flac (stats c0) <= skipped_flac (stats c)
     <= skipped_flac (stats c0) + k.

(** ** More worlds and inputs of the examples *)

(** The file system works, the [fpcalc] tool is not installed. *)
Definition no_fpcalc (A : Type) (c : call A) (w : unit) : (exn + A) * unit :=
  match c in call T return (exn + T) * unit with
  | TimeTime => (inr 0%Q, w)
  | TimeSleep _ => (inr tt, w)
  | Stat _ => (inr 1024, w)
  | RunFpcalcVersion => (inl (MkExn FileNotFoundError "fpcalc"), w)
  | RunFpcalc => (inl (MkExn FileNotFoundError "fpcalc"), w)
  | _ => (inl unreachable, w)
  end.

Definition jazz_release : Release :=
  {| rel_extra := false;
     rel_id := Some "release-1";
     rel_title := Some "Jazz";
     rel_date := Some "1978";
     rel_artist_credit :=
       Some [ {| ac_name := Some "Queen"; ac_artist := None |} ] |}.

Definition jazz_detail : ReleaseDetail :=
  {| rd_release :=
       Some {| rb_medium_list :=
                 Some [ {| med_track_list :=
                             Some [ {| trk_position := Some "1";
                                       trk_title := Some "Mustapha";
                                       trk_length := None;
                                       trk_recording := None |} ] |} ] |} |}.

(** The catalogue knows one release, with one track. *)
Definition jazz_catalog (A : Type) (c : call A) (w : unit)
  : (exn + A) * unit :=
  match c in call T return (exn + T) * unit with
  | TimeTime => (inr 0%Q, w)
  | TimeSleep _ => (inr tt, w)
  | SearchReleases _ => (inr [jazz_release], w)
  | GetReleaseById _ => (inr jazz_detail, w)
  | _ => (inl unreachable, w)
  end.

(** What the program makes of [opera_file]. *)
Definition opera_parsed : PathMetadata :=
  {| pm_title := "04 Bohemian Rhapsody";
     pm_artist := "Queen";
     pm_album := "A Night at the Opera";
     pm_year := "19";
     pm_track_number := "04";
     pm_is_generic := false |}.

Definition opera_relative : Path.t :=
  ["Queen"; "A Night at the Opera (1975)"; "04 Bohemian Rhapsody.wav"].

(** The tags of a file that has been looked up before. *)
Definition opera_tags : Tags :=
  {[ "TITLE" := ["Bohemian Rhapsody"]; "ARTIST" := ["Queen"];
     "ALBUM" := ["A Night at the Opera"];
     "MUSICBRAINZ_TRACKID" := ["b1a9c0e9-d987-4042-ae91-78d6a3267d69"] ]}.

Definition opera_output : Path.t :=
  Path.of_string
    "/home/FLAC CONVERTER 2/Queen/A Night at the Opera (1975)/04 Bohemian Rhapsody.flac".

(** A library of two audio files and a picture; every file can be
    read and written, and the FLAC files carry [opera_tags]. *)
Definition small_library (A : Type) (c : file_call A) (w : unit)
  : (exn + A) * unit :=
  match c in file_call T return (exn + T) * unit with
  | PathExists _ => (inr true, w)
  | OsWalk top => (inr [(top, ["a.wav"; "b.FLAC"; "cover.jpg"])], w)
  | PathCwd => (inr (Path.of_string "/home"), w)
  | Mkdir _ => (inr tt, w)
  | FileSize _ => (inr 4096, w)
  | Copy2 _ _ => (inr tt, w)
  | FlacOpen _ => (inr opera_tags, w)
  | FlacDelete _ => (inr tt, w)
  | FlacSave _ _ => (inr tt, w)
  | FromWav _ => (inr 1%nat, w)
  | Export _ _ _ _ => (inr tt, w)
  end.

Definition music_converter : Converter unit :=
  init_converter "/music" "FLAC CONVERTER 2" false true true false tt.

(** ** A program logic for the effect monad

    [hoare P m Qn Qr Qe]: from a state satisfying [P], the statement
    [m] ends normally in a state satisfying [Qn], or returns in one
    satisfying [Qr], or raises in one satisfying [Qe]. *)

Section Logic.
Context {W : Type}.

Lemma hoare_conseq {R A} (P P' : State W -> Prop) (m : M W R A)
    (Qn Qn' : A -> State W -> Prop) (Qr Qr' : R -> State W -> Prop)
    (Qe Qe' : exn -> State W -> Prop) :
  hoare P' m Qn' Qr' Qe' ->
  (forall s, P s -> P' s) ->
  (forall a s, Qn' a s -> Qn a s) ->
  (forall r s, Qr' r s -> Qr r s) ->
  (forall e s, Qe' e s -> Qe e s) ->
  hoare P m Qn Qr Qe.
Proof.
  intros H HP Hn Hr He s Hs. specialize (H s (HP s Hs)).
  destruct (m s) as [[a|r|e] s']; auto.
Qed.

Lemma hoare_pre {R A} (P P' : State W -> Prop) (m : M W R A) Qn Qr Qe :
  hoare P' m Qn Qr Qe -> (forall s, P s -> P' s) -> hoare P m Qn Qr Qe.
Proof. intros H HP. eapply hoare_conseq; eauto. Qed.

Lemma hoare_pure {R A} (phi : Prop) (P : State W -> Prop) (m : M W R A)
    Qn Qr Qe :
  (phi -> hoare P m Qn Qr Qe) ->
  hoare (fun s => P s /\ phi) m Qn Qr Qe.
Proof. intros H s [Hs Hphi]. exact (H Hphi s Hs). Qed.

Lemma hoare_false {R A} (m : M W R A) Qn Qr Qe :
  hoare (fun _ => False) m Qn Qr Qe.
Proof. intros s []. Qed.

Lemma hoare_ret {R A} (P : State W -> Prop) (a : A) Qn
    (Qr : R -> State W -> Prop) Qe :
  (forall s, P s -> Qn a s) -> hoare P (ret a) Qn Qr Qe.
Proof. intros H s Hs. simpl. auto. Qed.

Lemma hoare_return {R A} (P : State W -> Prop) (r : R)
    (Qn : A -> State W -> Prop) (Qr : R -> State W -> Prop) Qe :
  (forall s, P s -> Qr r s) -> hoare P (return_ r) Qn Qr Qe.
Proof. intros H s Hs. simpl. auto. Qed.

Lemma hoare_raise {R A} (P : State W -> Prop) (e : exn)
    (Qn : A -> State W -> Prop) (Qr : R -> State W -> Prop) Qe :
  (forall s, P s -> Qe e s) -> hoare P (raise e) Qn Qr Qe.
Proof. intros H s Hs. simpl. auto. Qed.

Lemma hoare_bind {R A B} (P : State W -> Prop) (m : M W R A)
    (f : A -> M W R B) (Qm : A -> State W -> Prop) Qn Qr Qe :
  hoare P m Qm Qr Qe ->
  (forall a, hoare (Qm a) (f a) Qn Qr Qe) ->
  hoare P (bind m f) Qn Qr Qe.
Proof.
  intros Hm Hf s Hs. specialize (Hm s Hs). unfold bind.
  destruct (m s) as [[a|r|e] s']; auto. apply (Hf a s' Hm).
Qed.

Lemma hoare_try {R A} (P : State W -> Prop) (m : M W R A)
    (h : exn -> M W R A) (Qx : exn -> State W -> Prop) Qn Qr Qe :
  hoare P m Qn Qr Qx ->
  (forall e, hoare (Qx e) (h e) Qn Qr Qe) ->
  hoare P (try_except m h) Qn Qr Qe.
Proof.
  intros Hm Hh s Hs. specialize (Hm s Hs). unfold try_except.
  destruct (m s) as [[a|r|e] s']; auto. apply (Hh e s' Hm).
Qed.

Lemma hoare_fn {R R'} (P : State W -> Prop) (body : M W R Empty_set)
    (Qn : R -> State W -> Prop) (Qr : R' -> State W -> Prop) Qe :
  hoare P body (fun _ _ => False) Qn Qe ->
  hoare P (fn body) Qn Qr Qe.
Proof.
  intros H s Hs. specialize (H s Hs). unfold fn.
  destruct (body s) as [[a|r|e] s']; auto. destruct a.
Qed.

Lemma hoare_get_state {R} (P : State W -> Prop) Qn
    (Qr : R -> State W -> Prop) Qe :
  (forall s, P s -> Qn s s) -> hoare P get_state Qn Qr Qe.
Proof. intros H s Hs. simpl. auto. Qed.

Lemma hoare_modify {R} (P : State W -> Prop) (f : State W -> State W) Qn
    (Qr : R -> State W -> Prop) Qe :
  (forall s, P s -> Qn tt (f s)) -> hoare P (modify f) Qn Qr Qe.
Proof. intros H s Hs. simpl. auto. Qed.

Lemma hoare_lift {R A} (P : State W -> Prop) (x : exn + A) Qn
    (Qr : R -> State W -> Prop) Qe :
  (forall s, P s ->
     match x with inl e => Qe e s | inr a => Qn a s end) ->
  hoare P (lift x) Qn Qr Qe.
Proof. intros H s Hs. specialize (H s Hs). destruct x; simpl; auto. Qed.

Lemma hoare_when {R} (P : State W -> Prop) (b : bool) (m : M W R unit)
    Qn Qr Qe :
  (b = true -> hoare P m Qn Qr Qe) ->
  (b = false -> forall s, P s -> Qn tt s) ->
  hoare P (when b m) Qn Qr Qe.
Proof.
  intros Ht Hf. destruct b; simpl.
  - auto.
  - apply hoare_ret. auto.
Qed.

(** A loop keeps an invariant that each iteration keeps. *)
Lemma hoare_for_each {R A} (I : State W -> Prop) (l : list A)
    (body : A -> M W R unit) (Qr : R -> State W -> Prop) Qe :
  (forall x, In x l -> hoare I (body x) (fun _ => I) Qr Qe) ->
  hoare I (for_each l body) (fun _ => I) Qr Qe.
Proof.
  induction l as [|x l IH]; intros H; simpl.
  - apply hoare_ret. auto.
  - eapply hoare_bind.
    + apply H. simpl; auto.
    + intros ?. apply IH. intros y Hy. apply H. simpl; auto.
Qed.

Lemma hoare_map_m {R A B} (I : State W -> Prop) (l : list A)
    (f : A -> M W R B) (Qr : R -> State W -> Prop) Qe :
  (forall x, In x l -> hoare I (f x) (fun _ => I) Qr Qe) ->
  hoare I (map_m f l) (fun _ => I) Qr Qe.
Proof.
  induction l as [|x l IH]; intros H; simpl.
  - apply hoare_ret. auto.
  - eapply hoare_bind.
    + apply H. simpl; auto.
    + intros y. eapply hoare_bind.
      * apply IH. intros z Hz. apply H. simpl; auto.
      * intros ys. apply hoare_ret. auto.
Qed.

End Logic.

(** ** Footprints of the source clients *)

Section Frames.
Context {W : Type}.
Variable oracle : forall A : Type, call A -> W -> (exn + A) * W.
Variable ratio : string -> string -> Q.
Variable str_of_float : Q -> string.

Local Abbreviation service_down := (service_down oracle).
Local Abbreviation inv := (inv oracle).
Local Abbreviation album_outcome := (album_outcome oracle).
Local Abbreviation track_outcome := (track_outcome oracle).
Local Abbreviation text_outcome := (text_outcome oracle).
Local Abbreviation fingerprint_outcome := (fingerprint_outcome oracle).
Local Abbreviation fingerprint_raises := (fingerprint_raises oracle).
Local Abbreviation stat_succeeds := (stat_succeeds oracle).
Local Abbreviation stat_stable := (stat_stable oracle).
Implicit Types s : State W.

Lemma frame_refl allowed s : frame allowed s s.
Proof.
  split; auto. exists []. split; [by rewrite app_nil_r | constructor].
Qed.

Lemma frame_call allowed s0 s w A (c : call A) :
  allowed (service_of c) = true ->
  frame allowed s0 s -> frame allowed s0 (record_call w (Ev c) s).
Proof.
  intros Hc [? ? ? ? ? ? ? (evs & Ht & Hevs)]. split; simpl; auto.
  exists (evs ++ [Ev c]). split.
  - by rewrite Ht, app_assoc.
  - apply Forall_app. split; [done | by constructor].
Qed.

Lemma frame_time allowed s0 s t :
  frame allowed s0 s -> frame allowed s0 (set_last_request_time t s).
Proof. intros []. by split. Qed.

Lemma frame_heap allowed s0 s f :
  frame allowed s0 s -> frame allowed s0 (set_heap f s).
Proof. intros []. by split. Qed.

Lemma inv_mono allowed svc s0 b b' s :
  (b' = true -> b = true) ->
  inv allowed svc s0 b s -> inv allowed svc s0 b' s.
Proof. intros Hb [Hf Hd]. split; auto. Qed.

Lemma hoare_call {R A} (c : call A) (P : State W -> Prop) Qn
    (Qr : R -> State W -> Prop) Qe :
  (forall s w a, P s -> oracle A c (world s) = (inr a, w) ->
     Qn a (record_call w (Ev c) s)) ->
  (forall s w e, P s -> oracle A c (world s) = (inl e, w) ->
     Qe e (record_call w (Ev c) s)) ->
  hoare P (call_ext oracle c) Qn Qr Qe.
Proof.
  intros Hn He s Hs. unfold call_ext.
  destruct (oracle A c (world s)) as [[e|a] w] eqn:E; eauto.
Qed.

(** A call keeps the invariant; an answer from the service sets the
    flag. *)
Lemma inv_call {R A} allowed svc s0 b (c : call A)
    (Qr : R -> State W -> Prop) Qe :
  allowed (service_of c) = true ->
  (forall e s, inv allowed svc s0 b s -> Qe e s) ->
  hoare (inv allowed svc s0 b) (call_ext oracle c)
    (fun _ => inv allowed svc s0 (b || bool_decide (service_of c = svc)))
    Qr Qe.
Proof.
  intros Hc HQe. apply hoare_call.
  - intros s w a [Hf Hb] Ho. split; [by apply frame_call |].
    intros Hor Hdown. apply orb_prop in Hor as [->|Hsvc]; [by apply Hb |].
    apply bool_decide_eq_true in Hsvc.
    destruct (Hdown A c (world s) Hsvc) as (e & w' & He). congruence.
  - intros s w e [Hf Hb] Ho. apply HQe. split; [by apply frame_call | done].
Qed.

Lemma inv_modify {R} allowed svc s0 b b' (f : State W -> State W)
    (Qr : R -> State W -> Prop) Qe :
  (b' = true -> b = true) ->
  (forall s, frame allowed s0 s -> frame allowed s0 (f s)) ->
  hoare (inv allowed svc s0 b) (modify f)
    (fun _ => inv allowed svc s0 b') Qr Qe.
Proof. intros Hb Hf. apply hoare_modify. intros s [? ?]. split; auto. Qed.

Lemma inv_alloc {R} allowed svc s0 b b' (d : Dict)
    (Qr : R -> State W -> Prop) Qe :
  (b' = true -> b = true) ->
  hoare (inv allowed svc s0 b) (alloc d)
    (fun _ => inv allowed svc s0 b') Qr Qe.
Proof. intros Hb s [? ?]. simpl. split; auto using frame_heap. Qed.

Lemma inv_setitem {R} allowed svc s0 b b' l k v
    (Qr : R -> State W -> Prop) Qe :
  (b' = true -> b = true) ->
  hoare (inv allowed svc s0 b) (setitem l k v)
    (fun _ => inv allowed svc s0 b') Qr Qe.
Proof. intros Hb. apply inv_modify; [done |]. intros. by apply frame_heap. Qed.

Lemma inv_read {R} allowed svc s0 b b' l
    (Qr : R -> State W -> Prop) Qe :
  (b' = true -> b = true) ->
  hoare (inv allowed svc s0 b) (read l)
    (fun _ => inv allowed svc s0 b') Qr Qe.
Proof. intros Hb s [? ?]. simpl. split; auto. Qed.

Lemma inv_get_state {R} allowed svc s0 b b'
    (Qr : R -> State W -> Prop) Qe :
  (b' = true -> b = true) ->
  hoare (inv allowed svc s0 b) get_state
    (fun _ => inv allowed svc s0 b') Qr Qe.
Proof. intros Hb s [? ?]. simpl. split; auto. Qed.

Lemma hoare_store_return {R A} (P : State W -> Prop)
    (f : State W -> State W) (v : R) (Qn : A -> State W -> Prop)
    (Qr : R -> State W -> Prop) Qe :
  (forall s, P s -> Qr v (f s)) ->
  hoare P (bind (modify f) (fun _ => return_ v)) Qn Qr Qe.
Proof. intros H s Hs. simpl. auto. Qed.

Lemma inv_call_leaf {R A} allowed svc s0 b b' (c : call A)
    (Qr : R -> State W -> Prop) Qe :
  allowed (service_of c) = true ->
  (b' = true -> b = true) ->
  (forall e s, inv allowed svc s0 b s -> Qe e s) ->
  hoare (inv allowed svc s0 b) (call_ext oracle c)
    (fun _ => inv allowed svc s0 b') Qr Qe.
Proof.
  intros Hc Hb HQe.
  apply (hoare_conseq _ (inv allowed svc s0 b) _ _
           (fun _ => inv allowed svc s0 (b || bool_decide (service_of c = svc)))
           _ Qr _ Qe); auto.
  - by apply inv_call.
  - intros a s Hs. eapply inv_mono; [| exact Hs].
    intros ->%Hb. done.
Qed.

Lemma inv_for_each {R A} allowed svc s0 b b' (l : list A)
    (body : A -> M W R unit) (Qr : R -> State W -> Prop) Qe :
  (b' = true -> b = true) ->
  (forall x, hoare (inv allowed svc s0 b) (body x)
               (fun _ => inv allowed svc s0 b) Qr Qe) ->
  hoare (inv allowed svc s0 b) (for_each l body)
    (fun _ => inv allowed svc s0 b') Qr Qe.
Proof.
  intros Hb H.
  apply (hoare_conseq _ (inv allowed svc s0 b) _ _
           (fun _ => inv allowed svc s0 b) _ Qr _ Qe); auto.
  - apply hoare_for_each. intros x _. apply H.
  - intros ? s Hs. by eapply inv_mono.
Qed.

Lemma inv_map_m {R A B} allowed svc s0 b b' (l : list A)
    (f : A -> M W R B) (Qr : R -> State W -> Prop) Qe :
  (b' = true -> b = true) ->
  (forall x, hoare (inv allowed svc s0 b) (f x)
               (fun _ => inv allowed svc s0 b) Qr Qe) ->
  hoare (inv allowed svc s0 b) (map_m f l)
    (fun _ => inv allowed svc s0 b') Qr Qe.
Proof.
  intros Hb H.
  apply (hoare_conseq _ (inv allowed svc s0 b) _ _
           (fun _ => inv allowed svc s0 b) _ Qr _ Qe); auto.
  - apply hoare_map_m. intros x _. apply H.
  - intros ? s Hs. by eapply inv_mono.
Qed.

Ltac flag_side :=
  simpl; intros; subst; simpl in *; first [done | congruence].

(** Side conditions: one invariant implies a weaker one. *)
Ltac inv_side :=
  intros;
  first
    [ assumption
    | match goal with
      | H : inv _ _ _ _ ?s |- inv _ _ _ _ ?s =>
          refine (inv_mono _ _ _ _ _ _ _ H); flag_side
      end ].

(** Evaluate the flag after a call. *)
Ltac eval_flag :=
  try match goal with
      | |- context [orb ?b (bool_decide (service_of ?c = ?svc))] =>
          let v := eval vm_compute in (orb b (bool_decide (service_of c = svc))) in
          change (orb b (bool_decide (service_of c = svc))) with v
      end.

(** One step of a proof that a statement keeps [inv]. *)
Ltac hinv_step :=
  cbv beta;
  lazymatch goal with
  | |- hoare ?P (bind (modify _) (fun _ => return_ _)) _ _ _ =>
      apply hoare_store_return
  | |- hoare ?P (bind (call_ext _ ?c) ?f) _ _ _ =>
      eapply hoare_bind;
      [ apply inv_call; [first [reflexivity | assumption] | inv_side]
      | intros ?; eval_flag ]
  | |- hoare ?P (bind ?m ?f) _ _ _ =>
      apply (hoare_bind P m f (fun _ => P)); [ | intros ? ]
  | |- hoare _ (ret _) _ _ _ => apply hoare_ret; inv_side
  | |- hoare _ (raise _) _ _ _ => apply hoare_raise; inv_side
  | |- hoare _ (lift ?x) _ _ _ =>
      apply hoare_lift; intros; destruct x; inv_side
  | |- hoare _ (when _ _) _ _ _ =>
      apply hoare_when; [ intros ? | intros ?; inv_side ]
  | |- hoare ?P (try_except ?m ?h) _ _ _ =>
      lazymatch P with
      | inv ?al ?svc ?s0 ?b =>
          apply (hoare_try P m h (fun _ => inv al svc s0 b)); [ | intros ? ]
      end
  | |- hoare _ (try_except_in _ _ _) _ _ _ => unfold try_except_in
  | |- hoare _ (call_ext _ _) _ _ _ =>
      apply inv_call_leaf; [ first [reflexivity | assumption] | flag_side | inv_side ]
  | |- hoare _ (modify (set_last_request_time _)) _ _ _ =>
      apply inv_modify; [ flag_side | intros; by apply frame_time ]
  | |- hoare _ (alloc _) _ _ _ => apply inv_alloc; flag_side
  | |- hoare _ (setitem _ _ _) _ _ _ => apply inv_setitem; flag_side
  | |- hoare _ (read _) _ _ _ => apply inv_read; flag_side
  | |- hoare _ get_state _ _ _ => apply inv_get_state; flag_side
  | |- hoare _ (for_each _ _) _ _ _ =>
      apply inv_for_each; [ flag_side | intros ? ]
  | |- hoare _ (map_m _ _) _ _ _ =>
      apply inv_map_m; [ flag_side | intros ? ]
  | |- hoare _ (match ?x with _ => _ end) _ _ _ => destruct x
  end.

Ltac hinv := repeat hinv_step.

(** [_rate_limit] only talks to the clock. *)
Lemma inv_rate_limit {R} allowed svc s0 b b'
    (Qr : R -> State W -> Prop) Qe :
  allowed Clock = true ->
  (b' = true -> b = true) ->
  (forall e s, inv allowed svc s0 b s -> Qe e s) ->
  hoare (inv allowed svc s0 b) (_rate_limit oracle)
    (fun _ => inv allowed svc s0 b') Qr Qe.
Proof.
  intros Hc Hb HQe. unfold _rate_limit.
  apply (hoare_conseq _ (inv allowed svc s0 b) _ _
           (fun _ => inv allowed svc s0 b) _ Qr _
           (fun _ => inv allowed svc s0 b)); auto.
  - hinv.
  - intros ? s Hs. by eapply inv_mono.
Qed.

(** A lookup ends by storing its result and returning it. *)
Ltac store_side :=
  let s := fresh "s" in
  let Hs := fresh "Hs" in
  intros s Hs; exists s;
  split; [ exact (proj1 Hs) | split; [ reflexivity | ] ];
  first
    [ done
    | let Hd := fresh "Hd" in
      intros Hd; exfalso; exact (proj2 Hs eq_refl Hd) ].

Ltac hstep :=
  first
    [ hinv_step
    | lazymatch goal with
      | |- hoare _ (_rate_limit _) _ _ _ =>
          apply inv_rate_limit; [ reflexivity | flag_side | inv_side ]
      end ].

Ltac hgo := repeat hstep; try store_side.

(** *** The album client *)

Lemma search_album_tracks_hoare {R} artist album s :
  hoare (fun s' => s' = s)
    (search_album_tracks (R:=R) oracle ratio artist album)
    (fun r s' => album_outcome artist album s r s')
    (fun _ _ => False) (fun _ _ => False).
Proof.
  unfold search_album_tracks, album_outcome, enter.
  fold (album_key artist album).
  set (s0 := record_enter AlbumClient s).
  apply (hoare_bind _ _ _ (fun _ s' => s' = s0)).
  { apply hoare_modify. intros s' ->. reflexivity. }
  intros _. apply hoare_fn.
  destruct (Py.all_truthy [artist; album]) eqn:Hg; simpl negb.
  2:{ eapply hoare_bind; [ apply hoare_return | intros ? ].
      - intros s' ->. done.
      - apply hoare_false. }
  apply (hoare_bind _ _ _ (fun _ s' => s' = s0)).
  { apply hoare_ret. auto. }
  intros _. cbv zeta.
  apply (hoare_bind _ _ _ (fun s1 s' => s' = s0 /\ s1 = s0)).
  { apply hoare_get_state. auto. }
  intros s1. 
  apply (hoare_bind _ _ _ (fun _ s' => s' = s0 /\ album_cache s !! album_key artist album = None)).
  { destruct (album_cache s1 !! album_key artist album) eqn:Hc.
    - apply hoare_return. intros s' [-> ->]. simpl in Hc. rewrite Hc. done.
    - apply hoare_ret. intros s' [-> ->]. simpl in Hc. done. }
  intros _. apply hoare_pure. intros ->.
  eapply hoare_conseq with (P' := inv catalog_only Catalog s0 false)
    (Qn' := fun _ _ => False)
    (Qe' := fun _ _ => False)
    (Qr' := fun r s' => exists s1, frame catalog_only s0 s1 /\ s' = set_album_cache (insert (album_key artist album) r) s1 /\ (service_down Catalog -> r = None)).
  2:{ intros s' ->. split; [apply frame_refl | done]. }
  2:{ auto. }
  2:{ auto. }
  2:{ auto. }
  hgo.
Qed.

(** *** The track client *)

Lemma search_musicbrainz_individual_hoare {R} artist album title s :
  hoare (fun s' => s' = s)
    (search_musicbrainz_individual (R:=R) oracle ratio artist album title)
    (fun r s' => track_outcome artist album title s r s')
    (fun _ _ => False) (fun _ _ => False).
Proof.
  unfold search_musicbrainz_individual, track_outcome, enter.
  fold (track_key artist album title).
  set (s0 := record_enter TrackClient s).
  apply (hoare_bind _ _ _ (fun _ s' => s' = s0)).
  { apply hoare_modify. intros s' ->. reflexivity. }
  intros _. apply hoare_fn.
  destruct (Py.all_truthy [artist; title]) eqn:Hg; simpl negb.
  2:{ eapply hoare_bind; [ apply hoare_return | intros ? ].
      - intros s' ->. done.
      - apply hoare_false. }
  apply (hoare_bind _ _ _ (fun _ s' => s' = s0)).
  { apply hoare_ret. auto. }
  intros _. cbv zeta.
  apply (hoare_bind _ _ _ (fun s1 s' => s' = s0 /\ s1 = s0)).
  { apply hoare_get_state. auto. }
  intros s1.
  apply (hoare_bind _ _ _
           (fun _ s' => s' = s0
              /\ cache s !! track_key artist album title = None)).
  { destruct (cache s1 !! track_key artist album title) eqn:Hc.
    - apply hoare_return. intros s' [-> ->]. simpl in Hc. rewrite Hc. done.
    - apply hoare_ret. intros s' [-> ->]. simpl in Hc. done. }
  intros _. apply hoare_pure. intros ->.
  eapply hoare_conseq with (P' := inv catalog_only Catalog s0 false)
    (Qn' := fun _ _ => False)
    (Qe' := fun _ _ => False)
    (Qr' := fun r s' => exists s1, frame catalog_only s0 s1
              /\ s' = set_cache (insert (track_key artist album title) r) s1
              /\ (service_down Catalog -> r = None)).
  2:{ intros s' ->. split; [apply frame_refl | done]. }
  2,3,4: auto.
  hgo.
Qed.

(** *** The text search client *)

Lemma lastfm_search_hoare {R} artist title album s :
  hoare (fun s' => s' = s)
    (lastfm_search (R:=R) oracle ratio str_of_float artist title album)
    (fun r s' => text_outcome artist title album s r s')
    (fun _ _ => False) (fun _ _ => False).
Proof.
  unfold lastfm_search, text_outcome, enter, track_artist_name.
  fold (lastfm_key artist title album).
  set (s0 := record_enter TextClient s).
  apply (hoare_bind _ _ _ (fun _ s' => s' = s0)).
  { apply hoare_modify. intros s' ->. reflexivity. }
  intros _. apply hoare_fn.
  apply (hoare_bind _ _ _ (fun s1 s' => s' = s0 /\ s1 = s0)).
  { apply hoare_get_state. auto. }
  intros s1. apply hoare_pure. intros ->.
  change (lastfm_enabled s0) with (lastfm_enabled s).
  change (lastfm_cache s0) with (lastfm_cache s).
  rewrite <- negb_andb.
  destruct (lastfm_enabled s && Py.all_truthy [artist; title]) eqn:Hg;
    simpl negb.
  2:{ eapply hoare_bind; [ apply hoare_return | intros ? ].
      - intros s' ->. done.
      - apply hoare_false. }
  apply (hoare_bind _ _ _ (fun _ s' => s' = s0)).
  { apply hoare_ret. auto. }
  intros _. cbv zeta.
  apply (hoare_bind _ _ _
           (fun _ s' => s' = s0
              /\ lastfm_cache s !! lastfm_key artist title album = None)).
  { destruct (lastfm_cache s !! lastfm_key artist title album) eqn:Hc.
    - apply hoare_return. intros s' ->. done.
    - apply hoare_ret. intros s' ->. done. }
  intros _. apply hoare_pure. intros ->.
  eapply hoare_conseq with (P' := inv text_only TextSearch s0 false)
    (Qn' := fun _ _ => False)
    (Qe' := fun _ _ => False)
    (Qr' := fun r s' => exists s1, frame text_only s0 s1
              /\ s' = set_lastfm_cache (insert (lastfm_key artist title album) r) s1
              /\ (service_down TextSearch -> r = None)).
  2:{ intros s' ->. split; [apply frame_refl | done]. }
  2,3,4: auto.
  hgo.
Qed.

(** *** The acoustic identification client *)

Lemma hoare_exists {R A X} (P : X -> State W -> Prop) (m : M W R A)
    Qn Qr Qe :
  (forall x, hoare (P x) m Qn Qr Qe) ->
  hoare (fun s => exists x, P x s) m Qn Qr Qe.
Proof. intros H s [x Hx]. exact (H x s Hx). Qed.

Lemma hoare_pure_l {R A} (phi : Prop) (P : State W -> Prop) (m : M W R A)
    Qn Qr Qe :
  (phi -> hoare P m Qn Qr Qe) ->
  hoare (fun s => phi /\ P s) m Qn Qr Qe.
Proof. intros H s [Hphi Hs]. exact (H Hphi s Hs). Qed.

Lemma hoare_off_store_return {R A} (P : State W -> Prop)
    (g : State W -> State W) (v : R) (Qn : A -> State W -> Prop)
    (Qr : R -> State W -> Prop) Qe :
  (forall s, P s -> Qr v (g (set_fingerprint_enabled false s))) ->
  hoare P
    (bind (modify (set_fingerprint_enabled false))
       (fun _ => bind (modify g) (fun _ => return_ v)))
    Qn Qr Qe.
Proof. intros H s Hs. simpl. auto. Qed.

Lemma audio_fingerprint_lookup_hoare {R} file_path s :
  hoare (fun s' => s' = s)
    (audio_fingerprint_lookup (R:=R) oracle str_of_float file_path)
    (fun r s' => fingerprint_outcome file_path s r s')
    (fun _ _ => False)
    (fun e s' => fingerprint_raises file_path s e s').
Proof.
  unfold audio_fingerprint_lookup, fingerprint_outcome, fingerprint_raises,
    enter.
  set (s0 := record_enter FingerprintClient s).
  apply (hoare_bind _ _ _ (fun _ s' => s' = s0)).
  { apply hoare_modify. intros s' ->. reflexivity. }
  intros _. apply hoare_fn.
  apply (hoare_bind _ _ _ (fun s1 s' => s' = s0 /\ s1 = s0)).
  { apply hoare_get_state. auto. }
  intros s1. apply hoare_pure. intros ->.
  change (fingerprint_enabled s0) with (fingerprint_enabled s).
  destruct (fingerprint_enabled s) eqn:Hen; simpl negb.
  2:{ eapply hoare_bind; [ apply hoare_return | intros ? ].
      - intros s' ->. done.
      - apply hoare_false. }
  apply (hoare_bind _ _ _ (fun _ s' => s' = s0)).
  { apply hoare_ret. auto. }
  intros _.
  apply (hoare_bind _ _ _
           (fun n s' => exists w,
              oracle Z (Stat file_path) (world s) = (inr n, w)
              /\ s' = record_call w (Ev (Stat file_path)) s0)).
  { apply hoare_call.
    - intros s' w n -> Ho. eauto.
    - intros s' w e -> Ho. eauto. }
  intros st_size. cbv zeta.
  fold (fingerprint_key file_path st_size).
  apply hoare_exists. intros w. apply hoare_pure_l. intros Ho.
  set (s1 := record_call w (Ev (Stat file_path)) s0).
  apply (hoare_bind _ _ _ (fun s2 s' => s' = s1 /\ s2 = s1)).
  { apply hoare_get_state. auto. }
  intros s2. apply hoare_pure. intros ->.
  change (fingerprint_cache s1) with (fingerprint_cache s).
  apply (hoare_bind _ _ _
           (fun _ s' => s' = s1
              /\ fingerprint_cache s
                   !! fingerprint_key file_path st_size = None)).
  { destruct (fingerprint_cache s !! fingerprint_key file_path st_size)
      eqn:Hc.
    - apply hoare_return. intros s' ->. exists st_size, w. by rewrite Hc.
    - apply hoare_ret. intros s' ->. done. }
  intros _. apply hoare_pure. intros Hc.
  eapply hoare_conseq with (P' := inv acoustic_only Acoustic s1 false)
    (Qn' := fun _ _ => False)
    (Qe' := fun _ _ => False)
    (Qr' := fun r s' => exists s2, frame acoustic_only s1 s2
              /\ fingerprint_stored (fingerprint_key file_path st_size) r s2 s'
              /\ (service_down Acoustic -> r = None)).
  2:{ intros s' ->. split; [apply frame_refl | done]. }
  2,4: by auto.
  2:{ intros r s' Hr. exists st_size, w. rewrite Hc. auto. }
  repeat first
    [ lazymatch goal with
      | |- hoare _
             (bind (modify (set_fingerprint_enabled false))
                (fun _ => bind (modify _) (fun _ => return_ _))) _ _ _ =>
          apply hoare_off_store_return
      | |- hoare _
             (bind (when ?c (modify (set_fingerprint_enabled false))) _)
             _ _ _ =>
          destruct c; unfold when
      end
    | hstep ].
  all: intros s' Hs'; exists s'; (split; [exact (proj1 Hs') |]).
  all: split; [ first [ left; reflexivity | right; split; reflexivity ] |].
  all: first [ done | intros Hd; exfalso; exact (proj2 Hs' eq_refl Hd) ].
Qed.

(** *** Using a client's outcome inside a larger proof *)

Lemma hoare_use {R A} (m : M W R A) (P : State W -> Prop)
    (Rn : State W -> A -> State W -> Prop)
    (Re : State W -> exn -> State W -> Prop)
    Qn (Qr : R -> State W -> Prop) Qe :
  (forall s, hoare (fun s' => s' = s) m (Rn s) (fun _ _ => False) (Re s)) ->
  (forall s a s', P s -> Rn s a s' -> Qn a s') ->
  (forall s e s', P s -> Re s e s' -> Qe e s') ->
  hoare P m Qn Qr Qe.
Proof.
  intros H Hn He s Hs. specialize (H s s eq_refl).
  destruct (m s) as [[a|r|e] s']; [eauto | done | eauto].
Qed.

(** A statement that neither returns nor raises fits any context. *)
Lemma hoare_plain {R A} (P : State W -> Prop) (m : M W R A) Qn Qr Qe :
  hoare P m Qn (fun _ _ => False) (fun _ _ => False) ->
  hoare P m Qn Qr Qe.
Proof. intros H. eapply hoare_conseq; eauto; simpl; tauto. Qed.

Lemma hoare_run {R A} (m : M W R A) (s : State W) Qn Qr Qe :
  hoare (fun s' => s' = s) m Qn Qr Qe ->
  match m s with
  | (Normal a, s') => Qn a s'
  | (Returned r, s') => Qr r s'
  | (Raised e, s') => Qe e s'
  end.
Proof. intros H. exact (H s eq_refl). Qed.

(** *** [search_track_by_position] *)

(** It adds nothing to what [search_album_tracks] does to the state,
    and finds nothing when the album was not found. *)
Lemma search_track_by_position_hoare {R} artist album track_number s :
  hoare (fun s' => s' = s)
    (search_track_by_position (R:=R) oracle ratio artist album track_number)
    (fun r s' => exists tracks,
       album_outcome artist album s tracks s'
       /\ (tracks = None -> r = None))
    (fun _ _ => False) (fun _ _ => False).
Proof.
  unfold search_track_by_position. apply hoare_fn.
  apply (hoare_bind _ _ _
           (fun tracks s' => album_outcome artist album s tracks s')).
  { apply hoare_plain, search_album_tracks_hoare. }
  intros tracks.
  set (Q := fun (r : option loc) (s' : State W) =>
              album_outcome artist album s tracks s'
              /\ (tracks = None -> r = None)).
  eapply hoare_conseq with
    (P' := album_outcome artist album s tracks)
    (Qn' := fun _ _ => False) (Qr' := Q) (Qe' := fun _ _ => False);
    [ | by auto | by auto | | by auto ].
  2:{ intros r s' [? ?]. exists tracks. done. }
  destruct tracks as [[|track tracks]|].
  - apply hoare_return. intros s' Hs'. split; [done | discriminate].
  - set (tl := track :: tracks).
    apply (hoare_bind _ _ _ (fun _ => album_outcome artist album s (Some tl))).
    { apply hoare_for_each. intros x _.
      apply (hoare_bind _ _ _ (fun _ => album_outcome artist album s (Some tl))).
      - intros s' Hs'. simpl. done.
      - intros d. apply hoare_when.
        + intros _. apply hoare_return. intros s' Hs'. split; [done | discriminate].
        + auto. }
    intros _.
    apply (hoare_bind _ _ _ (fun _ => album_outcome artist album s (Some tl))).
    { apply hoare_when; [| auto]. intros _.
      destruct (tl !! Z.to_nat (track_number - 1)).
      - apply hoare_return. intros s' Hs'. split; [done | discriminate].
      - apply hoare_ret. auto. }
    intros _. apply hoare_return. intros s' Hs'. split; [done | discriminate].
  - apply hoare_return. intros s' Hs'. split; done.
Qed.

(** *** [get_metadata] keeps what its clients keep

    [I] is any property of the state that survives updates of the
    heap and each client that [get_metadata] may call for the given
    kind of file name. *)

Section Keeps.
Context {R : Type}.
Variable I : State W -> Prop.
Variable Qe : exn -> State W -> Prop.
Hypothesis I_heap : forall s f, I s -> I (set_heap f s).

Lemma keep_read {R'} l (Qr : R' -> State W -> Prop) :
  hoare I (read l) (fun _ => I) Qr Qe.
Proof. intros s Hs. simpl. done. Qed.

Lemma keep_setitem {R'} l k v (Qr : R' -> State W -> Prop) :
  hoare I (setitem l k v) (fun _ => I) Qr Qe.
Proof. apply hoare_modify. auto. Qed.

Lemma keep_alloc {R'} d (Qr : R' -> State W -> Prop) :
  hoare I (alloc d) (fun _ => I) Qr Qe.
Proof. intros s Hs. simpl. auto. Qed.

Lemma keep_get_state {R'} (Qr : R' -> State W -> Prop) :
  hoare I get_state (fun _ => I) Qr Qe.
Proof. intros s Hs. simpl. done. Qed.

Lemma keep_found {R'} x (Qr : R' -> State W -> Prop) :
  hoare I (found x) (fun _ => I) Qr Qe.
Proof.
  destruct x; simpl.
  - eapply hoare_bind; [apply keep_read |]. intros d.
    apply hoare_ret. auto.
  - apply hoare_ret. auto.
Qed.

Lemma keep_backfill {R'} n l (Qr : R' -> State W -> Prop) :
  hoare I (backfill_track_number n l) (fun _ => I) Qr Qe.
Proof.
  unfold backfill_track_number.
  eapply hoare_bind; [apply keep_read |]. intros d.
  apply hoare_when; [| auto]. intros ?. apply keep_setitem.
Qed.

(** The statement after a lookup: return the record if one was
    found, after backfilling its track number where the source
    does so. *)
Lemma keep_accept (backfill : bool) n (x : option loc) :
  hoare I
    (bind (found x) (fun ok =>
       match x with
       | Some l =>
           when ok
             (if backfill
              then bind (backfill_track_number n l) (fun _ => return_ l)
              else return_ l)
       | None => ret tt
       end))
    (fun _ => I) (fun _ => I) Qe.
Proof.
  eapply hoare_bind; [apply keep_found |]. intros ok.
  destruct x as [l|]; [| apply hoare_ret; auto].
  apply hoare_when; [| auto]. intros ?. destruct backfill.
  - eapply hoare_bind; [apply keep_backfill |]. intros ?.
    apply hoare_return. auto.
  - apply hoare_return. auto.
Qed.

Variables (artist album title : string) (track_number : option Z).
Variables (is_generic : bool) (file_path : option Path.t).
Variable existing_metadata : option loc.

Hypothesis fingerprint_keeps : forall path, file_path = Some path ->
  hoare I (audio_fingerprint_lookup oracle str_of_float path)
    (fun _ => I) (fun _ : loc => I) Qe.
Hypothesis album_keeps : is_generic = true ->
  hoare I
    (search_track_by_position oracle ratio artist album
       (default 0 track_number))
    (fun _ => I) (fun _ : loc => I) Qe.
Hypothesis track_keeps : is_generic = false ->
  hoare I (search_musicbrainz_individual oracle ratio artist album title)
    (fun _ => I) (fun _ : loc => I) Qe.
Hypothesis text_keeps : is_generic = false ->
  hoare I (lastfm_search oracle ratio str_of_float artist title album)
    (fun _ => I) (fun _ : loc => I) Qe.

Lemma lookup_strategies_keeps :
  hoare I
    (lookup_strategies oracle ratio str_of_float artist album title
       track_number is_generic file_path existing_metadata)
    (fun _ _ => False) (fun _ => I) Qe.
Proof.
  unfold lookup_strategies.
  apply (hoare_bind _ _ _ (fun _ => I)); [apply keep_get_state |].
  intros s1.
  apply (hoare_bind _ _ _ (fun _ => I)).
  { destruct file_path as [path|] eqn:Hp; [| apply hoare_ret; auto].
    apply hoare_when; [| auto]. intros ?.
    eapply hoare_bind; [by apply fingerprint_keeps |]. intros x.
    apply (keep_accept true). }
  intros ?.
  apply (hoare_bind _ _ _ (fun _ => I)).
  { apply hoare_when; [| auto]. intros Hc.
    eapply hoare_bind.
    - apply album_keeps.
      repeat (apply andb_prop in Hc as [Hc _]). exact Hc.
    - intros x. apply (keep_accept false None). }
  intros ?.
  apply (hoare_bind _ _ _ (fun _ => I)).
  { apply hoare_when; [| auto]. intros Hg%negb_true_iff.
    apply (hoare_bind _ _ _ (fun _ => I)).
    { by apply track_keeps. }
    intros x.
    eapply hoare_bind; [apply keep_found |]. intros ok.
    apply (hoare_bind _ _ _ (fun _ => I)).
    { destruct x as [l|]; [| apply hoare_ret; auto].
      apply hoare_when; [| auto]. intros ?. apply hoare_return. auto. }
    intros ?.
    apply (hoare_bind _ _ _ (fun _ => I)); [apply keep_get_state |].
    intros s2.
    apply (hoare_bind _ _ _ (fun _ => I)).
    { destruct file_path as [path|] eqn:Hp; [| apply hoare_ret; auto].
      apply hoare_when; [| auto]. intros ?.
      eapply hoare_bind; [by apply fingerprint_keeps |]. intros y.
      apply (keep_accept true). }
    intros ?.
    apply (hoare_bind _ _ _ (fun _ => I)); [apply keep_get_state |].
    intros s3.
    apply hoare_when; [| auto]. intros ?.
    eapply hoare_bind; [by apply text_keeps |]. intros y.
    apply (keep_accept true). }
  intros ?. cbv zeta.
  apply (hoare_bind _ _ _ (fun _ => I)).
  { destruct existing_metadata; [apply keep_read | apply hoare_ret; auto]. }
  intros existing.
  eapply hoare_bind; [apply keep_alloc |]. intros l.
  apply hoare_return. auto.
Qed.

Lemma get_metadata_keeps :
  hoare I
    (get_metadata (R:=R) oracle ratio str_of_float artist album title
       track_number is_generic file_path existing_metadata)
    (fun _ => I) (fun _ _ => False) Qe.
Proof.
  unfold get_metadata. apply hoare_fn.
  apply (hoare_bind _ _ _ (fun _ => I)).
  { destruct existing_metadata as [l|]; [| apply hoare_ret; auto].
    eapply hoare_bind; [apply keep_read |]. intros d.
    apply hoare_when; [| auto]. intros ?. apply hoare_return. auto. }
  intros ?. apply lookup_strategies_keeps.
Qed.
End Keeps.

(** *** The file can be stat'ed *)

Lemma fingerprint_no_raise path s e s' :
  stat_succeeds (Some path) -> fingerprint_raises path s e s' -> False.
Proof.
  intros Hst (_ & w & Ho & _).
  destruct (Hst path eq_refl (world s)) as (n & w' & Hok). congruence.
Qed.

(** [get_metadata] never raises when the file can be stat'ed. *)
Lemma get_metadata_no_raise {R} artist album title track_number is_generic
    file_path existing_metadata :
  stat_succeeds file_path ->
  hoare (fun _ => True)
    (get_metadata (R:=R) oracle ratio str_of_float artist album title
       track_number is_generic file_path existing_metadata)
    (fun _ _ => True) (fun _ _ => False) (fun _ _ => False).
Proof.
  intros Hst. apply get_metadata_keeps; [done | ..].
  - intros path ->.
    eapply hoare_use; [apply audio_fingerprint_lookup_hoare | done |].
    intros s e s' _ Hr. eauto using fingerprint_no_raise.
  - intros _. eapply hoare_use;
      [apply search_track_by_position_hoare | done | done].
  - intros _. eapply hoare_use;
      [apply search_musicbrainz_individual_hoare | done | done].
  - intros _. eapply hoare_use; [apply lastfm_search_hoare | done | done].
Qed.

(** *** States reached without the text search client *)

Lemma quiet_refl s : quiet s s.
Proof.
  repeat split.
  - exists []. split; [by rewrite app_nil_r | by apply not_elem_of_nil].
  - exists []. split; [by rewrite app_nil_r | constructor].
Qed.

Lemma quiet_trans s0 s1 s2 : quiet s0 s1 -> quiet s1 s2 -> quiet s0 s2.
Proof.
  intros ((cs1 & He1 & Hc1) & (ev1 & Ht1 & Hv1) & Hl1)
         ((cs2 & He2 & Hc2) & (ev2 & Ht2 & Hv2) & Hl2).
  repeat split.
  - exists (cs1 ++ cs2). split; [by rewrite He2, He1, app_assoc |].
    rewrite elem_of_app. tauto.
  - exists (ev1 ++ ev2). split; [by rewrite Ht2, Ht1, app_assoc |].
    by apply Forall_app.
  - congruence.
Qed.

Lemma quiet_heap s0 s f : quiet s0 s -> quiet s0 (set_heap f s).
Proof. intros H. exact H. Qed.

Lemma quiet_enter s c : c <> TextClient -> quiet s (record_enter c s).
Proof.
  intros Hc. repeat split; simpl.
  - exists [c]. split; [done |]. rewrite list_elem_of_singleton. congruence.
  - exists []. split; [by rewrite app_nil_r | constructor].
Qed.

Lemma quiet_call s w A (c : call A) :
  service_of c <> TextSearch -> quiet s (record_call w (Ev c) s).
Proof.
  intros Hc. repeat split; simpl.
  - exists []. split; [by rewrite app_nil_r | by apply not_elem_of_nil].
  - exists [Ev c]. split; [done | by repeat constructor].
Qed.

Lemma quiet_frame allowed s0 s :
  allowed TextSearch = false -> frame allowed s0 s -> quiet s0 s.
Proof.
  intros Ha [? ? ? ? ? ? He (evs & Ht & Hevs)]. repeat split; [| | done].
  - exists []. split; [by rewrite app_nil_r | by apply not_elem_of_nil].
  - exists evs. split; [done |].
    eapply Forall_impl; [exact Hevs |]. simpl. intros e He' Heq.
    rewrite Heq in He'. congruence.
Qed.

Lemma quiet_album artist album s r s' :
  album_outcome artist album s r s' -> quiet s s'.
Proof.
  unfold album_outcome. intros H.
  assert (Hq : quiet s (record_enter AlbumClient s))
    by (by apply quiet_enter).
  destruct (Py.all_truthy [artist; album]).
  - destruct (album_cache s !! album_key artist album).
    + destruct H as [_ ->]. done.
    + destruct H as (s1 & Hf & -> & _).
      eapply quiet_trans; [exact Hq |].
      eapply quiet_frame in Hf; [| done]. exact Hf.
  - destruct H as [_ ->]. done.
Qed.

Lemma quiet_fingerprint path s r s' :
  fingerprint_outcome path s r s' -> quiet s s'.
Proof.
  unfold fingerprint_outcome. intros H.
  assert (Hq : quiet s (record_enter FingerprintClient s))
    by (by apply quiet_enter).
  destruct (fingerprint_enabled s).
  - destruct H as (n & w & Ho & H).
    assert (Hq1 : quiet s (record_call w (Ev (Stat path))
                             (record_enter FingerprintClient s))).
    { eapply quiet_trans; [exact Hq |]. by apply quiet_call. }
    cbv zeta in H.
    destruct (fingerprint_cache s !! fingerprint_key path n).
    + destruct H as [_ ->]. done.
    + destruct H as (s2 & Hf & Hst & _).
      eapply quiet_frame in Hf; [| done].
      eapply quiet_trans; [exact Hq1 |].
      destruct Hst as [-> | [_ ->]]; exact Hf.
  - destruct H as [_ ->]. done.
Qed.

Lemma quiet_fingerprint_raises path s e s' :
  fingerprint_raises path s e s' -> quiet s s'.
Proof.
  intros (_ & w & _ & ->).
  eapply quiet_trans; [apply (quiet_enter s FingerprintClient); done |].
  by apply quiet_call.
Qed.

(** *** Issuing the same query twice *)

Lemma album_twice {R} artist album s :
  exists r s1,
    search_album_tracks (R:=R) oracle ratio artist album s = (Normal r, s1)
    /\ (Py.all_truthy [artist; album] = true ->
        album_cache s1 !! album_key artist album = Some r)
    /\ search_album_tracks (R:=R) oracle ratio artist album s1
       = (Normal r, record_enter AlbumClient s1).
Proof.
  pose proof (hoare_run _ s _ _ _ (search_album_tracks_hoare (R:=R) artist album s)) as H1.
  destruct (search_album_tracks oracle ratio artist album s)
    as [[r| |] s1]; [| done | done].
  exists r, s1. split; [done |].
  pose proof (hoare_run _ s1 _ _ _ (search_album_tracks_hoare (R:=R) artist album s1)) as H2.
  destruct (search_album_tracks oracle ratio artist album s1)
    as [[r2| |] s2]; [| done | done].
  unfold album_outcome in *.
  destruct (Py.all_truthy [artist; album]).
  - assert (Hc : album_cache s1 !! album_key artist album = Some r).
    { destruct (album_cache s !! album_key artist album) eqn:Hc.
      - destruct H1 as [-> ->]. done.
      - destruct H1 as (s' & Hf & -> & _). simpl. apply lookup_insert_eq. }
    split; [done |]. rewrite Hc in H2. destruct H2 as [-> ->]. done.
  - split; [done |]. destruct H1 as [-> ->], H2 as [-> ->]. done.
Qed.

Lemma track_twice {R} artist album title s :
  exists r s1,
    search_musicbrainz_individual (R:=R) oracle ratio artist album title s
    = (Normal r, s1)
    /\ (Py.all_truthy [artist; title] = true ->
        cache s1 !! track_key artist album title = Some r)
    /\ search_musicbrainz_individual (R:=R) oracle ratio artist album title s1
       = (Normal r, record_enter TrackClient s1).
Proof.
  pose proof (hoare_run _ s _ _ _
                (search_musicbrainz_individual_hoare (R:=R) artist album title s)) as H1.
  destruct (search_musicbrainz_individual oracle ratio artist album title s)
    as [[r| |] s1]; [| done | done].
  exists r, s1. split; [done |].
  pose proof (hoare_run _ s1 _ _ _
                (search_musicbrainz_individual_hoare (R:=R) artist album title s1)) as H2.
  destruct (search_musicbrainz_individual oracle ratio artist album title s1)
    as [[r2| |] s2]; [| done | done].
  unfold track_outcome in *.
  destruct (Py.all_truthy [artist; title]).
  - assert (Hc : cache s1 !! track_key artist album title = Some r).
    { destruct (cache s !! track_key artist album title) eqn:Hc.
      - destruct H1 as [-> ->]. done.
      - destruct H1 as (s' & Hf & -> & _). simpl. apply lookup_insert_eq. }
    split; [done |]. rewrite Hc in H2. destruct H2 as [-> ->]. done.
  - split; [done |]. destruct H1 as [-> ->], H2 as [-> ->]. done.
Qed.

Lemma text_twice {R} artist title album s :
  exists r s1,
    lastfm_search (R:=R) oracle ratio str_of_float artist title album s
    = (Normal r, s1)
    /\ (lastfm_enabled s && Py.all_truthy [artist; title] = true ->
        lastfm_cache s1 !! lastfm_key artist title album = Some r)
    /\ lastfm_search (R:=R) oracle ratio str_of_float artist title album s1
       = (Normal r, record_enter TextClient s1).
Proof.
  pose proof (hoare_run _ s _ _ _
                (lastfm_search_hoare (R:=R) artist title album s)) as H1.
  destruct (lastfm_search oracle ratio str_of_float artist title album s)
    as [[r| |] s1]; [| done | done].
  exists r, s1. split; [done |].
  pose proof (hoare_run _ s1 _ _ _
                (lastfm_search_hoare (R:=R) artist title album s1)) as H2.
  destruct (lastfm_search oracle ratio str_of_float artist title album s1)
    as [[r2| |] s2]; [| done | done].
  unfold text_outcome in *.
  destruct (lastfm_enabled s && Py.all_truthy [artist; title]) eqn:Hg.
  - assert (Hc : lastfm_cache s1 !! lastfm_key artist title album = Some r
                 /\ lastfm_enabled s1 = lastfm_enabled s).
    { destruct (lastfm_cache s !! lastfm_key artist title album) eqn:Hc.
      - destruct H1 as [-> ->]. done.
      - destruct H1 as (s' & Hf & -> & _). simpl. split.
        + apply lookup_insert_eq.
        + by destruct Hf. }
    destruct Hc as [Hc Hen]. split; [done |].
    rewrite Hen, Hg, Hc in H2. destruct H2 as [-> ->]. done.
  - split; [done |]. destruct H1 as [-> ->].
    change (lastfm_enabled (record_enter TextClient s))
      with (lastfm_enabled s) in H2.
    rewrite Hg in H2. destruct H2 as [-> ->]. done.
Qed.

Lemma fingerprint_twice {R} path st_size s :
  stat_stable path st_size ->
  exists r s1,
    audio_fingerprint_lookup (R:=R) oracle str_of_float path s
    = (Normal r, s1)
    /\ (fingerprint_enabled s = true ->
        fingerprint_cache s1 !! fingerprint_key path st_size = Some r)
    /\ exists s2,
         audio_fingerprint_lookup (R:=R) oracle str_of_float path s1
         = (Normal r, s2)
         /\ fingerprint_cache s2 = fingerprint_cache s1
         /\ exists evs, trace s2 = trace s1 ++ evs
              /\ Forall (fun e => event_service e = FileSystem) evs.
Proof.
  intros Hst.
  assert (Hok : stat_succeeds (Some path)).
  { intros p [= <-] w. destruct (Hst w) as [w' Hw]. eauto. }
  pose proof (hoare_run _ s _ _ _
                (audio_fingerprint_lookup_hoare (R:=R) path s)) as H1.
  destruct (audio_fingerprint_lookup oracle str_of_float path s)
    as [[r| |e] s1]; [| done | by eapply fingerprint_no_raise in H1].
  exists r, s1. split; [done |].
  pose proof (hoare_run _ s1 _ _ _
                (audio_fingerprint_lookup_hoare (R:=R) path s1)) as H2.
  destruct (audio_fingerprint_lookup oracle str_of_float path s1)
    as [[r2| |e] s2]; [| done | by eapply fingerprint_no_raise in H2].
  unfold fingerprint_outcome in *.
  (* what the first call left behind *)
  assert (Hfirst :
    (fingerprint_enabled s = true ->
     fingerprint_cache s1 !! fingerprint_key path st_size = Some r)
    /\ (fingerprint_enabled s1 = false -> r = None)).
  { destruct (fingerprint_enabled s) eqn:Hen.
    - destruct H1 as (n & w & Ho & H1).
      destruct (Hst (world s)) as [w' Hw].
      assert (n = st_size) by congruence. subst n. cbv zeta in H1.
      destruct (fingerprint_cache s !! fingerprint_key path st_size)
        eqn:Hc.
      + destruct H1 as [-> ->]. simpl. split; [done |]. congruence.
      + destruct H1 as (s' & Hf & Hstored & _).
        destruct Hstored as [-> | [-> ->]]; simpl.
        * split; [intros _; apply lookup_insert_eq |].
          destruct Hf as [_ _ _ _ _ Hfe _ _]. simpl in Hfe. congruence.
        * split; [intros _; apply lookup_insert_eq | done].
    - destruct H1 as [-> ->]. simpl. split; [done | done]. }
  destruct Hfirst as [Hcache Hoff]. split; [done |].
  exists s2.
  destruct (fingerprint_enabled s1) eqn:Hen1.
  - destruct H2 as (n & w & Ho & H2).
    destruct (Hst (world s1)) as [w' Hw].
    assert (n = st_size) by congruence. subst n. cbv zeta in H2.
    assert (Hen : fingerprint_enabled s = true).
    { destruct (fingerprint_enabled s) eqn:Hen; [done |].
      destruct H1 as [_ ->]. simpl in Hen1. congruence. }
    rewrite (Hcache Hen) in H2. destruct H2 as [-> ->].
    split; [done |]. split; [done |]. simpl.
    exists [Ev (Stat path)]. split; [done | by repeat constructor].
  - destruct H2 as [-> ->]. rewrite (Hoff eq_refl).
    split; [done |]. split; [done |]. simpl.
    exists []. split; [by rewrite app_nil_r | constructor].
Qed.

(** *** When the sources are down *)

Lemma insert_none_keeps {X} (m : gmap string (option X)) key :
  (forall k v, m !! k = Some v -> v = None) ->
  forall k v, <[key := None]> m !! k = Some v -> v = None.
Proof.
  intros H k v. rewrite lookup_insert. case_decide; [congruence | apply H].
Qed.

Lemma nmc_frame allowed s0 s :
  frame allowed s0 s -> no_match_cached s0 -> no_match_cached s.
Proof.
  intros [Hc Ha Hf Hl _ _ _ _] (H1 & H2 & H3 & H4).
  unfold no_match_cached. rewrite Hc, Ha, Hf, Hl. done.
Qed.

Lemma nmc_album artist album s r s' :
  service_down Catalog -> no_match_cached s ->
  album_outcome artist album s r s' -> no_match_cached s' /\ r = None.
Proof.
  intros Hd Hn H. unfold album_outcome in H.
  destruct (Py.all_truthy [artist; album]).
  - destruct (album_cache s !! album_key artist album) eqn:Hc.
    + destruct H as [-> ->]. split; [exact Hn |].
      destruct Hn as (_ & H2 & _). eauto.
    + destruct H as (s1 & Hf & -> & Hr). rewrite (Hr Hd). split; [| done].
      apply (nmc_frame _ _ _ Hf) in Hn as (H1 & H2 & H3 & H4).
      repeat split; simpl; first [assumption | by apply insert_none_keeps].
  - destruct H as [-> ->]. done.
Qed.

Lemma nmc_track artist album title s r s' :
  service_down Catalog -> no_match_cached s ->
  track_outcome artist album title s r s' -> no_match_cached s' /\ r = None.
Proof.
  intros Hd Hn H. unfold track_outcome in H.
  destruct (Py.all_truthy [artist; title]).
  - destruct (cache s !! track_key artist album title) eqn:Hc.
    + destruct H as [-> ->]. split; [exact Hn |].
      destruct Hn as (H1 & _). eauto.
    + destruct H as (s1 & Hf & -> & Hr). rewrite (Hr Hd). split; [| done].
      apply (nmc_frame _ _ _ Hf) in Hn as (H1 & H2 & H3 & H4).
      repeat split; simpl; first [assumption | by apply insert_none_keeps].
  - destruct H as [-> ->]. done.
Qed.

Lemma nmc_text artist title album s r s' :
  service_down TextSearch -> no_match_cached s ->
  text_outcome artist title album s r s' -> no_match_cached s' /\ r = None.
Proof.
  intros Hd Hn H. unfold text_outcome in H.
  destruct (lastfm_enabled s && Py.all_truthy [artist; title]).
  - destruct (lastfm_cache s !! lastfm_key artist title album) eqn:Hc.
    + destruct H as [-> ->]. split; [exact Hn |].
      destruct Hn as (_ & _ & _ & H4). eauto.
    + destruct H as (s1 & Hf & -> & Hr). rewrite (Hr Hd). split; [| done].
      apply (nmc_frame _ _ _ Hf) in Hn as (H1 & H2 & H3 & H4).
      repeat split; simpl; first [assumption | by apply insert_none_keeps].
  - destruct H as [-> ->]. done.
Qed.

Lemma nmc_fingerprint path s r s' :
  service_down Acoustic -> no_match_cached s ->
  fingerprint_outcome path s r s' -> no_match_cached s' /\ r = None.
Proof.
  intros Hd Hn H. unfold fingerprint_outcome in H.
  destruct (fingerprint_enabled s).
  - destruct H as (n & w & Ho & H). cbv zeta in H.
    destruct (fingerprint_cache s !! fingerprint_key path n) eqn:Hc.
    + destruct H as [-> ->]. split; [exact Hn |].
      destruct Hn as (_ & _ & H3 & _). eauto.
    + destruct H as (s2 & Hf & Hst & Hr). rewrite (Hr Hd) in *.
      split; [| done].
      assert (Hn1 : no_match_cached
                      (record_call w (Ev (Stat path))
                         (record_enter FingerprintClient s))) by exact Hn.
      apply (nmc_frame _ _ _ Hf) in Hn1 as (H1 & H2 & H3 & H4).
      destruct Hst as [-> | [_ ->]];
        repeat split; simpl; first [assumption | by apply insert_none_keeps].
  - destruct H as [-> ->]. done.
Qed.

Lemma truthy_nonempty (x : string) : x <> "" -> Py.truthy x = true.
Proof. destruct x; done. Qed.

Lemma merge_entry_some fb ex :
  exists v, merge_entry (Some fb) ex = Some v
            /\ (fb <> "" -> v = fb).
Proof.
  unfold merge_entry. destruct ex as [value|]; [| eauto].
  destruct (Py.truthy value && negb (Py.truthy fb)) eqn:Hc; [| eauto].
  exists value. split; [done |]. intros Hfb%truthy_nonempty.
  rewrite Hfb in Hc. by rewrite andb_false_r in Hc.
Qed.

Lemma fallback_fields_ok artist album title track_number existing :
  fields_ok artist title
    (merge_existing (fallback_dict artist album title track_number) existing).
Proof.
  unfold fields_ok, has_value, merge_existing, fallback_dict.
  rewrite !lookup_merge. simplify_map_eq.
  destruct (merge_entry_some title (existing !! "title")) as (vt & -> & Ht).
  destruct (merge_entry_some artist (existing !! "artist")) as (va & -> & Ha).
  simpl. repeat split; eauto.
  - intros H. rewrite (Ht H). by apply truthy_nonempty.
  - intros H. rewrite (Ha H). by apply truthy_nonempty.
Qed.

Lemma complete_fields_ok artist title d :
  _is_metadata_complete d = true -> fields_ok artist title d.
Proof.
  unfold _is_metadata_complete, essential_fields. simpl existsb.
  destruct (has_value d "title") eqn:Ht; [| done].
  destruct (has_value d "artist") eqn:Ha;
    [| by rewrite ?orb_true_r; simpl; rewrite ?orb_true_r].
  intros _. unfold fields_ok. rewrite Ht, Ha.
  unfold has_value in Ht, Ha.
  destruct (d !! "title"), (d !! "artist"); done.
Qed.

Lemma hoare_found_none {R A} (P : State W -> Prop)
    (k : bool -> M W R A) Qn Qr Qe :
  hoare P (k false) Qn Qr Qe ->
  hoare P (bind (found None) k) Qn Qr Qe.
Proof. intros H s Hs. exact (H s Hs). Qed.

Section Offline.
Variables (artist album title : string) (track_number : option Z).
Variables (is_generic : bool) (file_path : option Path.t).
Variable existing_metadata : option loc.
Hypothesis catalog_down : service_down Catalog.
Hypothesis acoustic_down : service_down Acoustic.
Hypothesis text_down : service_down TextSearch.
Hypothesis stat_ok : stat_succeeds file_path.

(** With every source down and nothing cached, each client answers
    no-match. *)
Lemma offline_fingerprint {R} path (Qr : R -> State W -> Prop) :
  stat_succeeds (Some path) ->
  hoare no_match_cached
    (audio_fingerprint_lookup oracle str_of_float path)
    (fun r s => no_match_cached s /\ r = None) Qr (fun _ _ => False).
Proof.
  intros Hp. eapply hoare_use; [apply audio_fingerprint_lookup_hoare | |].
  - intros s r s' Hn Ho. by eapply nmc_fingerprint.
  - intros s e s' _ Hr. eauto using fingerprint_no_raise.
Qed.

Lemma offline_position {R} n (Qr : R -> State W -> Prop) :
  hoare no_match_cached
    (search_track_by_position oracle ratio artist album n)
    (fun r s => no_match_cached s /\ r = None) Qr (fun _ _ => False).
Proof.
  eapply hoare_use; [apply search_track_by_position_hoare | | done].
  intros s r s' Hn (tracks & Ho & Hr).
  destruct (nmc_album _ _ _ _ _ catalog_down Hn Ho) as [? ->]. auto.
Qed.

Lemma offline_track {R} (Qr : R -> State W -> Prop) :
  hoare no_match_cached
    (search_musicbrainz_individual oracle ratio artist album title)
    (fun r s => no_match_cached s /\ r = None) Qr (fun _ _ => False).
Proof.
  eapply hoare_use;
    [apply search_musicbrainz_individual_hoare | | done].
  intros s r s' Hn Ho. by eapply nmc_track.
Qed.

Lemma offline_text {R} (Qr : R -> State W -> Prop) :
  hoare no_match_cached
    (lastfm_search oracle ratio str_of_float artist title album)
    (fun r s => no_match_cached s /\ r = None) Qr (fun _ _ => False).
Proof.
  eapply hoare_use; [apply lastfm_search_hoare | | done].
  intros s r s' Hn Ho. by eapply nmc_text.
Qed.

Lemma lookup_strategies_offline :
  hoare no_match_cached
    (lookup_strategies oracle ratio str_of_float artist album title
       track_number is_generic file_path existing_metadata)
    (fun _ _ => False) (record_ok artist title) (fun _ _ => False).
Proof.
  unfold lookup_strategies.
  set (I := no_match_cached).
  apply (hoare_bind _ _ _ (fun _ => I)); [apply hoare_get_state; auto |].
  intros s1.
  apply (hoare_bind _ _ _ (fun _ => I)).
  { destruct file_path as [path|] eqn:Hp; [| apply hoare_ret; auto].
    apply hoare_when; [| auto]. intros ?.
    eapply hoare_bind; [apply offline_fingerprint, stat_ok |]. intros x.
    apply hoare_pure. intros ->. apply hoare_found_none.
    apply hoare_ret. auto. }
  intros ?.
  apply (hoare_bind _ _ _ (fun _ => I)).
  { apply hoare_when; [| auto]. intros ?.
    eapply hoare_bind; [apply offline_position |]. intros x.
    apply hoare_pure. intros ->. apply hoare_found_none.
    apply hoare_ret. auto. }
  intros ?.
  apply (hoare_bind _ _ _ (fun _ => I)).
  { apply hoare_when; [| auto]. intros ?.
    eapply hoare_bind; [apply offline_track |]. intros x.
    apply hoare_pure. intros ->. apply hoare_found_none.
    apply (hoare_bind _ _ _ (fun _ => I)); [apply hoare_ret; auto |].
    intros ?.
    apply (hoare_bind _ _ _ (fun _ => I)); [apply hoare_get_state; auto |].
    intros s2.
    apply (hoare_bind _ _ _ (fun _ => I)).
    { destruct file_path as [path|] eqn:Hp; [| apply hoare_ret; auto].
      apply hoare_when; [| auto]. intros ?.
      eapply hoare_bind; [apply offline_fingerprint, stat_ok |]. intros y.
      apply hoare_pure. intros ->. apply hoare_found_none.
      apply hoare_ret. auto. }
    intros ?.
    apply (hoare_bind _ _ _ (fun _ => I)); [apply hoare_get_state; auto |].
    intros s3.
    apply hoare_when; [| auto]. intros ?.
    eapply hoare_bind; [apply offline_text |]. intros y.
    apply hoare_pure. intros ->. apply hoare_found_none.
    apply hoare_ret. auto. }
  intros ?. cbv zeta.
  apply (hoare_bind _ _ _ (fun _ => I)).
  { destruct existing_metadata; [| apply hoare_ret; auto].
    intros s Hs. simpl. done. }
  intros existing.
  intros s Hs. simpl.
  exists (merge_existing
            (fallback_dict artist album title track_number) existing).
  split; [| apply fallback_fields_ok].
  by apply list_lookup_middle.
Qed.

Lemma get_metadata_offline {R} :
  hoare no_match_cached
    (get_metadata (R:=R) oracle ratio str_of_float artist album title
       track_number is_generic file_path existing_metadata)
    (record_ok artist title) (fun _ _ => False) (fun _ _ => False).
Proof.
  unfold get_metadata. apply hoare_fn.
  apply (hoare_bind _ _ _ (fun _ => no_match_cached)).
  { destruct existing_metadata as [l|]; [| apply hoare_ret; auto].
    intros s Hs. unfold bind, read, when.
    destruct (dict_truthy (deref (heap s) l)
              && _is_metadata_complete (deref (heap s) l)) eqn:Hc;
      simpl; [| done].
    apply andb_prop in Hc as [Ht Hc].
    exists (deref (heap s) l). split; [| by apply complete_fields_ok].
    unfold deref, dict_truthy in *.
    destruct (heap s !! l); [done |]. simpl in Ht.
    by rewrite bool_decide_eq_true_2 in Ht. }
  intros ?. apply lookup_strategies_offline.
Qed.
End Offline.

(** *** The claims about the source clients and [get_metadata] *)

Lemma truthy_empty (x : string) : Py.truthy x = false <-> x = "".
Proof. destruct x; split; done. Qed.

Lemma all_truthy_pair a b :
  a = "" \/ b = "" -> Py.all_truthy [a; b] = false.
Proof.
  intros [-> | ->]; unfold Py.all_truthy; simpl; [done |].
  by rewrite andb_false_r.
Qed.

(** C1 (amended).  When every external source is down, nothing is
    cached and the file can be stat'ed, [get_metadata] returns a
    record; its [title] and [artist] fields are present, and each is
    non-empty when the corresponding argument is non-empty.  (With an
    empty path-derived artist and no existing artist tag the field is
    present and empty.) *)
Theorem get_metadata_fallback_fields {R} artist album title track_number
    is_generic file_path existing_metadata s :
  service_down Catalog -> service_down Acoustic -> service_down TextSearch ->
  stat_succeeds file_path ->
  no_match_cached s ->
  exists l s' d,
    get_metadata (R:=R) oracle ratio str_of_float artist album title
      track_number is_generic file_path existing_metadata s
    = (Normal l, s')
    /\ heap s' !! l = Some d
    /\ is_Some (d !! "title") /\ is_Some (d !! "artist")
    /\ (title <> "" -> has_value d "title" = true)
    /\ (artist <> "" -> has_value d "artist" = true).
Proof.
  intros Hc Ha Ht Hst Hn.
  pose proof (get_metadata_offline artist album title track_number
                is_generic file_path existing_metadata Hc Ha Ht Hst
                (R:=R) s Hn) as H.
  destruct (get_metadata oracle ratio str_of_float artist album title
              track_number is_generic file_path existing_metadata s)
    as [[l| |] s']; [| done | done].
  destruct H as (d & Hd & Hf). exists l, s', d. split; [done |].
  split; [done |]. exact Hf.
Qed.

(** What the completeness predicate asks of a record, field by
    field. *)
Lemma is_metadata_complete_fields (d : Dict) :
  _is_metadata_complete d = true <->
  (forall field, field ∈ essential_fields ->
     has_value d field = true /\ Py.strip (dict_get d field "") <> "")
  /\ _is_generic_filename (dict_get d "title" "") = false
  /\ (has_value d "musicbrainz_recordingid" = true
      \/ has_value d "musicbrainz_trackid" = true).
Proof.
  unfold _is_metadata_complete.
  destruct (existsb _ essential_fields) eqn:E.
  - split; [done |]. intros (Hf & _ & _).
    apply existsb_exists in E as (field & Hin & Hbad).
    destruct (Hf field) as [Hv Hs]; [by apply list_elem_of_In |].
    rewrite Hv in Hbad. simpl in Hbad.
    by apply String.eqb_eq in Hbad.
  - assert (forall field, field ∈ essential_fields ->
              has_value d field = true
              /\ Py.strip (dict_get d field "") <> "") as Hf.
    { intros field Hin%list_elem_of_In.
      assert (negb (has_value d field)
              || String.eqb (Py.strip (dict_get d field "")) "" = false) as Hb.
      { destruct (negb (has_value d field)
                  || String.eqb (Py.strip (dict_get d field "")) "") eqn:Hb;
          [| done].
        assert (existsb
                  (fun field =>
                     negb (has_value d field)
                     || String.eqb (Py.strip (dict_get d field "")) "")
                  essential_fields = true) as E'
          by (apply existsb_exists; eauto).
        congruence. }
      apply orb_false_elim in Hb as [Hv Hs].
      split; [by apply negb_false_iff | by apply String.eqb_neq]. }
    destruct (_is_generic_filename (dict_get d "title" "")) eqn:G.
    + split; [done |]. by intros (_ & ? & _).
    + unfold musicbrainz_fields. cbn [existsb]. rewrite orb_false_r.
      rewrite orb_true_iff. split; [by intros H | by intros (_ & _ & H)].
Qed.

(** C2 (amended).  Existing metadata that satisfies the program's
    completeness predicate is returned as the same object, and the
    state is left as it was: no external call, no client entered, no
    dictionary touched.  The predicate asks for a title, an artist and
    an album that are present and not blank, a title that is not
    generic, and a MusicBrainz recording or track identifier; no other
    identifier counts.  A record without these two identifiers is
    incomplete however clean its other fields are, and for an
    incomplete record [get_metadata] goes on with the lookup
    strategies. *)
Theorem complete_metadata_is_returned {R} artist album title track_number
    is_generic file_path l s :
  (_is_metadata_complete (deref (heap s) l) = true ->
   get_metadata (R:=R) oracle ratio str_of_float artist album title
     track_number is_generic file_path (Some l) s
   = (Normal l, s))
  /\ (forall d : Dict,
        has_value d "musicbrainz_recordingid" = false ->
        has_value d "musicbrainz_trackid" = false ->
        _is_metadata_complete d = false)
  /\ (_is_metadata_complete (deref (heap s) l) = false ->
      get_metadata (R:=R) oracle ratio str_of_float artist album title
        track_number is_generic file_path (Some l) s
      = fn (lookup_strategies oracle ratio str_of_float artist album title
              track_number is_generic file_path (Some l)) s)
  /\ (forall d : Dict,
        _is_metadata_complete d = true <->
        (forall field, field ∈ essential_fields ->
           has_value d field = true
           /\ Py.strip (dict_get d field "") <> "")
        /\ _is_generic_filename (dict_get d "title" "") = false
        /\ (has_value d "musicbrainz_recordingid" = true
            \/ has_value d "musicbrainz_trackid" = true)).
Proof.
  split; [| split; [| split]].
  - intros Hc. unfold get_metadata, fn, bind, read, when.
    assert (Ht : dict_truthy (deref (heap s) l) = true).
    { unfold dict_truthy. apply negb_true_iff, bool_decide_eq_false.
      intros He. rewrite He in Hc. vm_compute in Hc. done. }
    rewrite Ht, Hc. reflexivity.
  - intros d H1 H2. unfold _is_metadata_complete, musicbrainz_fields.
    simpl existsb at 2. rewrite H1, H2.
    by repeat match goal with |- context [if ?b then _ else _] => destruct b end.
  - intros Hc. unfold get_metadata, fn, bind, read, when.
    rewrite Hc, andb_false_r. reflexivity.
  - intros d. apply is_metadata_complete_fields.
Qed.

(** C3 (amended).  No exception raised by an external call during a
    lookup leaves a source client: each client ends normally (the
    acoustic client provided the file can be stat'ed), and when every
    call to its service raises and the query is not cached, its
    result is no-match and the no-match marker is what it stores
    under the query key.  [get_metadata] never raises and always
    returns a record, provided the file can be stat'ed. *)
Theorem exceptions_stay_inside_clients {R} :
  (forall artist album s, exists r s',
      search_album_tracks (R:=R) oracle ratio artist album s = (Normal r, s')
      /\ (service_down Catalog ->
          Py.all_truthy [artist; album] = true ->
          album_cache s !! album_key artist album = None ->
          r = None /\ album_cache s' !! album_key artist album = Some None))
  /\ (forall artist album title s, exists r s',
        search_musicbrainz_individual (R:=R) oracle ratio artist album title s
        = (Normal r, s')
        /\ (service_down Catalog ->
            Py.all_truthy [artist; title] = true ->
            cache s !! track_key artist album title = None ->
            r = None /\ cache s' !! track_key artist album title = Some None))
  /\ (forall artist title album s, exists r s',
        lastfm_search (R:=R) oracle ratio str_of_float artist title album s
        = (Normal r, s')
        /\ (service_down TextSearch ->
            lastfm_enabled s && Py.all_truthy [artist; title] = true ->
            lastfm_cache s !! lastfm_key artist title album = None ->
            r = None
            /\ lastfm_cache s' !! lastfm_key artist title album = Some None))
  /\ (forall path st_size s,
        stat_stable path st_size ->
        exists r s',
          audio_fingerprint_lookup (R:=R) oracle str_of_float path s
          = (Normal r, s')
          /\ (service_down Acoustic ->
              fingerprint_enabled s = true ->
              fingerprint_cache s !! fingerprint_key path st_size = None ->
              r = None
              /\ fingerprint_cache s' !! fingerprint_key path st_size
                 = Some None))
  /\ (forall artist album title track_number is_generic file_path
             existing_metadata s,
        stat_succeeds file_path ->
        exists l s',
          get_metadata (R:=R) oracle ratio str_of_float artist album title
            track_number is_generic file_path existing_metadata s
          = (Normal l, s')).
Proof.
  repeat split.
  - intros artist album s.
    destruct (album_twice (R:=R) artist album s) as (r & s' & Hrun & Hst & _).
    exists r, s'. split; [done |]. intros Hd Hg Hc.
    pose proof (hoare_run _ s _ _ _
                  (search_album_tracks_hoare (R:=R) artist album s)) as H.
    rewrite Hrun in H. unfold album_outcome in H. rewrite Hg, Hc in H.
    destruct H as (s1 & _ & _ & Hr). rewrite (Hr Hd) in *. auto.
  - intros artist album title s.
    destruct (track_twice (R:=R) artist album title s)
      as (r & s' & Hrun & Hst & _).
    exists r, s'. split; [done |]. intros Hd Hg Hc.
    pose proof (hoare_run _ s _ _ _
                  (search_musicbrainz_individual_hoare (R:=R)
                     artist album title s)) as H.
    rewrite Hrun in H. unfold track_outcome in H. rewrite Hg, Hc in H.
    destruct H as (s1 & _ & _ & Hr). rewrite (Hr Hd) in *. auto.
  - intros artist title album s.
    destruct (text_twice (R:=R) artist title album s)
      as (r & s' & Hrun & Hst & _).
    exists r, s'. split; [done |]. intros Hd Hg Hc.
    pose proof (hoare_run _ s _ _ _
                  (lastfm_search_hoare (R:=R) artist title album s)) as H.
    rewrite Hrun in H. unfold text_outcome in H. rewrite Hg, Hc in H.
    destruct H as (s1 & _ & _ & Hr). rewrite (Hr Hd) in *. auto.
  - intros path st_size s Hstable.
    destruct (fingerprint_twice (R:=R) path st_size s Hstable)
      as (r & s' & Hrun & Hst & _).
    exists r, s'. split; [done |]. intros Hd Hen Hc.
    pose proof (hoare_run _ s _ _ _
                  (audio_fingerprint_lookup_hoare (R:=R) path s)) as H.
    rewrite Hrun in H. unfold fingerprint_outcome in H. rewrite Hen in H.
    destruct H as (n & w & Ho & H).
    destruct (Hstable (world s)) as [w' Hw].
    assert (n = st_size) by congruence. subst n. cbv zeta in H.
    rewrite Hc in H. destruct H as (s2 & _ & _ & Hr).
    rewrite (Hr Hd) in *. auto.
  - intros artist album title track_number is_generic file_path
      existing_metadata s Hst.
    pose proof (get_metadata_no_raise (R:=R) artist album title track_number
                  is_generic file_path existing_metadata Hst s I) as H.
    destruct (get_metadata oracle ratio str_of_float artist album title
                track_number is_generic file_path existing_metadata s)
      as [[l| |] s']; [eauto | done | done].
Qed.

(** C4.  For a generic file name [get_metadata] never enters the text
    search client: whatever the outcome, the ghost log gains no
    [TextClient] entry, the trace gains no call to the text search
    service, and the text search cache is as it was. *)
Theorem generic_never_reaches_text_search {R} artist album title
    track_number file_path existing_metadata s :
  quiet s
    (snd (get_metadata (R:=R) oracle ratio str_of_float artist album title
            track_number true file_path existing_metadata s)).
Proof.
  pose proof (get_metadata_keeps (R:=R) (quiet s) (fun _ => quiet s)
                (quiet_heap s) artist album title track_number true
                file_path existing_metadata) as H.
  assert (Hrun : hoare (quiet s)
            (get_metadata (R:=R) oracle ratio str_of_float artist album title
               track_number true file_path existing_metadata)
            (fun _ => quiet s) (fun _ _ => False) (fun _ => quiet s)).
  { apply H.
    - intros path _. eapply hoare_use; [apply audio_fingerprint_lookup_hoare | |].
      + intros s1 r s2 Hq Ho. eapply quiet_trans; [exact Hq |].
        by eapply quiet_fingerprint.
      + intros s1 e s2 Hq Ho. eapply quiet_trans; [exact Hq |].
        by eapply quiet_fingerprint_raises.
    - intros _. eapply hoare_use; [apply search_track_by_position_hoare | | done].
      intros s1 r s2 Hq (tracks & Ho & _). eapply quiet_trans; [exact Hq |].
      by eapply quiet_album.
    - discriminate.
    - discriminate. }
  specialize (Hrun s (quiet_refl s)).
  destruct (get_metadata oracle ratio str_of_float artist album title
              track_number true file_path existing_metadata s)
    as [[l| |e] s']; simpl; done.
Qed.

(** C5 (amended).  Issuing the same query twice: the first call ends
    normally and leaves its result, a record or the no-match marker,
    in the client's cache under the query key; the second call
    returns the same result and makes no external call (for the
    acoustic client, nothing but the [stat] that builds the key).
    The first call makes all the external calls of one lookup, which
    may be none or several. *)
Theorem second_query_is_served_from_cache {R} :
  (forall artist album s, exists r s1,
      search_album_tracks (R:=R) oracle ratio artist album s = (Normal r, s1)
      /\ (Py.all_truthy [artist; album] = true ->
          album_cache s1 !! album_key artist album = Some r)
      /\ search_album_tracks (R:=R) oracle ratio artist album s1
         = (Normal r, record_enter AlbumClient s1))
  /\ (forall artist album title s, exists r s1,
        search_musicbrainz_individual (R:=R) oracle ratio artist album title s
        = (Normal r, s1)
        /\ (Py.all_truthy [artist; title] = true ->
            cache s1 !! track_key artist album title = Some r)
        /\ search_musicbrainz_individual (R:=R) oracle ratio
             artist album title s1
           = (Normal r, record_enter TrackClient s1))
  /\ (forall artist title album s, exists r s1,
        lastfm_search (R:=R) oracle ratio str_of_float artist title album s
        = (Normal r, s1)
        /\ (lastfm_enabled s && Py.all_truthy [artist; title] = true ->
            lastfm_cache s1 !! lastfm_key artist title album = Some r)
        /\ lastfm_search (R:=R) oracle ratio str_of_float
             artist title album s1
           = (Normal r, record_enter TextClient s1))
  /\ (forall path st_size s,
        stat_stable path st_size ->
        exists r s1,
          audio_fingerprint_lookup (R:=R) oracle str_of_float path s
          = (Normal r, s1)
          /\ (fingerprint_enabled s = true ->
              fingerprint_cache s1 !! fingerprint_key path st_size = Some r)
          /\ exists s2,
               audio_fingerprint_lookup (R:=R) oracle str_of_float path s1
               = (Normal r, s2)
               /\ fingerprint_cache s2 = fingerprint_cache s1
               /\ exists evs, trace s2 = trace s1 ++ evs
                    /\ Forall (fun e => event_service e = FileSystem) evs).
Proof.
  split; [| split; [| split]].
  - intros. apply album_twice.
  - intros. apply track_twice.
  - intros. apply text_twice.
  - intros. by apply fingerprint_twice.
Qed.

(** C10.  A client whose required query field is missing returns
    no-match at once: the state after the call is the state before
    it with the ghost entry of the client as the only addition, so no
    external call was made, the rate limiter was not consulted and no
    cache was written. *)
Theorem missing_field_returns_at_once {R} artist album title s :
  ((artist = "" \/ album = "") ->
   search_album_tracks (R:=R) oracle ratio artist album s
   = (Normal None, record_enter AlbumClient s))
  /\ ((artist = "" \/ title = "") ->
      search_musicbrainz_individual (R:=R) oracle ratio artist album title s
      = (Normal None, record_enter TrackClient s))
  /\ ((lastfm_enabled s = false \/ artist = "" \/ title = "") ->
      lastfm_search (R:=R) oracle ratio str_of_float artist title album s
      = (Normal None, record_enter TextClient s)).
Proof.
  split; [| split].
  - intros Hg%all_truthy_pair.
    pose proof (hoare_run _ s _ _ _
                  (search_album_tracks_hoare (R:=R) artist album s)) as H.
    destruct (search_album_tracks oracle ratio artist album s)
      as [[r| |] s']; [| done | done].
    unfold album_outcome in H. rewrite Hg in H. by destruct H as [-> ->].
  - intros Hg%all_truthy_pair.
    pose proof (hoare_run _ s _ _ _
                  (search_musicbrainz_individual_hoare (R:=R)
                     artist album title s)) as H.
    destruct (search_musicbrainz_individual oracle ratio artist album title s)
      as [[r| |] s']; [| done | done].
    unfold track_outcome in H. rewrite Hg in H. by destruct H as [-> ->].
  - intros Hg.
    assert (Hg' : lastfm_enabled s && Py.all_truthy [artist; title] = false).
    { destruct Hg as [-> | Hg]; [done |].
      rewrite (all_truthy_pair _ _ Hg). apply andb_false_r. }
    pose proof (hoare_run _ s _ _ _
                  (lastfm_search_hoare (R:=R) artist title album s)) as H.
    destruct (lastfm_search oracle ratio str_of_float artist title album s)
      as [[r| |] s']; [| done | done].
    unfold text_outcome in H. rewrite Hg' in H. by destruct H as [-> ->].
Qed.

End Frames.

(** ** The filename classifier and the path parser *)






(** C9.  When the number extracted from the file name is zero, the
    parser treats it as no track number: [track_number] is the empty
    string and the title is the file name as it stands (stripped like
    every field), whether the name is generic or not. *)
Theorem zero_is_no_track_number file_path source_path relative_path :
  Path.relative_to file_path source_path = Some relative_path ->
  _extract_track_number (Path.stem relative_path) = Some 0 ->
  exists pm,
    parse_directory_structure file_path source_path = Some pm
    /\ pm_track_number pm = ""
    /\ pm_title pm = Py.strip (Path.stem relative_path).
Proof.
  intros Hrel Hnum. unfold parse_directory_structure.
  rewrite Hrel, Hnum. simpl int_truthy. cbv iota. simpl andb. cbv iota.
  destruct (match nth_last 0 (Path.parent_parts relative_path) with
            | Some album_part =>
                match find_year year_patterns album_part with
                | Some (year, album_clean) => (year, album_clean)
                | None => ("", album_part)
                end
            | None => ("", "")
            end) as [year album].
  eexists. split; [reflexivity |]. split; reflexivity.
Qed.

Lemma zero_is_no_track_number_witness :
  (exists pm,
     parse_directory_structure (Path.of_string "/music/00.wav")
       (Path.of_string "/music") = Some pm
     /\ pm_track_number pm = "" /\ pm_title pm = Py.strip "00")
  /\ (exists pm,
        parse_directory_structure
          (Path.of_string "/music/Queen/Jazz/Track 00.wav")
          (Path.of_string "/music") = Some pm
        /\ pm_track_number pm = "" /\ pm_title pm = Py.strip "Track 00").
Proof.
  split.
  - apply (zero_is_no_track_number
             (Path.of_string "/music/00.wav") (Path.of_string "/music")
             ["00.wav"]); vm_compute; reflexivity.
  - apply (zero_is_no_track_number
             (Path.of_string "/music/Queen/Jazz/Track 00.wav")
             (Path.of_string "/music") ["Queen"; "Jazz"; "Track 00.wav"]);
      vm_compute; reflexivity.
Defined.

(** C7 (amended).  Parsing [opera_file] below [/music] yields the
    artist [Queen], the album [A Night at the Opera], the track number
    [04], the title [04 Bohemian Rhapsody] and a name that is not
    generic: the number is stripped from the title of a generic name
    only. *)
Theorem opera_file_parsed :
  exists pm,
    parse_directory_structure opera_file (Path.of_string "/music") = Some pm
    /\ pm_artist pm = "Queen"
    /\ pm_album pm = "A Night at the Opera"
    /\ pm_track_number pm = "04"
    /\ pm_title pm = "04 Bohemian Rhapsody"
    /\ pm_is_generic pm = false.
Proof. eexists. split; [vm_compute; reflexivity |]. repeat split. Qed.

(** C7, as stated, fails: the parser's answer is another record. *)
Lemma opera_file_not_as_expected :
  parse_directory_structure opera_file (Path.of_string "/music")
  = Some {| pm_title := "04 Bohemian Rhapsody";
            pm_artist := "Queen";
            pm_album := "A Night at the Opera";
            pm_year := "19";
            pm_track_number := "04";
            pm_is_generic := false |}
  /\ parse_directory_structure opera_file (Path.of_string "/music")
     <> Some opera_expected.
Proof. split; [vm_compute; reflexivity | vm_compute; discriminate]. Qed.

(** ** The claims at concrete inputs *)

Lemma offline_down svc :
  svc <> Clock -> svc <> FileSystem -> service_down offline svc.
Proof.
  intros H1 H2 A c w Hs.
  destruct c; simpl in *; try congruence; eauto.
Qed.

Lemma offline_stat file_path : stat_succeeds offline file_path.
Proof. intros path _ w. simpl. eauto. Qed.

Lemma offline_stat_stable path : stat_stable offline path 1024.
Proof. intros w. simpl. eauto. Qed.

Lemma init_no_match {W} fp lf objects (w : W) :
  no_match_cached (init_state fp lf objects w).
Proof. repeat split; intros k v; simpl; by rewrite lookup_empty. Qed.

(** C1, as stated, fails: for [song_file] with every source down the
    returned record is the fallback, and its [artist] field is the
    empty string. *)
Lemma fallback_artist_is_empty :
  fst (lookup_for_file (R:=unit) offline exact_ratio plain_float
         song_file (Path.of_string "/music") (Some 0%nat) song_start)
  = Normal 1%nat
  /\ heap (snd (lookup_for_file (R:=unit) offline exact_ratio plain_float
                  song_file (Path.of_string "/music") (Some 0%nat) song_start))
     !! 1%nat
     = Some {[ "title" := "Song"; "artist" := ""; "album" := "";
               "track_number" := "" ]}
  /\ has_value
       {[ "title" := "Song"; "artist" := ""; "album" := "";
          "track_number" := "" ]} "artist" = false.
Proof. repeat split; vm_compute; reflexivity. Qed.

Lemma get_metadata_fallback_fields_witness :
  exists l s' d,
    get_metadata (R:=unit) offline exact_ratio plain_float
      "Queen" "" "Song" None false (Some song_file) (Some 0%nat) song_start
    = (Normal l, s')
    /\ heap s' !! l = Some d
    /\ is_Some (d !! "title") /\ is_Some (d !! "artist")
    /\ ("Song" <> "" -> has_value d "title" = true)
    /\ ("Queen" <> "" -> has_value d "artist" = true).
Proof.
  apply (get_metadata_fallback_fields offline exact_ratio plain_float
           "Queen" "" "Song" None false (Some song_file) (Some 0%nat)
           song_start).
  - apply offline_down; discriminate.
  - apply offline_down; discriminate.
  - apply offline_down; discriminate.
  - apply offline_stat.
  - apply init_no_match.
Defined.

Lemma complete_metadata_is_returned_witness :
  get_metadata (R:=unit) offline exact_ratio plain_float
    "Queen" "A Night at the Opera" "Bohemian Rhapsody" (Some 4) false
    (Some song_file) (Some 0%nat) tagged_start
  = (Normal 0%nat, tagged_start)
  /\ _is_metadata_complete untagged_record = false
  /\ get_metadata (R:=unit) offline exact_ratio plain_float
       "Queen" "A Night at the Opera" "Bohemian Rhapsody" (Some 4) false
       (Some song_file) (Some 1%nat) tagged_start
     = fn (lookup_strategies offline exact_ratio plain_float
             "Queen" "A Night at the Opera" "Bohemian Rhapsody" (Some 4)
             false (Some song_file) (Some 1%nat)) tagged_start.
Proof.
  split; [| split].
  - apply (complete_metadata_is_returned offline exact_ratio plain_float
             (R:=unit) "Queen" "A Night at the Opera" "Bohemian Rhapsody"
             (Some 4) false (Some song_file) 0%nat tagged_start).
    vm_compute. reflexivity.
  - apply (complete_metadata_is_returned offline exact_ratio plain_float
             (R:=unit) "" "" "" None false None 0%nat tagged_start);
      vm_compute; reflexivity.
  - apply (complete_metadata_is_returned offline exact_ratio plain_float
             (R:=unit) "Queen" "A Night at the Opera" "Bohemian Rhapsody"
             (Some 4) false (Some song_file) 1%nat tagged_start).
    vm_compute. reflexivity.
Defined.

(** C2, as stated, fails: a record with a clean title, artist and
    album whose only identifier is that of the album is not complete
    for the program; [get_metadata] asks the catalog twice and returns
    another object. *)
Lemma album_identifier_is_not_enough :
  (forall field, field ∈ essential_fields ->
     has_value album_id_record field = true
     /\ Py.strip (dict_get album_id_record field "") <> "")
  /\ _is_generic_filename (dict_get album_id_record "title" "") = false
  /\ has_value album_id_record "musicbrainz_albumid" = true
  /\ _is_metadata_complete album_id_record = false
  /\ fst (get_metadata (R:=unit) flaky_catalog exact_ratio plain_float
            "Queen" "Opera" "Song" None false None (Some 0%nat)
            album_id_start)
     = Normal 1%nat
  /\ catalog_calls
       (snd (get_metadata (R:=unit) flaky_catalog exact_ratio plain_float
               "Queen" "Opera" "Song" None false None (Some 0%nat)
               album_id_start))
     = 2%nat.
Proof.
  split.
  { intros field Hin. unfold essential_fields in Hin.
    repeat (apply elem_of_cons in Hin as [-> | Hin];
            [split; [reflexivity | vm_compute; discriminate] |]).
    by apply elem_of_nil in Hin. }
  split_and!; vm_compute; reflexivity.
Qed.

(** C3, as stated, fails: the first search of the track client raises,
    the second answers, and what the client stores under the query key
    and hands to [get_metadata] is the match, not a no-match. *)
Lemma exception_then_match :
  fst (flaky_catalog _
         (SearchRecordings
            (hd "" (search_strategies "Queen" "Opera" "Song"))) tt)
  = inl (MkExn OtherError "400 Bad Request")
  /\ fst (get_metadata (R:=unit) flaky_catalog exact_ratio plain_float
            "Queen" "Opera" "Song" None false None None catalog_start)
     = Normal 0%nat
  /\ cache (snd (get_metadata (R:=unit) flaky_catalog exact_ratio plain_float
                   "Queen" "Opera" "Song" None false None None catalog_start))
     !! "track_queen|opera|song" = Some (Some 0%nat)
  /\ has_value
       (deref
          (heap (snd (get_metadata (R:=unit) flaky_catalog exact_ratio
                        plain_float "Queen" "Opera" "Song" None false None
                        None catalog_start))) 0)
       "musicbrainz_recordingid" = true.
Proof. repeat split; vm_compute; reflexivity. Qed.

Lemma exceptions_stay_inside_clients_witness :
  (exists r s',
     search_album_tracks (R:=unit) offline exact_ratio "Queen" "Opera"
       catalog_start = (Normal r, s')
     /\ r = None /\ album_cache s' !! album_key "Queen" "Opera" = Some None)
  /\ (exists r s',
        audio_fingerprint_lookup (R:=unit) offline plain_float song_file
          catalog_start = (Normal r, s')
        /\ r = None
        /\ fingerprint_cache s' !! fingerprint_key song_file 1024 = Some None)
  /\ (exists l s',
        get_metadata (R:=unit) offline exact_ratio plain_float
          "Queen" "Opera" "Song" (Some 4) false (Some song_file) None
          catalog_start = (Normal l, s')).
Proof.
  destruct (exceptions_stay_inside_clients offline exact_ratio plain_float
              (R:=unit)) as (Ha & _ & _ & Hf & Hg).
  split; [| split].
  - destruct (Ha "Queen" "Opera" catalog_start) as (r & s' & Hrun & H).
    exists r, s'. split; [exact Hrun |].
    apply H; [apply offline_down; discriminate | reflexivity | reflexivity].
  - destruct (Hf song_file 1024 catalog_start (offline_stat_stable song_file))
      as (r & s' & Hrun & H).
    exists r, s'. split; [exact Hrun |].
    apply H; [apply offline_down; discriminate | reflexivity | reflexivity].
  - apply Hg. apply offline_stat.
Defined.

(** C5, as stated, fails: one query of the track client, issued twice,
    sends four search requests to the catalog, all in the first call. *)
Lemma one_query_four_requests :
  fst (search_musicbrainz_individual (R:=unit) empty_catalog exact_ratio
         "Queen" "Opera" "Song" catalog_start) = Normal None
  /\ catalog_calls
       (snd (search_musicbrainz_individual (R:=unit) empty_catalog exact_ratio
               "Queen" "Opera" "Song" catalog_start)) = 4%nat
  /\ catalog_calls
       (snd (search_musicbrainz_individual (R:=unit) empty_catalog exact_ratio
               "Queen" "Opera" "Song"
               (snd (search_musicbrainz_individual (R:=unit) empty_catalog
                       exact_ratio "Queen" "Opera" "Song" catalog_start))))
     = 4%nat.
Proof. repeat split; vm_compute; reflexivity. Qed.

Lemma second_query_is_served_from_cache_witness :
  exists r s1,
    audio_fingerprint_lookup (R:=unit) offline plain_float song_file
      catalog_start = (Normal r, s1)
    /\ (fingerprint_enabled catalog_start = true ->
        fingerprint_cache s1 !! fingerprint_key song_file 1024 = Some r)
    /\ exists s2,
         audio_fingerprint_lookup (R:=unit) offline plain_float song_file s1
         = (Normal r, s2)
         /\ fingerprint_cache s2 = fingerprint_cache s1
         /\ exists evs, trace s2 = trace s1 ++ evs
              /\ Forall (fun e => event_service e = FileSystem) evs.
Proof.
  destruct (second_query_is_served_from_cache offline exact_ratio plain_float
              (R:=unit)) as (_ & _ & _ & Hf).
  apply (Hf song_file 1024 catalog_start). apply offline_stat_stable.
Defined.

Lemma missing_field_returns_at_once_witness :
  search_album_tracks (R:=unit) offline exact_ratio "Queen" "" catalog_start
  = (Normal None, record_enter AlbumClient catalog_start)
  /\ search_musicbrainz_individual (R:=unit) offline exact_ratio
       "" "Opera" "Song" catalog_start
     = (Normal None, record_enter TrackClient catalog_start)
  /\ lastfm_search (R:=unit) offline exact_ratio plain_float
       "Queen" "Song" "Opera" catalog_start
     = (Normal None, record_enter TextClient catalog_start).
Proof.
  split; [| split].
  - apply (missing_field_returns_at_once offline exact_ratio plain_float
             (R:=unit) "Queen" "" "" catalog_start). by right.
  - apply (missing_field_returns_at_once offline exact_ratio plain_float
             (R:=unit) "" "Opera" "Song" catalog_start). by left.
  - apply (missing_field_returns_at_once offline exact_ratio plain_float
             (R:=unit) "Queen" "Opera" "Song" catalog_start). by left.
Defined.


(** * Further properties of the code

    Properties of the lookup class that the specification does not
    state, and of the converter class that drives it. *)

From Stdlib Require Import DecimalPos.

(** ** Facts about the regular expression matcher *)

Lemma all_ascii_complete x : In x all_ascii.
Proof.
  unfold all_ascii. rewrite <- (ascii_nat_embedding x).
  apply in_map. apply in_seq.
  pose proof (nat_ascii_bounded x). lia.
Qed.

Lemma forallb_all_ascii (f : ascii -> bool) x :
  forallb f all_ascii = true -> f x = true.
Proof.
  intros H. rewrite forallb_forall in H. apply H, all_ascii_complete.
Qed.

Section RunFacts.
Context {R : Type}.
Implicit Types (k : Re.cursor -> Re.captures -> option R).
Implicit Types (p : Re.cursor) (cs : Re.captures) (r : Re.regex).

Lemma run_star ic r p cs k :
  Re.run ic (Re.Star r) p cs k = star_loop ic r k (length (Re.rest p)) p cs.
Proof. reflexivity. Qed.

(** A starred class is greedy: it reads the longest run of characters
    of the class, when what follows can go on from there. *)
Lemma star_loop_class ic neg f k pre : forall fuel prev post cs res,
  Forall (fun x => Re.class_match ic neg f x = true) pre ->
  match post with
  | x :: _ => Re.class_match ic neg f x = false
  | [] => True
  end ->
  (length pre <= fuel)%nat ->
  k (cursor_after prev pre post) cs = Some res ->
  star_loop ic (Re.Class neg f) k fuel
    {| Re.before := prev; Re.rest := pre ++ post |} cs = Some res.
Proof.
  induction pre as [|x pre IH]; intros fuel prev post cs res Hpre Hpost Hfuel Hk;
    unfold cursor_after in Hk; simpl in Hk.
  - destruct fuel as [|fuel]; simpl; [exact Hk |].
    destruct post as [|y post]; simpl; [by rewrite Hk |].
    rewrite Hpost. by rewrite Hk.
  - destruct fuel as [|fuel]; simpl in Hfuel; [lia |].
    inversion Hpre as [|? ? Hx Hpre']; subst.
    simpl. rewrite Hx. simpl.
    replace (length (pre ++ post) <? S (length (pre ++ post)))%nat with true
      by (symmetry; apply Nat.ltb_lt; lia).
    change (Re.advance x (pre ++ post))
      with {| Re.before := Some x; Re.rest := pre ++ post |}.
    rewrite (IH fuel (Some x) post cs res); auto. lia.
Qed.

Lemma run_star_class ic neg f k prev pre post cs res :
  Forall (fun x => Re.class_match ic neg f x = true) pre ->
  match post with
  | x :: _ => Re.class_match ic neg f x = false
  | [] => True
  end ->
  k (cursor_after prev pre post) cs = Some res ->
  Re.run ic (Re.Star (Re.Class neg f))
    {| Re.before := prev; Re.rest := pre ++ post |} cs k = Some res.
Proof.
  intros. rewrite run_star. apply star_loop_class; auto.
  simpl. rewrite length_app. lia.
Qed.

(** One or more characters of a class, read greedily. *)
Lemma run_plus_class ic neg f k prev x pre post cs res :
  Forall (fun x => Re.class_match ic neg f x = true) (x :: pre) ->
  match post with
  | x :: _ => Re.class_match ic neg f x = false
  | [] => True
  end ->
  k (cursor_after prev (x :: pre) post) cs = Some res ->
  Re.run ic (Re.plus (Re.Class neg f))
    {| Re.before := prev; Re.rest := (x :: pre) ++ post |} cs k = Some res.
Proof.
  intros Hall Hpost Hk. inversion Hall as [|? ? Hx Hpre]; subst.
  unfold Re.plus.
  change (Re.run ic (Re.Cat ?a ?b) ?p ?cs ?k)
    with (Re.run ic a p cs (fun p' cs' => Re.run ic b p' cs' k)).
  simpl Re.run at 1. simpl Re.rest. rewrite Hx.
  apply (run_star_class ic neg f k (Some x) pre post cs res); auto.
Qed.

(** A pattern that always matches passes on to what follows, or the
    whole match fails only if what follows fails everywhere. *)
Lemma run_always ic r : always_matches r = true ->
  forall p cs k,
    (forall p' cs', is_Some (k p' cs')) -> is_Some (Re.run ic r p cs k).
Proof.
  induction r as [| |c|neg f|r1 IH1 r2 IH2|r1 IH1 r2 IH2|r1 IH1|r1 IH1| | | |n r1 IH1];
    simpl always_matches; intros Ha p cs k Hk; try discriminate.
  - apply Hk.
  - apply andb_prop in Ha as [H1 H2]. simpl.
    apply IH1; [done |]. intros p' cs'. by apply IH2.
  - simpl. destruct (Re.run ic r1 p cs k) eqn:E; [done |].
    apply orb_prop in Ha as [H1 | H2].
    + specialize (IH1 H1 p cs k Hk). rewrite E in IH1. by destruct IH1.
    + by apply IH2.
  - rewrite run_star. destruct (length (Re.rest p)) as [|fuel]; simpl; [apply Hk |].
    match goal with |- is_Some (match ?x with _ => _ end) => destruct x end;
      [done | apply Hk].
  - simpl. destruct (Re.run ic r1 p cs k); [done | apply Hk].
  - simpl. apply IH1; [done |]. intros p' cs'. apply Hk.
Qed.

(** A pattern without groups hands the captures on unchanged. *)
Lemma star_loop_group_free ic r1 k
    (IH : forall p cs k res, Re.run ic r1 p cs k = Some res ->
            exists p', k p' cs = Some res) :
  forall fuel p cs res,
    star_loop ic r1 k fuel p cs = Some res -> exists p', k p' cs = Some res.
Proof.
  induction fuel as [|fuel IHf]; intros p cs res H; simpl in H; [eauto |].
  match type of H with match ?x with _ => _ end = _ => destruct x eqn:E end;
    [| eauto].
  injection H as ->. apply IH in E as [p' E].
  destruct (_ <? _)%nat; eauto.
Qed.

Lemma run_group_free ic r : group_free r = true ->
  forall p cs k res,
    Re.run ic r p cs k = Some res -> exists p', k p' cs = Some res.
Proof.
  induction r as [| |c|neg f|r1 IH1 r2 IH2|r1 IH1 r2 IH2|r1 IH1|r1 IH1| | | |n r1 IH1];
    simpl group_free; intros Hg p cs k res H; try discriminate.
  - eauto.
  - simpl in H. destruct (Re.rest p); [done |]. destruct (Re.chr_match _ _ _); [eauto | done].
  - simpl in H. destruct (Re.rest p); [done |]. destruct (Re.class_match _ _ _ _); [eauto | done].
  - apply andb_prop in Hg as [H1 H2]. simpl in H.
    apply IH1 in H as [p' H]; [| done]. by apply IH2 in H.
  - apply andb_prop in Hg as [H1 H2]. simpl in H.
    destruct (Re.run ic r1 p cs k) eqn:E.
    + injection H as ->. by apply IH1 in E.
    + by apply IH2 in H.
  - rewrite run_star in H. eapply star_loop_group_free; [| exact H].
    intros. by eapply IH1.
  - simpl in H. destruct (Re.run ic r1 p cs k) eqn:E; [| eauto].
    injection H as ->. by apply IH1 in E.
  - simpl in H. destruct (Re.before p); [done | eauto].
  - simpl in H. destruct (Re.at_end p); [eauto | done].
  - simpl in H. destruct (xorb _ _); [eauto | done].
Qed.

(** What follows a pattern is tried only at places further on. *)
Lemma star_loop_fails ic good r1 k
    (IH : forall p cs k, clean good p ->
            (forall p' cs', clean good p' -> k p' cs' = None) ->
            Re.run ic r1 p cs k = None) :
  (forall p' cs', clean good p' -> k p' cs' = None) ->
  forall fuel p cs, clean good p -> star_loop ic r1 k fuel p cs = None.
Proof.
  intros Hk. induction fuel as [|fuel IHf]; intros p cs Hp; simpl; [by apply Hk |].
  rewrite IH; [by apply Hk | done |].
  intros p' cs' Hp'. destruct (_ <? _)%nat; [by apply IHf | by apply Hk].
Qed.

Lemma run_fails ic good r p cs k :
  clean good p ->
  (forall p' cs', clean good p' -> k p' cs' = None) ->
  Re.run ic r p cs k = None.
Proof.
  revert p cs k.
  induction r as [| |c|neg f|r1 IH1 r2 IH2|r1 IH1 r2 IH2|r1 IH1|r1 IH1| | | |n r1 IH1];
    intros p cs k Hp Hk; simpl.
  - by apply Hk.
  - done.
  - unfold clean in Hp. destruct p as [b [|x l]]; simpl in *; [done |].
    destruct (Re.chr_match _ _ _); [| done]. apply Hk.
    unfold clean. simpl. by inversion Hp.
  - unfold clean in Hp. destruct p as [b [|x l]]; simpl in *; [done |].
    destruct (Re.class_match _ _ _ _); [| done]. apply Hk.
    unfold clean. simpl. by inversion Hp.
  - apply IH1; [done |]. intros p' cs' Hp'. by apply IH2.
  - rewrite IH1 by done. by apply IH2.
  - change (star_loop ic r1 k (length (Re.rest p)) p cs = None).
    apply (star_loop_fails ic good); auto.
  - rewrite IH1 by done. by apply Hk.
  - destruct (Re.before p); [done | by apply Hk].
  - destruct (Re.at_end p); [by apply Hk | done].
  - destruct (xorb _ _); [by apply Hk | done].
  - apply IH1; [done |]. intros p' cs' Hp'. by apply Hk.
Qed.

(** A pattern that must read a good character fails where there is
    none left. *)
Lemma run_must_read ic good r : must_read ic good r = true ->
  forall p cs k, clean good p -> Re.run ic r p cs k = None.
Proof.
  induction r as [| |c|neg f|r1 IH1 r2 IH2|r1 IH1 r2 IH2|r1 IH1|r1 IH1| | | |n r1 IH1];
    cbn [must_read]; intros Hm p cs k Hp; try discriminate.
  - done.
  - unfold reads_only in Hm.
    simpl. unfold clean in Hp. destruct p as [b [|x l]]; simpl in *; [done |].
    destruct (Re.chr_match ic c x) eqn:E; [| done].
    pose proof (forallb_all_ascii
                  (fun x => implb (Re.chr_match ic c x) (good x)) x Hm) as Hx.
    simpl in Hx. rewrite E in Hx.
    simpl in Hx. inversion Hp; congruence.
  - unfold reads_only in Hm.
    simpl. unfold clean in Hp. destruct p as [b [|x l]]; simpl in *; [done |].
    destruct (Re.class_match ic neg f x) eqn:E; [| done].
    pose proof (forallb_all_ascii
                  (fun x => implb (Re.class_match ic neg f x) (good x)) x Hm) as Hx.
    simpl in Hx. rewrite E in Hx.
    simpl in Hx. inversion Hp; congruence.
  - simpl. apply orb_prop in Hm as [H1 | H2].
    + by apply IH1.
    + apply (run_fails ic good); [done |]. intros p' cs' Hp'. by apply IH2.
  - simpl. apply andb_prop in Hm as [H1 H2].
    rewrite IH1 by done. by apply IH2.
  - simpl. by apply IH1.
Qed.

End RunFacts.

Lemma search_from_must_read ic good r : must_read ic good r = true ->
  forall l start prev,
    Forall (fun x => good x = false) l ->
    Re.search_from ic r start prev l = None.
Proof.
  intros Hm. induction l as [|x l IH]; intros start prev Hl; simpl.
  - unfold Re.match_here. by rewrite (run_must_read ic good r Hm).
  - unfold Re.match_here. rewrite (run_must_read ic good r Hm) by done.
    apply IH. by inversion Hl.
Qed.

Lemma search_from_here ic r start prev l m :
  Re.match_here ic r start {| Re.before := prev; Re.rest := l |} = Some m ->
  Re.search_from ic r start prev l = Some m.
Proof. intros H. destruct l; simpl; by rewrite H. Qed.

(** ** Digits, case and whitespace *)

Lemma list_ascii_app (a b : string) :
  list_ascii_of_string (a ++ b) = list_ascii_of_string a ++ list_ascii_of_string b.
Proof. induction a as [|c a IH]; simpl; [done | by rewrite IH]. Qed.

Lemma list_ascii_map_string f s :
  list_ascii_of_string (Py.map_string f s) = map f (list_ascii_of_string s).
Proof. induction s as [|c s IH]; simpl; [done | by rewrite IH]. Qed.

Lemma map_string_app f (a b : string) :
  Py.map_string f (a ++ b) = (Py.map_string f a ++ Py.map_string f b)%string.
Proof. induction a as [|c a IH]; simpl; [done | by rewrite IH]. Qed.

Lemma digit_facts c : Py.is_digit c = true ->
  Py.lower_char c = c /\ Py.is_space c = false
  /\ Ascii.eqb c "-" = false /\ Ascii.eqb c "+" = false.
Proof. destruct c as [[] [] [] [] [] [] [] []]; vm_compute; intuition congruence. Qed.

Lemma is_digit_lower_char c : Py.is_digit (Py.lower_char c) = Py.is_digit c.
Proof. destruct c as [[] [] [] [] [] [] [] []]; reflexivity. Qed.

Lemma is_space_lower_char c : Py.is_space (Py.lower_char c) = Py.is_space c.
Proof. destruct c as [[] [] [] [] [] [] [] []]; reflexivity. Qed.

Lemma lower_digits s :
  Forall (fun c => Py.is_digit c = true) (list_ascii_of_string s) ->
  Py.lower s = s.
Proof.
  unfold Py.lower. induction s as [|c s IH]; simpl; intros H; [done |].
  inversion H as [|? ? Hc Hs]; subst.
  rewrite IH by done. by destruct (digit_facts c Hc) as [-> _].
Qed.

Lemma lstrip_chars_head l :
  match l with c :: _ => Py.is_space c = false | [] => True end ->
  Py.lstrip_chars l = l.
Proof. destruct l as [|c l]; simpl; [done |]. by intros ->. Qed.

Lemma strip_chars_digits l :
  Forall (fun c => Py.is_digit c = true) l -> Py.strip_chars l = l.
Proof.
  intros H. unfold Py.strip_chars.
  rewrite (lstrip_chars_head l).
  2:{ destruct H as [|c l Hc]; [done |]. by apply digit_facts. }
  rewrite lstrip_chars_head; [apply rev_involutive |].
  apply Forall_rev in H. destruct H as [|c ? Hc]; [done |]. by apply digit_facts.
Qed.

Lemma int_body_ok_digits l : forall b,
  Forall (fun c => Py.is_digit c = true) l ->
  Py.int_body_ok b l = match l with [] => b | _ => true end.
Proof.
  induction l as [|c l IH]; intros b H; simpl; [done |].
  inversion H as [|? ? Hc Hl]; subst. rewrite Hc, IH by done.
  by destruct l.
Qed.

Lemma filter_digits l :
  Forall (fun c => Py.is_digit c = true) l ->
  filter (fun c => Py.is_digit c = true) l = l.
Proof.
  induction 1 as [|c l Hc Hl IH]; [done |].
  rewrite filter_cons. destruct (decide (Py.is_digit c = true)); [| done].
  by rewrite IH.
Qed.

(** [int] of a string of digits is its decimal value. *)
Lemma int_of_str_digits s : all_digits s ->
  Py.int_of_str s = Some (Py.digits_value 0 (list_ascii_of_string s)).
Proof.
  intros [Hne H]. unfold Py.int_of_str.
  rewrite strip_chars_digits by done.
  destruct s as [|c s]; [done |]. simpl list_ascii_of_string in *.
  inversion H as [|? ? Hc Hs]; subst.
  destruct (digit_facts c Hc) as (_ & _ & -> & ->).
  rewrite int_body_ok_digits by done.
  by rewrite filter_digits by done.
Qed.

Lemma isdigit_all_digits s : isdigit s = true -> all_digits s.
Proof.
  intros [Hne Hd]%andb_prop. split; [by destruct s |].
  apply Forall_forall. intros x Hx. rewrite forallb_forall in Hd.
  by apply Hd, list_elem_of_In.
Qed.

(** ** [_extract_track_number] *)

Lemma leading_number_shape :
  exists tail,
    Re.compile "^(\d+)[\s\-_\.]*"
    = Re.Cat Re.Bol
        (Re.Cat (Re.Group 1 (Re.Cat (Re.plus (Re.Class false Py.is_digit)) Re.Eps)) tail)
    /\ always_matches tail = true /\ group_free tail = true.
Proof. eexists. split; [reflexivity |]. split; reflexivity. Qed.

Lemma digit_class_match c :
  Re.class_match false false Py.is_digit c = Py.is_digit c.
Proof. reflexivity. Qed.

(** The first track number pattern on a name that starts with digits:
    group 1 is the whole run of digits. *)
Lemma leading_number_match (ds rest : list ascii) :
  ds <> [] ->
  Forall (fun c => Py.is_digit c = true) ds ->
  match rest with c :: _ => Py.is_digit c = false | [] => True end ->
  exists m,
    Re.search_from false (Re.compile "^(\d+)[\s\-_\.]*") 0 None (ds ++ rest)
    = Some m
    /\ Re.group 1 m = Some (string_of_list_ascii ds).
Proof.
  intros Hne Hds Hrest.
  destruct leading_number_shape as (tail & -> & Ha & Hg).
  destruct ds as [|d ds]; [done |].
  set (l := (d :: ds) ++ rest).
  set (kfinal := fun (p' : Re.cursor) (cs : Re.captures) =>
    Some {| Re.m_start := 0;
            Re.m_end := (0 + (length l - length (Re.rest p')))%nat;
            Re.m_text := take (length l - length (Re.rest p')) l;
            Re.m_groups := cs |}).
  set (cs1 := [(1%nat, d :: ds)] : Re.captures).
  destruct (run_always false tail Ha (cursor_after None (d :: ds) rest) cs1 kfinal)
    as [m Hm]; [by intros; eexists |].
  exists m. split.
  - apply search_from_here. unfold Re.match_here.
    change (Re.run false (Re.plus (Re.Class false Py.is_digit))
              {| Re.before := None; Re.rest := (d :: ds) ++ rest |} []
              (fun p' cs' =>
                 Re.run false tail p'
                   ((1%nat, take (length ((d :: ds) ++ rest) - length (Re.rest p'))
                              ((d :: ds) ++ rest)) :: cs') kfinal) = Some m).
    apply run_plus_class; [done | done |].
    unfold cursor_after at 2. cbn [Re.rest].
    replace (take _ _) with (d :: ds); [exact Hm |].
    rewrite length_app.
    replace (length (d :: ds) + length rest - length rest)%nat
      with (length (d :: ds)) by lia.
    by rewrite take_app_length.
  - apply run_group_free in Hm as [p' Hm]; [| done].
    unfold kfinal in Hm. injection Hm as <-. reflexivity.
Qed.

Lemma no_digit_ahead_lower rest :
  starts_with_digit rest = false ->
  match list_ascii_of_string (Py.lower rest) with
  | c :: _ => Py.is_digit c = false
  | [] => True
  end.
Proof.
  destruct rest as [|c rest]; simpl; [done |].
  by rewrite is_digit_lower_char.
Qed.

Lemma all_digits_list s : all_digits s -> list_ascii_of_string s <> [].
Proof. intros [Hne _]. by destruct s. Qed.

(** X1.  [_extract_track_number]: a name that begins with the digits [ds],
    not followed by another digit, has the value of [ds] as its track
    number. *)
Theorem leading_digits_are_the_track_number (ds rest : string) :
  isdigit ds = true -> starts_with_digit rest = false ->
  _extract_track_number (ds ++ rest)
  = Some (Py.digits_value 0 (list_ascii_of_string ds)).
Proof.
  intros Hds%isdigit_all_digits Hrest. unfold _extract_track_number, Py.lower.
  rewrite map_string_app. fold (Py.lower ds) (Py.lower rest).
  rewrite (lower_digits ds) by apply Hds.
  unfold track_number_patterns, first_track_number, Re.search.
  rewrite list_ascii_app.
  destruct (leading_number_match (list_ascii_of_string ds)
              (list_ascii_of_string (Py.lower rest)))
    as (m & -> & Hg).
  - by apply all_digits_list.
  - apply Hds.
  - by apply no_digit_ahead_lower.
  - unfold int_of_group1. rewrite Hg, string_of_list_ascii_of_string.
    by rewrite int_of_str_digits.
Qed.

Lemma digits_value_acc d : forall acc : positive,
  Py.digits_value (Z.pos acc) (list_ascii_of_string (NilEmpty.string_of_uint d))
  = Z.pos (Pos.of_uint_acc d acc).
Proof.
  induction d; intros acc; simpl; [done | ..];
    match goal with
    | |- Py.digits_value ?a _ = Z.pos (Pos.of_uint_acc _ ?b) =>
        replace a with (Z.pos b) by (vm_compute Py.code; lia); apply IHd
    end.
Qed.

Lemma digits_value_uint d :
  Py.digits_value 0 (list_ascii_of_string (NilEmpty.string_of_uint d))
  = Z.of_N (Pos.of_uint d).
Proof.
  induction d; simpl; [done | exact IHd | ..];
    match goal with
    | |- Py.digits_value ?a _ = _ =>
        let v := eval vm_compute in a in change a with v
    end; apply digits_value_acc.
Qed.

Lemma uint_digits d :
  Forall (fun c => Py.is_digit c = true)
    (list_ascii_of_string (NilEmpty.string_of_uint d)).
Proof. induction d; simpl; constructor; done. Qed.

Lemma to_uint_string p :
  NilZero.string_of_uint (Pos.to_uint p) = NilEmpty.string_of_uint (Pos.to_uint p).
Proof.
  pose proof (Unsigned.to_uint_nonnil p) as H.
  by destruct (Pos.to_uint p).
Qed.

(** [str(n)] of a natural number is a string of digits whose value is [n]. *)
Lemma str_of_int_digits n : 0 <= n ->
  all_digits (Py.str_of_int n)
  /\ Py.digits_value 0 (list_ascii_of_string (Py.str_of_int n)) = n.
Proof.
  intros Hn. unfold Py.str_of_int. destruct n as [|p|p]; [| | lia].
  - split; [split; [done | repeat constructor] | done].
  - simpl. rewrite to_uint_string. split; [split |].
    + pose proof (Unsigned.to_uint_nonnil p) as H.
      by destruct (Pos.to_uint p).
    + apply uint_digits.
    + by rewrite digits_value_uint, Unsigned.of_to.
Qed.

Lemma digits_value_zeros n l : 
  Py.digits_value 0 (repeat "0"%char n ++ l) = Py.digits_value 0 l.
Proof. induction n as [|n IH]; simpl; [done | exact IH]. Qed.

Lemma list_ascii_zeros n :
  list_ascii_of_string (string_of_list_ascii (repeat "0"%char n)) = repeat "0"%char n.
Proof. apply list_ascii_of_string_of_list_ascii. Qed.

(** Zero padding keeps a string of digits one, with the same value. *)
Lemma zfill_digits width s : all_digits s ->
  all_digits (Py.zfill width s)
  /\ Py.digits_value 0 (list_ascii_of_string (Py.zfill width s))
     = Py.digits_value 0 (list_ascii_of_string s).
Proof.
  intros [Hne Hs]. unfold Py.zfill.
  destruct (Nat.leb width (String.length s)); [done |].
  destruct s as [|c s]; [done |].
  inversion Hs as [|? ? Hc Hs']; subst.
  destruct (digit_facts c Hc) as (_ & _ & -> & ->). simpl orb. cbv iota.
  rewrite list_ascii_app, list_ascii_zeros. split; [split |].
  - intros E. apply (f_equal list_ascii_of_string) in E.
    rewrite list_ascii_app in E. simpl in E.
    apply app_eq_nil in E as [_ E]. discriminate.
  - rewrite list_ascii_app, list_ascii_zeros. apply Forall_app. split; [| done].
    apply Forall_forall. intros x Hx. apply list_elem_of_In, repeat_spec in Hx.
    by subst.
  - apply digits_value_zeros.
Qed.

(** [int(s) if s.isdigit() else None] undoes [str(n).zfill(w)]. *)
Lemma track_number_of_zfill width n : 0 <= n ->
  track_number_of (Py.zfill width (Py.str_of_int n)) = Some n.
Proof.
  intros Hn. destruct (str_of_int_digits n Hn) as [Hd Hv].
  destruct (zfill_digits width _ Hd) as [[Hne Hd'] Hv'].
  unfold track_number_of.
  replace (Py.truthy _) with true by (by destruct (Py.zfill _ _)).
  replace (forallb _ _) with true.
  2:{ symmetry. apply forallb_forall. intros x Hx.
      rewrite Forall_forall in Hd'. apply Hd'. by apply list_elem_of_In. }
  simpl. rewrite int_of_str_digits by done. by rewrite Hv', Hv.
Qed.

Section RunSound.
Context {R : Type}.
Variable ic : bool.
Variable good : ascii -> bool.
Implicit Types (k : Re.cursor -> Re.captures -> option R).
Implicit Types (p : Re.cursor) (cs : Re.captures) (r : Re.regex).

Lemma star_loop_sound r1 k
    (IH : forall p cs k res, captures_start_with good cs ->
            Re.run ic r1 p cs k = Some res -> run_post ic good r1 p k res) :
  forall fuel p cs res, captures_start_with good cs ->
    star_loop ic r1 k fuel p cs = Some res ->
    exists p' cs',
      k p' cs' = Some res /\ captures_start_with good cs'
      /\ (length (Re.rest p') <= length (Re.rest p))%nat.
Proof.
  induction fuel as [|fuel IHf]; intros p cs res Hcs H; simpl in H.
  - exists p, cs. eauto.
  - match type of H with match ?x with _ => _ end = _ => destruct x eqn:E end.
    + injection H as ->. apply IH in E as (p1 & cs1 & E & Hcs1 & Hlen & _); [| done].
      destruct (_ <? _)%nat.
      * apply IHf in E as (p' & cs' & E & ? & ?); [| done].
        exists p', cs'. split_and!; [done | done | lia].
      * exists p1, cs1. eauto.
    + exists p, cs. eauto.
Qed.

Lemma run_sound r : groups_start_with ic good r = true ->
  forall p cs k res, captures_start_with good cs ->
    Re.run ic r p cs k = Some res -> run_post ic good r p k res.
Proof.
  induction r as [| |c|neg f|r1 IH1 r2 IH2|r1 IH1 r2 IH2|r1 IH1|r1 IH1| | | |n r1 IH1];
    cbn [groups_start_with]; intros Hg p cs k res Hcs H.
  - exists p, cs. simpl in *. split_and!; auto. done.
  - done.
  - simpl in H. destruct p as [b [|x l]]; simpl in H; [done |].
    destruct (Re.chr_match ic c x) eqn:E; [| done].
    exists (Re.advance x l), cs. simpl. split_and!; auto.
    intros Hs. unfold reads_only in Hs.
    pose proof (forallb_all_ascii
                  (fun x => implb (Re.chr_match ic c x) (good x)) x Hs) as Hx.
    simpl in Hx. rewrite E in Hx. exists x, l. eauto.
  - simpl in H. destruct p as [b [|x l]]; simpl in H; [done |].
    destruct (Re.class_match ic neg f x) eqn:E; [| done].
    exists (Re.advance x l), cs. simpl. split_and!; auto.
    intros Hs. unfold reads_only in Hs.
    pose proof (forallb_all_ascii
                  (fun x => implb (Re.class_match ic neg f x) (good x)) x Hs) as Hx.
    simpl in Hx. rewrite E in Hx. exists x, l. eauto.
  - apply andb_prop in Hg as [Hg1 Hg2]. simpl in H.
    apply IH1 in H as (p1 & cs1 & H & Hcs1 & Hlen1 & Hs1); [| done | done].
    apply IH2 in H as (p' & cs' & H & Hcs' & Hlen' & _); [| done | done].
    exists p', cs'. split_and!; [done | done | lia |].
    simpl. intros Hs. destruct (Hs1 Hs) as (x & l & ? & ? & ?).
    exists x, l. split_and!; [done | done | lia].
  - apply andb_prop in Hg as [Hg1 Hg2]. simpl in H.
    destruct (Re.run ic r1 p cs k) eqn:E.
    + injection H as ->.
      apply IH1 in E as (p' & cs' & ? & ? & ? & _); [| done | done].
      exists p', cs'. split_and!; [done | done | lia | done].
    + apply IH2 in H as (p' & cs' & ? & ? & ? & _); [| done | done].
      exists p', cs'. split_and!; [done | done | lia | done].
  - rewrite run_star in H.
    apply star_loop_sound in H; [| by intros; eapply IH1; eauto | done].
    destruct H as (p' & cs' & ? & ? & ?).
    exists p', cs'. split_and!; [done | done | lia | done].
  - simpl in H. destruct (Re.run ic r1 p cs k) eqn:E.
    + injection H as ->.
      apply IH1 in E as (p' & cs' & ? & ? & ? & _); [| done | done].
      exists p', cs'. split_and!; [done | done | lia | done].
    + exists p, cs. split_and!; [done | done | lia | done].
  - simpl in H. destruct (Re.before p); [done |].
    exists p, cs. split_and!; [done | done | lia | done].
  - simpl in H. destruct (Re.at_end p); [| done].
    exists p, cs. split_and!; [done | done | lia | done].
  - simpl in H. destruct (xorb _ _); [| done].
    exists p, cs. split_and!; [done | done | lia | done].
  - apply andb_prop in Hg as [Hs Hg1]. simpl in H.
    apply IH1 in H as (p' & cs' & H & Hcs' & Hlen & Hx); [| done | done].
    destruct (Hx Hs) as (x & l & Hp & Hgood & Hlen').
    eexists p', _. split; [exact H |]. split_and!; [| lia |].
    + constructor; [| done]. simpl. rewrite Hp.
      replace (length (x :: l) - length (Re.rest p'))%nat
        with (S (length l - length (Re.rest p'))) by (simpl; lia).
      done.
    + intros _. exists x, l. eauto.
Qed.

End RunSound.

Lemma match_here_sound ic good r start p m :
  groups_start_with ic good r = true ->
  Re.match_here ic r start p = Some m ->
  captures_start_with good (Re.m_groups m).
Proof.
  intros Hg H. unfold Re.match_here in H.
  apply (run_sound ic good r Hg) in H as (p' & cs' & H & Hcs & _); [| constructor].
  by injection H as <-.
Qed.

Lemma search_from_sound ic good r : groups_start_with ic good r = true ->
  forall l start prev m,
    Re.search_from ic r start prev l = Some m ->
    captures_start_with good (Re.m_groups m).
Proof.
  intros Hg. induction l as [|x l IH]; intros start prev m H; simpl in H.
  - destruct (Re.match_here _ _ _ _) eqn:E; [| done].
    injection H as ->. by eapply match_here_sound.
  - destruct (Re.match_here _ _ _ _) eqn:E.
    + injection H as ->. by eapply match_here_sound.
    + by eapply IH.
Qed.

Lemma group_start good n m s :
  captures_start_with good (Re.m_groups m) ->
  Re.group n m = Some s ->
  exists x s', s = String x s' /\ good x = true.
Proof.
  unfold Re.group, captures_start_with. intros Hcs H.
  destruct (find _ _) as [[i t]|] eqn:E; [| done].
  injection H as <-. apply find_some in E as [Hin _].
  rewrite Forall_forall in Hcs. apply list_elem_of_In, Hcs in Hin. simpl in Hin.
  destruct t as [|x t]; [done |]. simpl. eauto.
Qed.

Lemma digits_value_nonneg l : forall acc, 0 <= acc -> 0 <= Py.digits_value acc l.
Proof.
  induction l as [|c l IH]; intros acc Hacc; simpl; [done |].
  apply IH. lia.
Qed.

Lemma lstrip_chars_last a x : Py.is_space x = false ->
  exists a', Py.lstrip_chars (a ++ [x]) = a' ++ [x].
Proof.
  intros Hx. induction a as [|c a IH]; simpl.
  - rewrite Hx. by exists [].
  - destruct (Py.is_space c); [done |]. by exists (c :: a).
Qed.

Lemma strip_chars_head x l : Py.is_space x = false ->
  exists l', Py.strip_chars (x :: l) = x :: l'.
Proof.
  intros Hx. unfold Py.strip_chars. simpl Py.lstrip_chars at 2. rewrite Hx.
  simpl rev at 2.
  destruct (lstrip_chars_last (rev l) x Hx) as [a' ->].
  rewrite rev_app_distr. simpl. eauto.
Qed.

(** [int] of a string that begins with a digit is not negative. *)
Lemma int_of_str_nonneg x s n :
  Py.is_digit x = true -> Py.int_of_str (String x s) = Some n -> 0 <= n.
Proof.
  intros Hx H. unfold Py.int_of_str in H.
  destruct (digit_facts x Hx) as (_ & Hsp & Hm & Hp).
  simpl list_ascii_of_string in H.
  destruct (strip_chars_head x (list_ascii_of_string s) Hsp) as [l' E].
  rewrite E, Hm, Hp in H.
  destruct (Py.int_body_ok _ _); [| done].
  injection H as <-. by apply digits_value_nonneg.
Qed.

Lemma track_number_patterns_groups :
  Forall (fun pattern =>
            groups_start_with false Py.is_digit (Re.compile pattern) = true)
    track_number_patterns.
Proof. repeat constructor. Qed.

Lemma first_track_number_nonneg patterns s n :
  Forall (fun pattern =>
            groups_start_with false Py.is_digit (Re.compile pattern) = true)
    patterns ->
  first_track_number patterns s = Some n -> 0 <= n.
Proof.
  induction 1 as [|pattern patterns Hp _ IH]; simpl; [done |].
  destruct (Re.search false pattern s) as [m|] eqn:E; [| done].
  unfold int_of_group1. destruct (Re.group 1 m) as [t|] eqn:Eg; [| done].
  destruct (Py.int_of_str t) as [v|] eqn:Ev; [| done].
  intros [= <-].
  apply (search_from_sound false Py.is_digit _ Hp) in E.
  destruct (group_start _ _ _ _ E Eg) as (x & t' & -> & Hx).
  by eapply int_of_str_nonneg.
Qed.

(** X3.  [_extract_track_number]: the track number read off a file name
    is never negative. *)
Theorem track_number_is_never_negative filename n :
  _extract_track_number filename = Some n -> 0 <= n.
Proof.
  apply first_track_number_nonneg, track_number_patterns_groups.
Qed.

(** ** Names without digits, and whitespace around a name *)

Lemma has_digit_clean s : has_digit s = false ->
  Forall (fun x => Py.is_digit x = false) (list_ascii_of_string s).
Proof.
  unfold has_digit. induction s as [|c s IH]; simpl; [constructor |].
  intros [Hc Hs]%orb_false_elim. constructor; auto.
Qed.

Lemma has_digit_lower s : has_digit (Py.lower s) = has_digit s.
Proof.
  unfold has_digit, Py.lower. induction s as [|c s IH]; simpl; [done |].
  by rewrite is_digit_lower_char, IH.
Qed.

Lemma first_track_number_none patterns s :
  Forall (fun pattern =>
            must_read false Py.is_digit (Re.compile pattern) = true) patterns ->
  has_digit s = false ->
  first_track_number patterns s = None.
Proof.
  intros Hp Hs. induction Hp as [|pattern patterns Hm _ IH]; simpl; [done |].
  unfold Re.search.
  rewrite (search_from_must_read false Py.is_digit _ Hm); [done |].
  by apply has_digit_clean.
Qed.

(** X2.  [_extract_track_number]: an ASCII name without a digit has no
    track number. *)
Theorem no_digit_no_track_number filename :
  is_ascii filename = true -> has_digit filename = false ->
  _extract_track_number filename = None.
Proof.
  intros _ H. unfold _extract_track_number.
  apply first_track_number_none; [| by rewrite has_digit_lower].
  repeat constructor.
Qed.

(** *** Whitespace around a name *)

Lemma lstrip_chars_split l :
  exists sp, l = sp ++ Py.lstrip_chars l
    /\ Forall (fun c => Py.is_space c = true) sp
    /\ match Py.lstrip_chars l with
       | c :: _ => Py.is_space c = false
       | [] => True
       end.
Proof.
  induction l as [|c l (sp & E & Hsp & Hh)]; simpl.
  - by exists [].
  - destruct (Py.is_space c) eqn:Hc.
    + exists (c :: sp). split_and!; [by rewrite E at 1 | by constructor | done].
    + exists []. done.
Qed.

Lemma strip_chars_idem l : Py.strip_chars (Py.strip_chars l) = Py.strip_chars l.
Proof.
  unfold Py.strip_chars.
  destruct (lstrip_chars_split l) as (sp1 & _ & _ & Hh1).
  set (A := Py.lstrip_chars l) in *.
  destruct (lstrip_chars_split (rev A)) as (sp2 & E2 & _ & Hh2).
  set (B := Py.lstrip_chars (rev A)) in *.
  destruct B as [|b B'] eqn:EB; [done |].
  assert (Py.lstrip_chars (rev (b :: B')) = rev (b :: B')) as ->.
  { apply lstrip_chars_head.
    apply (f_equal (@rev ascii)) in E2. rewrite rev_involutive, rev_app_distr in E2.
    destruct (rev (b :: B')) as [|x X] eqn:EX.
    - done.
    - rewrite E2 in Hh1. simpl in Hh1. exact Hh1. }
  rewrite rev_involutive. by rewrite (lstrip_chars_head (b :: B')).
Qed.

Lemma strip_idem s : Py.strip (Py.strip s) = Py.strip s.
Proof.
  unfold Py.strip. rewrite list_ascii_of_string_of_list_ascii.
  by rewrite strip_chars_idem.
Qed.

Lemma lstrip_chars_map l :
  Py.lstrip_chars (map Py.lower_char l) = map Py.lower_char (Py.lstrip_chars l).
Proof.
  induction l as [|c l IH]; simpl; [done |].
  rewrite is_space_lower_char. by destruct (Py.is_space c).
Qed.

Lemma string_of_list_map f l :
  string_of_list_ascii (map f l) = Py.map_string f (string_of_list_ascii l).
Proof. induction l as [|c l IH]; simpl; [done | by rewrite IH]. Qed.

Lemma strip_lower s : Py.strip (Py.lower s) = Py.lower (Py.strip s).
Proof.
  unfold Py.strip, Py.lower, Py.strip_chars.
  rewrite list_ascii_map_string, lstrip_chars_map, <- map_rev,
    lstrip_chars_map, <- map_rev.
  apply string_of_list_map.
Qed.

(** X5.  [_is_generic_filename]: whitespace around the name does not
    change the answer. *)
Theorem classifier_ignores_outer_whitespace name :
  _is_generic_filename (Py.strip name) = _is_generic_filename name.
Proof.
  unfold _is_generic_filename.
  by rewrite <- strip_lower, strip_idem.
Qed.

(** ** [_is_generic_filename] *)

Lemma matches_search_from pattern s :
  matches pattern s
  = present (Re.search_from false (Re.compile pattern) 0 None
               (list_ascii_of_string s)).
Proof. unfold matches, Re.search. by destruct (Re.search_from _ _ _ _ _). Qed.

(** *** Names made of digits *)

Lemma bare_number_shape :
  exists sep,
    Re.compile "^\d+[\s\-_\.]*$"
    = Re.Cat Re.Bol
        (Re.Cat (Re.plus (Re.Class false Py.is_digit))
           (Re.Cat (Re.Star (Re.Class false sep)) (Re.Cat Re.Eol Re.Eps))).
Proof. eexists. reflexivity. Qed.

Lemma bare_number_matches l :
  l <> [] -> Forall (fun c => Py.is_digit c = true) l ->
  exists m,
    Re.search_from false (Re.compile "^\d+[\s\-_\.]*$") 0 None l = Some m.
Proof.
  intros Hne Hl. destruct bare_number_shape as [sep ->].
  destruct l as [|d ds]; [done |].
  set (l := d :: ds).
  set (kfinal := fun (p' : Re.cursor) (cs : Re.captures) =>
    Some {| Re.m_start := 0;
            Re.m_end := (0 + (length l - length (Re.rest p')))%nat;
            Re.m_text := take (length l - length (Re.rest p')) l;
            Re.m_groups := cs |}).
  exists {| Re.m_start := 0; Re.m_end := (0 + (length l - 0))%nat;
            Re.m_text := take (length l - 0) l; Re.m_groups := [] |}.
  apply search_from_here. unfold Re.match_here.
  change (Re.run false (Re.plus (Re.Class false Py.is_digit))
            {| Re.before := None; Re.rest := l |} []
            (fun p' cs' =>
               Re.run false
                 (Re.Cat (Re.Star (Re.Class false sep)) (Re.Cat Re.Eol Re.Eps))
                 p' cs' kfinal) = Some (Re.MkMatch 0 (0 + (length l - 0)) (take (length l - 0) l) [])).
  rewrite <- (app_nil_r l) at 1.
  apply run_plus_class; [done | done |].
  unfold cursor_after.
  change (Re.run false (Re.Star (Re.Class false sep))
            {| Re.before := fold_left (fun _ x => Some x) l None;
               Re.rest := [] ++ [] |} []
            (fun p' cs' => Re.run false (Re.Cat Re.Eol Re.Eps) p' cs' kfinal)
          = Some (Re.MkMatch 0 (0 + (length l - 0)) (take (length l - 0) l) [])).
  apply run_star_class; [constructor | done |].
  reflexivity.
Qed.

(** X6.  [_is_generic_filename]: a name made of digits only is generic. *)
Theorem bare_number_is_generic name :
  isdigit name = true -> _is_generic_filename name = true.
Proof.
  intros [Hne HF]%isdigit_all_digits.
  unfold _is_generic_filename.
  rewrite lower_digits by done.
  unfold Py.strip. rewrite strip_chars_digits by done.
  rewrite string_of_list_ascii_of_string.
  apply existsb_exists. exists "^\d+[\s\-_\.]*$". split.
  - unfold generic_patterns. simpl. tauto.
  - rewrite matches_search_from.
    destruct (bare_number_matches (list_ascii_of_string name)) as [m ->]; try done.
    by destruct name.
Qed.

(** *** Names without digits *)

Lemma untitled_shape :
  exists tail,
    Re.compile "untitled[\s\-_]*\d*"
    = literal_then (list_ascii_of_string "untitled") tail
    /\ always_matches tail = true.
Proof. eexists. split; reflexivity. Qed.

Lemma prefix_cons c x (w s : string) :
  String.prefix (String c w) (String x s)
  = Ascii.eqb c x && String.prefix w s.
Proof.
  simpl. destruct (ascii_dec c x) as [->|Hne].
  - by rewrite Ascii.eqb_refl.
  - apply Ascii.eqb_neq in Hne. by rewrite Hne.
Qed.

Lemma prefix_nil s : String.prefix "" s = true.
Proof. by destruct s. Qed.

Lemma run_literal {R} tail (k : Re.cursor -> Re.captures -> option R) :
  always_matches tail = true ->
  (forall p cs, is_Some (k p cs)) ->
  forall (w s : string) prev cs,
    present (Re.run false (literal_then (list_ascii_of_string w) tail)
               {| Re.before := prev; Re.rest := list_ascii_of_string s |} cs k)
    = String.prefix w s.
Proof.
  intros Ha Hk. induction w as [|c w IH]; intros s prev cs.
  - rewrite prefix_nil. simpl literal_then.
    by destruct (run_always false tail Ha
                   {| Re.before := prev; Re.rest := list_ascii_of_string s |} cs k Hk)
      as [res ->].
  - destruct s as [|x s]; [done |].
    rewrite prefix_cons. simpl.
    destruct (Ascii.eqb c x); [| done].
    apply IH.
Qed.

Lemma search_literal tail : always_matches tail = true ->
  forall (w s : string) start prev,
    present (Re.search_from false (literal_then (list_ascii_of_string w) tail)
               start prev (list_ascii_of_string s))
    = Py.contains w s.
Proof.
  intros Ha w. induction s as [|x s IH]; intros start prev.
  - simpl Re.search_from. unfold Re.match_here.
    pose proof (run_literal tail
      (fun p' cs => Some {| Re.m_start := start;
                            Re.m_end := (start + (length (@nil ascii) - length (Re.rest p')))%nat;
                            Re.m_text := take (length (@nil ascii) - length (Re.rest p')) [];
                            Re.m_groups := cs |})
      Ha ltac:(by intros; eexists) w "" prev []) as H.
    simpl list_ascii_of_string in H.
    change (Py.contains w "") with (String.prefix w "" || false).
    rewrite orb_false_r, <- H.
    by destruct (Re.run _ _ _ _ _).
  - simpl Re.search_from. unfold Re.match_here. 
    pose proof (run_literal tail
      (fun p' cs => Some {| Re.m_start := start;
                            Re.m_end := (start + (length (x :: list_ascii_of_string s) - length (Re.rest p')))%nat;
                            Re.m_text := take (length (x :: list_ascii_of_string s) - length (Re.rest p')) (x :: list_ascii_of_string s);
                            Re.m_groups := cs |})
      Ha ltac:(by intros; eexists) w (String x s) prev []) as H.
    simpl list_ascii_of_string in H. 
    change (Py.contains w (String x s))
      with (String.prefix w (String x s) || Py.contains w s).
    rewrite <- H, <- (IH (S start) (Some x)).
    by destruct (Re.run _ _ _ _ _).
Qed.

Lemma untitled_matches s :
  matches "untitled[\s\-_]*\d*" s = Py.contains "untitled" s.
Proof.
  rewrite matches_search_from.
  destruct untitled_shape as (tail & -> & Ha).
  by apply search_literal.
Qed.

Lemma matches_must_read pattern s :
  must_read false Py.is_digit (Re.compile pattern) = true ->
  has_digit s = false -> matches pattern s = false.
Proof.
  intros Hm Hs. rewrite matches_search_from.
  rewrite (search_from_must_read false Py.is_digit _ Hm); [done |].
  by apply has_digit_clean.
Qed.

Lemma has_digit_strip_chars l :
  Forall (fun x => Py.is_digit x = false) l ->
  Forall (fun x => Py.is_digit x = false) (Py.strip_chars l).
Proof.
  intros H. unfold Py.strip_chars.
  assert (forall l, Forall (fun x => Py.is_digit x = false) l ->
            Forall (fun x => Py.is_digit x = false) (Py.lstrip_chars l)) as Hl.
  { clear. induction 1 as [|c l Hc Hl IH]; simpl; [done |].
    destruct (Py.is_space c); [done | by constructor]. }
  apply Forall_rev, Hl, Forall_rev, Hl, H.
Qed.

Lemma has_digit_false s :
  Forall (fun x => Py.is_digit x = false) (list_ascii_of_string s) ->
  has_digit s = false.
Proof.
  unfold has_digit. induction s as [|c s IH]; simpl; [done |].
  intros H. inversion H as [|? ? Hc Hs]; subst. by rewrite Hc, IH.
Qed.

Lemma has_digit_strip s : has_digit s = false -> has_digit (Py.strip s) = false.
Proof.
  intros H. apply has_digit_false. unfold Py.strip.
  rewrite list_ascii_of_string_of_list_ascii.
  by apply has_digit_strip_chars, has_digit_clean.
Qed.

(** X7.  [_is_generic_filename]: without a digit, only a name that
    contains [untitled] is generic. *)
Theorem without_digits_only_untitled_is_generic name :
  has_digit name = false ->
  _is_generic_filename name
  = Py.contains "untitled" (Py.strip (Py.lower name)).
Proof.
  intros H.
  assert (has_digit (Py.strip (Py.lower name)) = false) as Hs.
  { apply has_digit_strip. by rewrite has_digit_lower. }
  unfold _is_generic_filename, generic_patterns.
  set (s := Py.strip (Py.lower name)) in *.
  cbn [existsb].
  repeat match goal with
    | |- context [matches ?p s] =>
        rewrite (matches_must_read p s) by (reflexivity || exact Hs)
    end.
  rewrite untitled_matches. simpl. by rewrite orb_false_r.
Qed.

(** ** [parse_directory_structure] *)

Lemma parse_directory_structure_eq file_path source_path relative_path :
  Path.relative_to file_path source_path = Some relative_path ->
  exists md,
    parse_directory_structure file_path source_path = Some md
    /\ pm_track_number md
       = (if int_truthy (_extract_track_number (Path.stem relative_path))
          then Py.zfill 2 (Py.str_of_int
                 (default 0 (_extract_track_number (Path.stem relative_path))))
          else "")
    /\ pm_artist md
       = Py.strip
           match nth_last 1 (Path.parent_parts relative_path) with
           | Some artist_part =>
               if bool_decide (Py.lower artist_part ∈ various_aliases)
               then "Various Artists" else artist_part
           | None => ""
           end
    /\ pm_album md = Py.strip (snd (year_and_album (Path.parent_parts relative_path)))
    /\ pm_year md = Py.strip (fst (year_and_album (Path.parent_parts relative_path)))
    /\ Py.strip (pm_title md) = pm_title md.
Proof.
  intros Hrel. unfold parse_directory_structure. rewrite Hrel.
  fold (year_and_album (Path.parent_parts relative_path)).
  destruct (year_and_album _) as [year album].
  eexists. split; [reflexivity |].
  cbn [pm_track_number pm_artist pm_album pm_year pm_title].
  split_and!; try reflexivity.
  apply strip_idem.
Qed.

(** X4.  [parse_directory_structure] then [process_single_file]: the number
    read back from the field [track_number] is the one found in the
    stem, and none when that is zero or absent. *)
Theorem track_number_survives_the_text_field file_path source_path relative_path md :
  Path.relative_to file_path source_path = Some relative_path ->
  parse_directory_structure file_path source_path = Some md ->
  track_number_of (pm_track_number md)
  = (if int_truthy (_extract_track_number (Path.stem relative_path))
     then _extract_track_number (Path.stem relative_path)
     else None).
Proof.
  intros Hrel Hmd.
  destruct (parse_directory_structure_eq _ _ _ Hrel) as (md' & E & Ht & _).
  rewrite Hmd in E. injection E as <-. rewrite Ht.
  destruct (_extract_track_number (Path.stem relative_path)) as [n|] eqn:En;
    [| done].
  simpl. destruct (n =? 0) eqn:E0; [done |]. simpl.
  apply track_number_of_zfill.
  eapply first_track_number_nonneg; [apply track_number_patterns_groups |].
  exact En.
Qed.

Lemma parse_directory_structure_some file_path source_path md :
  parse_directory_structure file_path source_path = Some md ->
  exists relative_path, Path.relative_to file_path source_path = Some relative_path.
Proof.
  unfold parse_directory_structure.
  destruct (Path.relative_to file_path source_path); [eauto | done].
Qed.

(** X9.  [parse_directory_structure]: the four text fields come out
    stripped. *)
Theorem path_fields_are_stripped file_path source_path md :
  parse_directory_structure file_path source_path = Some md ->
  Py.strip (pm_title md) = pm_title md
  /\ Py.strip (pm_artist md) = pm_artist md
  /\ Py.strip (pm_album md) = pm_album md
  /\ Py.strip (pm_year md) = pm_year md.
Proof.
  intros Hmd.
  destruct (parse_directory_structure_some _ _ _ Hmd) as [rel Hrel].
  destruct (parse_directory_structure_eq _ _ _ Hrel)
    as (md' & E & _ & Ha & Hl & Hy & Ht).
  rewrite Hmd in E. injection E as <-.
  rewrite Ha, Hl, Hy. by rewrite !strip_idem.
Qed.

Lemma nth_last_short {A} (n : nat) (l : list A) :
  (length l <= n)%nat -> nth_error (rev l) n = None.
Proof. intros H. apply nth_error_None. by rewrite length_rev. Qed.

Lemma length_removelast {A} (l : list A) :
  length (removelast l) = (length l - 1)%nat.
Proof.
  induction l as [|x l IH]; [done |].
  destruct l as [|y l]; [done |]. cbn [removelast length] in *. lia.
Qed.

(** X8.  [parse_directory_structure]: a file at most one directory below
    the root has no artist; a file in the root has no album and no
    year either. *)
Theorem shallow_files_have_no_artist file_path source_path relative_path md :
  Path.relative_to file_path source_path = Some relative_path ->
  parse_directory_structure file_path source_path = Some md ->
  ((length relative_path <= 2)%nat -> pm_artist md = "")
  /\ ((length relative_path <= 1)%nat -> pm_album md = "" /\ pm_year md = "").
Proof.
  intros Hrel Hmd.
  destruct (parse_directory_structure_eq _ _ _ Hrel)
    as (md' & E & _ & Ha & Hl & Hy & _).
  rewrite Hmd in E. injection E as <-.
  rewrite Ha, Hl, Hy. unfold year_and_album, nth_last, Path.parent_parts.
  split.
  - intros Hlen. rewrite nth_last_short; [done |].
    rewrite length_removelast. lia.
  - intros Hlen. rewrite nth_last_short; [done |].
    rewrite length_removelast. lia.
Qed.

(** *** The year *)

Lemma standalone_year_shape :
  exists tail,
    Re.compile "\b(19|20)\d{2}\b"
    = Re.Cat Re.WordB
        (Re.Cat
           (Re.Group 1
              (Re.Alt (Re.Cat (Re.Chr "1") (Re.Cat (Re.Chr "9") Re.Eps))
                      (Re.Cat (Re.Chr "2") (Re.Cat (Re.Chr "0") Re.Eps))))
           tail)
    /\ group_free tail = true.
Proof. eexists. split; reflexivity. Qed.

Lemma standalone_year_here tail start p m :
  group_free tail = true ->
  Re.match_here false
    (Re.Cat Re.WordB
       (Re.Cat
          (Re.Group 1
             (Re.Alt (Re.Cat (Re.Chr "1") (Re.Cat (Re.Chr "9") Re.Eps))
                     (Re.Cat (Re.Chr "2") (Re.Cat (Re.Chr "0") Re.Eps))))
          tail)) start p = Some m ->
  exists y, Re.group 1 m = Some y /\ century y.
Proof.
  intros Hg H. unfold Re.match_here in H. cbn -[Ascii.eqb] in H.
  destruct (xorb _ _); [| done].
  destruct p as [b [|x [|y l]]]; cbn -[Ascii.eqb Nat.sub take] in H; try done.
  - by destruct (Ascii.eqb "1" x), (Ascii.eqb "2" x).
  - destruct (Ascii.eqb_spec "1" x) as [<-|].
    + destruct (Ascii.eqb_spec "9" y) as [<-|].
      * match type of H with
        | match ?r with _ => _ end = _ => destruct r eqn:E
        end.
        -- injection H as ->. apply run_group_free in E as [p' E]; [| done].
           injection E as <-. exists "19". split; [| by left].
           unfold Re.group. cbn [Re.m_groups find fst Nat.eqb snd].
           replace (S (S (length l)) - length l)%nat with 2%nat by lia. done.
        -- cbn -[Nat.sub take] in H. done.
      * cbn -[Nat.sub take] in H. done.
    + destruct (Ascii.eqb_spec "2" x) as [<-|]; [| done].
      destruct (Ascii.eqb_spec "0" y) as [<-|]; [| done].
      apply run_group_free in H as [p' E]; [| done].
      injection E as <-. exists "20". split; [| by right].
      unfold Re.group. cbn [Re.m_groups find fst Nat.eqb snd].
      replace (S (S (length l)) - length l)%nat with 2%nat by lia. done.
Qed.

Lemma standalone_year_search tail : group_free tail = true ->
  forall l start prev m,
    Re.search_from false
      (Re.Cat Re.WordB
         (Re.Cat
            (Re.Group 1
               (Re.Alt (Re.Cat (Re.Chr "1") (Re.Cat (Re.Chr "9") Re.Eps))
                       (Re.Cat (Re.Chr "2") (Re.Cat (Re.Chr "0") Re.Eps))))
            tail)) start prev l = Some m ->
    exists y, Re.group 1 m = Some y /\ century y.
Proof.
  intros Hg. induction l as [|x l IH]; intros start prev m H; simpl in H.
  - destruct (Re.match_here _ _ _ _) eqn:E; [| done].
    injection H as ->. by eapply standalone_year_here.
  - destruct (Re.match_here _ _ _ _) eqn:E.
    + injection H as ->. by eapply standalone_year_here.
    + by eapply IH.
Qed.

(** X10.  [parse_directory_structure]: a year standing alone in the album
    directory is recorded by its first two digits. *)
Theorem standalone_year_keeps_two_digits
    file_path source_path relative_path album_part md :
  Path.relative_to file_path source_path = Some relative_path ->
  nth_last 0 (Path.parent_parts relative_path) = Some album_part ->
  matches "\b(19|20)\d{2}\b" album_part = true ->
  parse_directory_structure file_path source_path = Some md ->
  pm_year md = "19" \/ pm_year md = "20".
Proof.
  intros Hrel Hpart Hm Hmd.
  destruct (parse_directory_structure_eq _ _ _ Hrel)
    as (md' & E & _ & _ & _ & Hy & _).
  rewrite Hmd in E. injection E as <-.
  rewrite Hy. unfold year_and_album. rewrite Hpart.
  unfold year_patterns, find_year.
  unfold matches in Hm.
  destruct (Re.search false "\b(19|20)\d{2}\b" album_part) as [m|] eqn:Es;
    [| done].
  unfold Re.search in Es.
  destruct standalone_year_shape as (tail & Hshape & Hg).
  rewrite Hshape in Es.
  apply (standalone_year_search tail Hg) in Es as (y & Hy1 & Hc).
  replace (Py.contains "(" "\b(19|20)\d{2}\b" || Py.contains "[" "\b(19|20)\d{2}\b")
    with true by reflexivity.
  unfold group_or_empty. rewrite Hy1. simpl fst.
  destruct Hc as [-> | ->]; [by left | by right].
Qed.

(** ** Which services [get_metadata] calls *)

Section Calls.
Context {W : Type}.
Variable oracle : forall A : Type, call A -> W -> (exn + A) * W.
Variable ratio : string -> string -> Q.
Variable str_of_float : Q -> string.
Implicit Types s : State W.

Lemma calls_only_refl allowed s : calls_only allowed s s.
Proof. exists []. by rewrite app_nil_r. Qed.

Lemma calls_only_trans allowed s0 s1 s2 :
  calls_only allowed s0 s1 -> calls_only allowed s1 s2 ->
  calls_only allowed s0 s2.
Proof.
  intros (e1 & E1 & H1) (e2 & E2 & H2). exists (e1 ++ e2).
  split; [by rewrite E2, E1, app_assoc | by apply Forall_app].
Qed.

Lemma calls_only_same allowed s0 s s' :
  trace s' = trace s -> calls_only allowed s0 s -> calls_only allowed s0 s'.
Proof. intros E (evs & ? & ?). exists evs. by rewrite E. Qed.

Lemma calls_only_mono (allowed allowed' : service -> bool) s0 s :
  (forall svc, allowed svc = true -> allowed' svc = true) ->
  calls_only allowed s0 s -> calls_only allowed' s0 s.
Proof.
  intros Hsub (evs & ? & H). exists evs. split; [done |].
  eapply Forall_impl; [exact H |]. simpl. auto.
Qed.

Lemma calls_only_frame allowed s0 s :
  frame allowed s0 s -> calls_only allowed s0 s.
Proof. intros H. apply (fr_trace _ _ _ H). Qed.

Lemma calls_only_call allowed s w A (c : call A) :
  allowed (service_of c) = true ->
  calls_only allowed s (record_call w (Ev c) s).
Proof. intros H. exists [Ev c]. split; [done |]. by constructor. Qed.

Lemma calls_only_enter allowed s c : calls_only allowed s (record_enter c s).
Proof. exists []. by rewrite app_nil_r. Qed.

Lemma album_outcome_calls artist album s r s' :
  album_outcome oracle artist album s r s' -> calls_only catalog_only s s'.
Proof.
  unfold album_outcome. intros H.
  destruct (Py.all_truthy [artist; album]).
  - destruct (album_cache s !! album_key artist album).
    + destruct H as [_ ->]. apply calls_only_enter.
    + destruct H as (s1 & Hf & -> & _).
      apply (calls_only_same _ _ s1); [done |].
      apply calls_only_frame in Hf. exact Hf.
  - destruct H as [_ ->]. apply calls_only_enter.
Qed.

Lemma track_outcome_calls artist album title s r s' :
  track_outcome oracle artist album title s r s' -> calls_only catalog_only s s'.
Proof.
  unfold track_outcome. intros H.
  destruct (Py.all_truthy [artist; title]).
  - destruct (cache s !! track_key artist album title).
    + destruct H as [_ ->]. apply calls_only_enter.
    + destruct H as (s1 & Hf & -> & _).
      apply (calls_only_same _ _ s1); [done |].
      apply calls_only_frame in Hf. exact Hf.
  - destruct H as [_ ->]. apply calls_only_enter.
Qed.

Lemma text_outcome_calls artist title album s r s' :
  text_outcome oracle artist title album s r s' -> calls_only text_only s s'.
Proof.
  unfold text_outcome. intros H.
  destruct (lastfm_enabled s && Py.all_truthy [artist; title]).
  - destruct (lastfm_cache s !! lastfm_key artist title album).
    + destruct H as [_ ->]. apply calls_only_enter.
    + destruct H as (s1 & Hf & -> & _).
      apply (calls_only_same _ _ s1); [done |].
      apply calls_only_frame in Hf. exact Hf.
  - destruct H as [_ ->]. apply calls_only_enter.
Qed.

Lemma fingerprint_outcome_calls path s r s' :
  fingerprint_outcome oracle path s r s' -> calls_only file_and_acoustic s s'.
Proof.
  unfold fingerprint_outcome. intros H.
  destruct (fingerprint_enabled s).
  - destruct H as (st_size & w & _ & H).
    set (s0 := record_enter FingerprintClient s) in *.
    set (s1 := record_call w (Ev (Stat path)) s0) in *.
    assert (calls_only file_and_acoustic s s1) as H1.
    { exists [Ev (Stat path)]. split; [done |]. by constructor. }
    destruct (fingerprint_cache s !! fingerprint_key path st_size).
    + by destruct H as [_ ->].
    + destruct H as (s2 & Hf & Hst & _).
      apply calls_only_frame in Hf.
      apply (calls_only_mono _ file_and_acoustic) in Hf.
      2:{ intros svc. unfold acoustic_only, file_and_acoustic.
          intros ->. apply orb_true_r. }
      apply (calls_only_same _ _ s2).
      * by destruct Hst as [-> | [_ ->]].
      * by eapply calls_only_trans.
  - destruct H as [_ ->]. apply calls_only_enter.
Qed.

Lemma fingerprint_raises_calls path s e s' :
  fingerprint_raises oracle path s e s' -> calls_only file_and_acoustic s s'.
Proof.
  intros (_ & w & _ & ->). exists [Ev (Stat path)]. split; [done |].
  by constructor.
Qed.

(** ** Files without an artist directory *)

(** With an empty artist [get_metadata] asks neither the catalog nor
    the text search: whatever it calls belongs to the fingerprint
    lookup. *)
Lemma get_metadata_without_artist {R} album title track_number is_generic
    file_path existing_metadata s0 :
  hoare (fun s => s = s0)
    (get_metadata (R:=R) oracle ratio str_of_float "" album title
       track_number is_generic file_path existing_metadata)
    (fun _ s => calls_only file_and_acoustic s0 s)
    (fun _ _ => False)
    (fun _ s => calls_only file_and_acoustic s0 s).
Proof.
  apply (hoare_conseq _ (calls_only file_and_acoustic s0) _
           _ (fun _ => calls_only file_and_acoustic s0)
           _ (fun _ _ => False)
           _ (fun _ => calls_only file_and_acoustic s0));
    [| by intros s ->; apply calls_only_refl | by auto | by auto | by auto].
  apply get_metadata_keeps.
  - intros s f H. by eapply calls_only_same.
  - intros path _.
    eapply hoare_use; [apply audio_fingerprint_lookup_hoare | |].
    + intros s r s' H Ho. eapply calls_only_trans; [exact H |].
      by eapply fingerprint_outcome_calls.
    + intros s e s' H Ho. eapply calls_only_trans; [exact H |].
      by eapply fingerprint_raises_calls.
  - intros _.
    eapply hoare_use; [apply search_track_by_position_hoare | | done].
    intros s r s' H (tracks & Ho & _).
    unfold album_outcome in Ho. simpl in Ho. destruct Ho as [_ ->].
    by eapply calls_only_same.
  - intros _.
    eapply hoare_use; [apply search_musicbrainz_individual_hoare | | done].
    intros s r s' H Ho.
    unfold track_outcome in Ho. simpl in Ho. destruct Ho as [_ ->].
    by eapply calls_only_same.
  - intros _.
    eapply hoare_use; [apply lastfm_search_hoare | | done].
    intros s r s' H Ho.
    unfold text_outcome in Ho. simpl in Ho. rewrite andb_false_r in Ho.
    destruct Ho as [_ ->].
    by eapply calls_only_same.
Qed.

(** X11.  [process_single_file] with [get_metadata]: a file at most one
    directory below the root is looked up by its fingerprint only. *)
Theorem shallow_files_are_never_searched_by_name {R}
    audio_file source_path relative_path existing_metadata s :
  Path.relative_to audio_file source_path = Some relative_path ->
  (length relative_path <= 2)%nat ->
  calls_only file_and_acoustic s
    (snd (lookup_for_file (R:=R) oracle ratio str_of_float
            audio_file source_path existing_metadata s)).
Proof.
  intros Hrel Hlen. unfold lookup_for_file.
  destruct (parse_directory_structure_eq _ _ _ Hrel)
    as (md & -> & _ & Ha & _).
  assert (pm_artist md = "") as ->.
  { rewrite Ha. unfold nth_last, Path.parent_parts.
    rewrite nth_last_short; [done |]. rewrite length_removelast. lia. }
  pose proof (hoare_run _ s _ _ _
    (get_metadata_without_artist (R:=R) (pm_album md) (pm_title md)
       (track_number_of (pm_track_number md)) (pm_is_generic md)
       (Some audio_file) existing_metadata s)) as H.
  destruct (get_metadata _ _ _ _ _ _ _ _ _ _ s) as [[r|r|e] s']; simpl; done.
Qed.

(** ** Fingerprinting switched off *)

Lemma off_inv_step (allowed : service -> bool) s0 s s' :
  (forall svc, allowed svc = true -> clock_catalog_text svc = true) ->
  fingerprint_enabled s' = fingerprint_enabled s ->
  calls_only allowed s s' ->
  off_inv s0 s -> off_inv s0 s'.
Proof.
  intros Hsub He Hc [Hoff H]. split; [congruence |].
  eapply calls_only_trans; [exact H |]. by eapply calls_only_mono.
Qed.

Lemma catalog_sub svc : catalog_only svc = true -> clock_catalog_text svc = true.
Proof.
  unfold catalog_only, clock_catalog_text. intros H. by rewrite H.
Qed.

Lemma text_sub svc : text_only svc = true -> clock_catalog_text svc = true.
Proof.
  unfold text_only, clock_catalog_text.
  intros [H|H]%orb_prop; rewrite H; [done | apply orb_true_r].
Qed.

Lemma album_outcome_enabled artist album s r s' :
  album_outcome oracle artist album s r s' ->
  fingerprint_enabled s' = fingerprint_enabled s.
Proof.
  unfold album_outcome. intros H.
  destruct (Py.all_truthy [artist; album]).
  - destruct (album_cache s !! album_key artist album).
    + by destruct H as [_ ->].
    + destruct H as (s1 & Hf & -> & _). simpl.
      by rewrite (fr_fingerprint_enabled _ _ _ Hf).
  - by destruct H as [_ ->].
Qed.

Lemma track_outcome_enabled artist album title s r s' :
  track_outcome oracle artist album title s r s' ->
  fingerprint_enabled s' = fingerprint_enabled s.
Proof.
  unfold track_outcome. intros H.
  destruct (Py.all_truthy [artist; title]).
  - destruct (cache s !! track_key artist album title).
    + by destruct H as [_ ->].
    + destruct H as (s1 & Hf & -> & _). simpl.
      by rewrite (fr_fingerprint_enabled _ _ _ Hf).
  - by destruct H as [_ ->].
Qed.

Lemma text_outcome_enabled artist title album s r s' :
  text_outcome oracle artist title album s r s' ->
  fingerprint_enabled s' = fingerprint_enabled s.
Proof.
  unfold text_outcome. intros H.
  destruct (lastfm_enabled s && Py.all_truthy [artist; title]).
  - destruct (lastfm_cache s !! lastfm_key artist title album).
    + by destruct H as [_ ->].
    + destruct H as (s1 & Hf & -> & _). simpl.
      by rewrite (fr_fingerprint_enabled _ _ _ Hf).
  - by destruct H as [_ ->].
Qed.

(** X12.  [get_metadata]: with fingerprinting off, it stays off and neither
    the file system nor the fingerprint services are called. *)
Theorem fingerprinting_off_stays_off {R} artist album title track_number
    is_generic file_path existing_metadata s :
  fingerprint_enabled s = false ->
  let s' := snd (get_metadata (R:=R) oracle ratio str_of_float artist album
                   title track_number is_generic file_path
                   existing_metadata s) in
  fingerprint_enabled s' = false /\ calls_only clock_catalog_text s s'.
Proof.
  intros Hoff.
  assert (hoare (off_inv s)
            (get_metadata (R:=R) oracle ratio str_of_float artist album title
               track_number is_generic file_path existing_metadata)
            (fun _ => off_inv s) (fun _ _ => False) (fun _ => off_inv s)) as H.
  { apply get_metadata_keeps.
    - intros s1 f [? ?]. split; [done |]. by eapply calls_only_same.
    - intros path _.
      eapply hoare_use; [apply audio_fingerprint_lookup_hoare | |].
      + intros s1 r s2 [Ho Hc] H. unfold fingerprint_outcome in H.
        rewrite Ho in H. destruct H as [_ ->]. split; [done |].
        by eapply calls_only_same.
      + intros s1 e s2 [Ho _] [H _]. congruence.
    - intros _.
      eapply hoare_use; [apply search_track_by_position_hoare | | done].
      intros s1 r s2 Hi (tracks & Ho & _).
      eapply (off_inv_step catalog_only); [apply catalog_sub | | | exact Hi].
      + by eapply album_outcome_enabled.
      + by eapply album_outcome_calls.
    - intros _.
      eapply hoare_use; [apply search_musicbrainz_individual_hoare | | done].
      intros s1 r s2 Hi Ho.
      eapply (off_inv_step catalog_only); [apply catalog_sub | | | exact Hi].
      + by eapply track_outcome_enabled.
      + by eapply track_outcome_calls.
    - intros _.
      eapply hoare_use; [apply lastfm_search_hoare | | done].
      intros s1 r s2 Hi Ho.
      eapply (off_inv_step text_only); [apply text_sub | | | exact Hi].
      + by eapply text_outcome_enabled.
      + by eapply text_outcome_calls. }
  specialize (H s (conj Hoff (calls_only_refl _ s))).
  destruct (get_metadata _ _ _ _ _ _ _ _ _ _ s) as [[r|r|e] s']; simpl; done.
Qed.

End Calls.

(** ** [_rate_limit] *)

Lemma Qlt_bool_true a b : Qlt_bool a b = true -> (a < b)%Q.
Proof.
  unfold Qlt_bool. intros H%negb_true_iff.
  apply Qnot_le_lt. intros Hle. apply Qle_bool_iff in Hle. congruence.
Qed.

Lemma Qlt_bool_false a b : Qlt_bool a b = false -> (b <= a)%Q.
Proof.
  unfold Qlt_bool. intros H%negb_false_iff. by apply Qle_bool_iff.
Qed.

(** X13.  [_rate_limit]: two requests are at least [rate_limit_delay]
    apart, given a clock that does not run backwards and a sleep that
    lasts as long as asked. *)
Theorem rate_limit_spaces_requests {W R}
    (oracle : forall A : Type, call A -> W -> (exn + A) * W) (now : W -> Q)
    (s : State W) :
  clock_laws oracle now ->
  exists s',
    _rate_limit (R:=R) oracle s = (Normal tt, s')
    /\ (last_request_time s + rate_limit_delay <= last_request_time s')%Q
    /\ (now (world s) <= last_request_time s')%Q
    /\ calls_only (fun svc => bool_decide (svc = Clock)) s s'.
Proof.
  intros [Ht Hs]. unfold _rate_limit, bind, call_ext, get_state, when, modify.
  destruct (Ht (world s)) as (w1 & E1 & H1). rewrite E1.
  cbn [world record_call last_request_time].
  set (tsl := (now (world s) - last_request_time s)%Q).
  destruct (Qlt_bool tsl rate_limit_delay) eqn:Hlt;
    cbv beta; cbn [world record_call ret].
  - destruct (Hs (rate_limit_delay - tsl)%Q w1) as (w2 & E2 & H2).
    rewrite E2. cbn [world record_call].
    destruct (Ht w2) as (w3 & E3 & H3). rewrite E3.
    eexists. split; [reflexivity |]. cbn. split_and!.
    + unfold tsl in H2.
      apply Qle_trans with (now w1 + (rate_limit_delay - (now (world s) - last_request_time s)))%Q;
        [| done].
      apply Qle_trans with (now (world s) + (rate_limit_delay - (now (world s) - last_request_time s)))%Q.
      * apply Qle_lteq. right. ring.
      * by apply Qplus_le_l.
    + apply Qlt_bool_true in Hlt.
      apply Qle_trans with (now w1); [done |].
      apply Qle_trans with (now w1 + (rate_limit_delay - tsl))%Q; [| done].
      rewrite <- (Qplus_0_r (now w1)) at 1. apply Qplus_le_r.
      apply Qlt_le_weak. unfold Qminus. by rewrite <- Qlt_minus_iff.
    + eexists [_; _; _]. split; [cbn; by rewrite <- !app_assoc |].
      by repeat constructor.
  - simpl.
    destruct (Ht w1) as (w3 & E3 & H3). rewrite E3.
    eexists. split; [reflexivity |]. cbn. split_and!.
    + apply Qlt_bool_false in Hlt. unfold tsl in Hlt.
      apply Qle_trans with (now (world s)).
      * apply Qle_trans with (last_request_time s + (now (world s) - last_request_time s))%Q.
        -- by apply Qplus_le_r.
        -- apply Qle_lteq. right. ring.
      * exact H1.
    + exact H1.
    + eexists [_; _]. split; [cbn; by rewrite <- !app_assoc |].
      by repeat constructor.
Qed.

Lemma ticking_clock : clock_laws ticking (fun w => w).
Proof.
  split.
  - intros w. exists w. split; [done | apply Qle_refl].
  - intros secs w. exists (w + secs)%Q. split; [done | apply Qle_refl].
Qed.

(** ** [search_track_by_position] *)

Section Position.
Context {W : Type}.
Variable oracle : forall A : Type, call A -> W -> (exn + A) * W.
Variable ratio : string -> string -> Q.
Implicit Types s : State W.

Lemma search_track_by_position_answer {R} artist album track_number s :
  hoare (fun s' => s' = s)
    (search_track_by_position (R:=R) oracle ratio artist album track_number)
    (fun r s' => exists tracks,
       album_outcome oracle artist album s tracks s'
       /\ position_answer tracks track_number r)
    (fun _ _ => False) (fun _ _ => False).
Proof.
  unfold search_track_by_position. apply hoare_fn.
  apply (hoare_bind _ _ _
           (fun tracks s' => album_outcome oracle artist album s tracks s')).
  { apply hoare_plain, search_album_tracks_hoare. }
  intros tracks.
  set (Q := fun (r : option loc) (s' : State W) =>
              album_outcome oracle artist album s tracks s'
              /\ position_answer tracks track_number r).
  apply (hoare_conseq _ (album_outcome oracle artist album s tracks) _
           _ (fun _ _ => False) _ Q _ (fun _ _ => False));
    [ | by auto | by auto | | by auto ].
  2:{ intros r s' [? ?]. exists tracks. done. }
  destruct tracks as [[|track tracks]|].
  - apply hoare_return. intros s' Hs'. split; [done |]. split_and!.
    + discriminate.
    + intros tl [= <-]. simpl. lia.
    + done.
  - set (tl := track :: tracks).
    set (I := album_outcome oracle artist album s (Some tl)).
    apply (hoare_bind _ _ _ (fun _ => I)).
    { apply hoare_for_each. intros x Hx.
      apply (hoare_bind _ _ _ (fun _ => I)).
      - intros s' Hs'. simpl. done.
      - intros d. apply hoare_when; [| auto].
        intros _. apply hoare_return. intros s' Hs'. split; [done |].
        split_and!.
        + intros l [= <-]. exists tl. split; [done |]. by apply list_elem_of_In.
        + by eexists.
        + intros [? | ?]; discriminate. }
    intros _.
    set (guard := (0 <=? track_number - 1)
                  && (track_number - 1 <? Z.of_nat (length tl))).
    apply (hoare_bind _ _ _ (fun _ s' => I s' /\ guard = false)).
    { apply hoare_when; [| auto]. intros Hg.
      apply andb_prop in Hg as [H0%Z.leb_le H1%Z.ltb_lt].
      destruct (tl !! Z.to_nat (track_number - 1)) as [x|] eqn:E.
      - apply hoare_return. intros s' Hs'. split; [done |]. split_and!.
        + intros l [= <-]. exists tl. split; [done |].
          by eapply list_elem_of_lookup_2.
        + by eexists.
        + intros [? | ?]; discriminate.
      - apply lookup_ge_None in E. lia. }
    intros _. apply hoare_return. intros s' [Hs' Hg]. split; [done |].
    split_and!.
    + discriminate.
    + intros tl' [= <-] Hr. unfold guard in Hg. unfold tl in *.
      apply andb_false_iff in Hg as [H%Z.leb_gt | H%Z.ltb_ge]; lia.
    + intros [? | ?]; discriminate.
  - apply hoare_return. intros s' Hs'. split; [done |]. split_and!.
    + discriminate.
    + discriminate.
    + done.
Qed.

(** X17.  [search_track_by_position]: the answer is a track of the album
    search; a number within the list always has an answer. *)
Theorem track_by_position_answers_from_the_album {R}
    artist album track_number s :
  exists r s' tracks,
    search_track_by_position (R:=R) oracle ratio artist album track_number s
    = (Normal r, s')
    /\ album_outcome oracle artist album s tracks s'
    /\ (forall l, r = Some l -> exists tl, tracks = Some tl /\ l ∈ tl)
    /\ (forall tl, tracks = Some tl ->
          1 <= track_number <= Z.of_nat (length tl) -> is_Some r)
    /\ (tracks = None \/ tracks = Some [] -> r = None).
Proof.
  pose proof (hoare_run _ s _ _ _
    (search_track_by_position_answer (R:=R) artist album track_number s)) as H.
  destruct (search_track_by_position _ _ _ _ _ s) as [[r|r|e] s']; try done.
  destruct H as (tracks & Ho & Ha). exists r, s', tracks.
  split; [done |]. split; [done |]. exact Ha.
Qed.

End Position.

(** ** The best match of a search *)

Section Scores.
Variable ratio : string -> string -> Q.

Lemma best_release_loop_max artist album releases :
  forall b0 s0 best score,
    best_release_loop ratio artist album releases b0 s0 = inr (best, score) ->
    (s0 <= score)%Q
    /\ (forall r, r ∈ releases ->
          exists t, release_total ratio artist album r = inr t /\ (t <= score)%Q)
    /\ ((best = b0 /\ score = s0)
        \/ (exists b, best = Some b /\ b ∈ releases
              /\ release_total ratio artist album b = inr score /\ (s0 < score)%Q)).
Proof.
  induction releases as [|r releases IH]; intros b0 s0 best score H; simpl in H.
  - injection H as <- <-. split_and!; [apply Qle_refl | | by left].
    intros r Hr. by apply elem_of_nil in Hr.
  - unfold release_total.
    destruct (credit_score ratio artist (rel_artist_credit r)) as [e|a] eqn:Ec;
      [done |].
    set (t := ((ratio (Py.lower album) (Py.lower (default "" (rel_title r))) + a) / 2)%Q) in *.
    destruct (Qlt_bool s0 t) eqn:Hlt.
    + apply IH in H as (Hle & Hall & Hbest).
      apply Qlt_bool_true in Hlt.
      split_and!.
      * apply Qlt_le_weak. by eapply Qlt_le_trans.
      * intros r' [-> | Hr']%elem_of_cons; [| by apply Hall].
        rewrite Ec. by exists t.
      * right. destruct Hbest as [[-> ->] | (b & -> & Hb & Hs & Hlt')].
        -- exists r. split_and!; [done | by left | by rewrite Ec | done].
        -- exists b. split_and!; [done | by right | done |].
           by eapply Qlt_trans.
    + apply IH in H as (Hle & Hall & Hbest).
      apply Qlt_bool_false in Hlt.
      split_and!.
      * done.
      * intros r' [-> | Hr']%elem_of_cons; [| by apply Hall].
        rewrite Ec. exists t. split; [done |]. by eapply Qle_trans.
      * destruct Hbest as [[-> ->] | (b & -> & Hb & Hs & Hlt')]; [by left |].
        right. exists b. split_and!; [done | by right | done | done].
Qed.

(** X16.  [search_album_tracks]: the release the loop keeps is one of the
    list, and none of the list scores higher. *)
Theorem best_release_scores_highest artist album releases best score :
  best_release_loop ratio artist album releases None 0%Q = inr (best, score) ->
  (forall r, r ∈ releases ->
     exists t, release_total ratio artist album r = inr t /\ (t <= score)%Q)
  /\ match best with
     | Some b =>
         b ∈ releases /\ release_total ratio artist album b = inr score
         /\ (0 < score)%Q
     | None => score = 0%Q
     end.
Proof.
  intros H. apply best_release_loop_max in H as (_ & Hall & Hbest).
  split; [done |].
  destruct Hbest as [[-> ->] | (b & -> & ? & ? & ?)]; done.
Qed.

Lemma best_recording_loop_max artist album title recordings :
  forall b0 s0 best score,
    best_recording_loop ratio artist album title recordings b0 s0
    = inr (best, score) ->
    (s0 <= score)%Q
    /\ (forall r, r ∈ recordings ->
          exists t, recording_total ratio artist album title r = inr t
            /\ (t <= score)%Q)
    /\ ((best = b0 /\ score = s0)
        \/ (exists b, best = Some b /\ b ∈ recordings
              /\ recording_total ratio artist album title b = inr score
              /\ (s0 < score)%Q)).
Proof.
  induction recordings as [|r recordings IH]; intros b0 s0 best score H;
    simpl in H.
  - injection H as <- <-. split_and!; [apply Qle_refl | | by left].
    intros r Hr. by apply elem_of_nil in Hr.
  - unfold recording_total.
    destruct (credit_score ratio artist (rec_artist_credit r)) as [e|a] eqn:Ec;
      [done |].
    cbv zeta.
    match type of H with
    | (if Qlt_bool s0 ?x then _ else _) = _ => set (t := x) in *
    end.
    destruct (Qlt_bool s0 t) eqn:Hlt.
    + apply IH in H as (Hle & Hall & Hbest).
      apply Qlt_bool_true in Hlt.
      split_and!.
      * apply Qlt_le_weak. by eapply Qlt_le_trans.
      * intros r' [-> | Hr']%elem_of_cons; [| by apply Hall].
        rewrite Ec. by exists t.
      * right. destruct Hbest as [[-> ->] | (b & -> & Hb & Hs & Hlt')].
        -- exists r. split_and!; [done | by left | by rewrite Ec | done].
        -- exists b. split_and!; [done | by right | done |].
           by eapply Qlt_trans.
    + apply IH in H as (Hle & Hall & Hbest).
      apply Qlt_bool_false in Hlt.
      split_and!.
      * done.
      * intros r' [-> | Hr']%elem_of_cons; [| by apply Hall].
        rewrite Ec. exists t. split; [done |]. by eapply Qle_trans.
      * destruct Hbest as [[-> ->] | (b & -> & Hb & Hs & Hlt')]; [by left |].
        right. exists b. split_and!; [done | by right | done | done].
Qed.

(** X19.  [search_musicbrainz_individual]: the recording the loop keeps is
    one of the list, and none of the list scores higher. *)
Theorem best_recording_scores_highest artist album title recordings best score :
  best_recording_loop ratio artist album title recordings None 0%Q
  = inr (best, score) ->
  (forall r, r ∈ recordings ->
     exists t, recording_total ratio artist album title r = inr t /\ (t <= score)%Q)
  /\ match best with
     | Some b =>
         b ∈ recordings /\ recording_total ratio artist album title b = inr score
         /\ (0 < score)%Q
     | None => score = 0%Q
     end.
Proof.
  intros H. apply best_recording_loop_max in H as (_ & Hall & Hbest).
  split; [done |].
  destruct Hbest as [[-> ->] | (b & -> & ? & ? & ?)]; done.
Qed.

End Scores.

(** ** [_extract_recording_metadata] *)

(** X20.  [_extract_recording_metadata]: it raises exactly on an empty
    credit or release list, and otherwise fills the four basic
    fields, from the fallbacks where the recording says nothing. *)
Theorem recording_metadata_fields recording fallback_artist fallback_album
    fallback_title :
  match _extract_recording_metadata recording fallback_artist fallback_album
          fallback_title with
  | inl e =>
      exn_cls e = IndexError
      /\ (rec_artist_credit recording = Some []
          \/ rec_release_list recording = Some [])
  | inr metadata =>
      rec_artist_credit recording <> Some []
      /\ rec_release_list recording <> Some []
      /\ metadata !! "musicbrainz_recordingid"
         = Some (default "" (rec_id recording))
      /\ metadata !! "title"
         = Some (default fallback_title (rec_title recording))
      /\ is_Some (metadata !! "artist")
      /\ is_Some (metadata !! "album")
      /\ (rec_artist_credit recording = None ->
          metadata !! "artist" = Some fallback_artist)
      /\ (rec_release_list recording = None ->
          metadata !! "album" = Some fallback_album
          /\ metadata !! "date" = None)
  end.
Proof.
  unfold _extract_recording_metadata.
  destruct recording as [extra id title credit releases]. simpl.
  destruct credit as [[|c credits]|], releases as [[|r releases]|]; simpl;
    try (split; [done | by auto]);
    try destruct (ac_artist c) as [a|]; simpl;
    try (split; [done | by auto]);
    split_and!; try done; try (intros; split); by simplify_map_eq.
Qed.

(** ** A missing [fpcalc] tool *)

Section Switch.
Context {W : Type}.
Variable oracle : forall A : Type, call A -> W -> (exn + A) * W.
Variable str_of_float : Q -> string.

(** X14.  [audio_fingerprint_lookup]: when both probes for [fpcalc] fail,
    the lookup answers [None], switches fingerprinting off and caches
    the miss; no fingerprint is computed. *)
Theorem missing_fpcalc_switches_fingerprinting_off {R} path (s : State W)
    st_size w1 e1 w2 answer w3 :
  fingerprint_enabled s = true ->
  oracle Z (Stat path) (world s) = (inr st_size, w1) ->
  fingerprint_cache s !! fingerprint_key path st_size = None ->
  oracle unit RunFpcalcVersion w1 = (inl e1, w2) ->
  existsb (fun c => bool_decide (c = exn_cls e1))
    [TimeoutExpired; FileNotFoundError; CalledProcessError] = true ->
  oracle string RunFpcalc w2 = (answer, w3) ->
  probe_fails answer = true ->
  exists s',
    audio_fingerprint_lookup (R:=R) oracle str_of_float path s = (Normal None, s')
    /\ fingerprint_enabled s' = false
    /\ fingerprint_cache s' !! fingerprint_key path st_size = Some None
    /\ trace s' = trace s ++ [Ev (Stat path); Ev RunFpcalcVersion; Ev RunFpcalc].
Proof.
  intros Hon Hstat Hmiss Hv Hcls Hp Hfail.
  unfold audio_fingerprint_lookup, enter, fn, bind, modify, get_state, when,
    call_ext, try_except, try_except_in, return_, ret.
  cbn -[Py.str_of_int Path.name Py.contains append existsb].
  rewrite Hon. cbn -[Py.str_of_int Path.name Py.contains append existsb].
  rewrite Hstat. cbn -[Py.str_of_int Path.name Py.contains append existsb].
  fold (fingerprint_key path st_size). rewrite Hmiss.
  unfold try_except.
  cbn -[Py.str_of_int Path.name Py.contains append existsb fingerprint_key].
  rewrite Hv. rewrite Hcls.
  cbn -[Py.str_of_int Path.name Py.contains append existsb fingerprint_key].
  rewrite Hp. destruct answer as [e2|stderr]; simpl in Hfail.
  - eexists. split; [reflexivity |]. cbn.
    split_and!; [done | by simplify_map_eq | by rewrite <- !app_assoc].
  - rewrite Hfail.
    eexists. split; [reflexivity |]. cbn.
    split_and!; [done | by simplify_map_eq | by rewrite <- !app_assoc].
Qed.

End Switch.

(** ** Thresholds of the catalogue searches *)

Section Threshold.
Context {W : Type}.
Variable oracle : forall A : Type, call A -> W -> (exn + A) * W.
Variable ratio : string -> string -> Q.
Implicit Types s : State W.

Lemma hoare_fact {R A} (phi : Prop) (m : M W R A) Qn Qr Qe :
  (phi -> hoare (fun _ => True) m Qn Qr Qe) ->
  hoare (fun _ => phi) m Qn Qr Qe.
Proof. intros H s Hphi. by apply H. Qed.

Lemma hoare_call_answered {R A} (c : call A) (P : State W -> Prop)
    (Qn : A -> State W -> Prop) (Qr : R -> State W -> Prop) :
  (forall a s, answered oracle c a -> Qn a s) ->
  hoare P (call_ext oracle c) Qn Qr (fun _ _ => True).
Proof.
  intros H. apply hoare_call; [| done].
  intros s w a _ E. apply H. exists (world s). by rewrite E.
Qed.

Lemma rate_limit_any {R} (P : State W -> Prop) (Qr : R -> State W -> Prop) :
  hoare P (_rate_limit oracle) (fun _ _ => True) Qr (fun _ _ => True).
Proof.
  unfold _rate_limit.
  apply (hoare_bind _ _ _ (fun _ _ => True)); [by apply hoare_call |].
  intros t.
  apply (hoare_bind _ _ _ (fun _ _ => True)); [by apply hoare_get_state |].
  intros s1. cbv zeta.
  apply (hoare_bind _ _ _ (fun _ _ => True)).
  { apply hoare_when; [| done]. intros _. by apply hoare_call. }
  intros _.
  apply (hoare_bind _ _ _ (fun _ _ => True)); [by apply hoare_call |].
  intros now. by apply hoare_modify.
Qed.

(** Allocating one dictionary per item gives, in order, the places of
    the new dictionaries. *)
Lemma map_m_alloc {R A} (f : A -> Dict) (l : list A) : forall s,
  exists locs s',
    map_m (R:=R) (fun x => alloc (f x)) l s = (Normal locs, s')
    /\ (exists h, heap s' = heap s ++ h)
    /\ Forall2 (fun p x => heap s' !! p = Some (f x)) locs l.
Proof.
  induction l as [|x l IH]; intros s.
  - exists [], s. split; [done |]. split; [| constructor].
    exists []. by rewrite app_nil_r.
  - destruct (IH (set_heap (fun h => h ++ [f x]) s))
      as (locs & s' & E & [h Hh] & HF).
    exists (length (heap s) :: locs), s'.
    cbn [map_m]. unfold bind at 1. cbn [alloc].
    unfold bind at 1. rewrite E. split; [done |].
    simpl in Hh. split.
    + exists ([f x] ++ h). by rewrite Hh, <- app_assoc.
    + constructor; [| done].
      rewrite Hh, <- app_assoc. by apply list_lookup_middle.
Qed.

(** X15.  [search_album_tracks]: tracks are returned only for a best
    release that scores above 0.7, and they are the tracks of that
    release, in order. *)
Theorem album_tracks_need_a_good_release {R} artist album s :
  album_cache s !! album_key artist album = None ->
  match search_album_tracks (R:=R) oracle ratio artist album s with
  | (Normal (Some tracks), s') =>
      exists query result best score release_id detailed rel,
        answered oracle (SearchReleases query) result
        /\ best_release_loop ratio artist album result None 0
           = inr (Some best, score)
        /\ Qlt_bool 0.7 score = true
        /\ rel_id best = Some release_id
        /\ answered oracle (GetReleaseById release_id) detailed
        /\ rd_release detailed = Some rel
        /\ Forall2
             (fun p track =>
                heap s' !! p
                = Some (track_info artist album release_id best track))
             tracks (all_tracks rel)
  | _ => True
  end.
Proof.
  intros Hc.
  set (Q := fun (r : option (list loc)) (s' : State W) =>
    match r with
    | Some tracks =>
        exists query result best score release_id detailed rel,
          answered oracle (SearchReleases query) result
          /\ best_release_loop ratio artist album result None 0
             = inr (Some best, score)
          /\ Qlt_bool 0.7 score = true
          /\ rel_id best = Some release_id
          /\ answered oracle (GetReleaseById release_id) detailed
          /\ rd_release detailed = Some rel
          /\ Forall2
               (fun p track =>
                  heap s' !! p
                  = Some (track_info artist album release_id best track))
               tracks (all_tracks rel)
    | None => True
    end).
  assert (hoare (fun s' => s' = s)
            (search_album_tracks (R:=R) oracle ratio artist album)
            Q (fun _ _ => True) (fun _ _ => True)) as H.
  { unfold search_album_tracks, enter. fold (album_key artist album).
    apply (hoare_bind _ _ _
             (fun _ s' => album_cache s' !! album_key artist album = None)).
    { apply hoare_modify. by intros s' ->. }
    intros _. apply hoare_fn.
    apply (hoare_bind _ _ _
             (fun _ s' => album_cache s' !! album_key artist album = None)).
    { apply hoare_when; [| done]. intros _. apply hoare_return; intros; exact I. }
    intros _. cbv zeta.
    apply (hoare_bind _ _ _
             (fun s1 _ => album_cache s1 !! album_key artist album = None)).
    { by apply hoare_get_state. }
    intros s1. apply hoare_fact. intros ->.
    apply (hoare_bind _ _ _ (fun _ _ => True)); [by apply hoare_ret |].
    intros _.
    apply (hoare_try _ _ _ (fun _ _ => True));
      [| intros e; apply hoare_store_return; intros; exact I].
    apply (hoare_bind _ _ _ (fun _ _ => True)); [apply rate_limit_any |].
    intros _. cbv zeta.
    apply (hoare_bind _ _ _
             (fun result _ => exists query,
                answered oracle (SearchReleases query) result)).
    { apply hoare_call_answered. intros result s' Ha. by eexists. }
    intros result0. apply hoare_fact. intros Hres0.
    apply (hoare_bind _ _ _
             (fun result _ => exists query,
                answered oracle (SearchReleases query) result)).
    { destruct (nonempty result0); [by apply hoare_ret |].
      apply hoare_call_answered. intros result s' Ha. by eexists. }
    intros result. apply hoare_fact. intros [query Hres]. clear Hres0.
    apply (hoare_bind _ _ _ (fun _ _ => True));
      [| intros _; apply hoare_store_return; intros; exact I].
    apply hoare_when; [| done]. intros _.
    apply (hoare_bind _ _ _
             (fun x _ => best_release_loop ratio artist album result None 0
                         = inr x)).
    { apply hoare_lift. intros s' _. by destruct (best_release_loop _ _ _ _ _ _). }
    intros [best_release best_score]. apply hoare_fact. intros Hbest.
    destruct best_release as [best|]; [| by apply hoare_ret].
    apply hoare_when; [| done]. intros [_ Hscore]%andb_prop.
    apply (hoare_bind _ _ _ (fun i _ => rel_id best = Some i)).
    { apply hoare_lift. intros s' _. by destruct (rel_id best). }
    intros release_id. apply hoare_fact. intros Hid.
    apply (hoare_bind _ _ _ (fun _ _ => True)); [apply rate_limit_any |].
    intros _.
    apply (hoare_bind _ _ _
             (fun d _ => answered oracle (GetReleaseById release_id) d)).
    { by apply hoare_call_answered. }
    intros detailed. apply hoare_fact. intros Hdet.
    destruct (rd_release detailed) as [rel|] eqn:Hrel; [| by apply hoare_ret].
    apply (hoare_bind _ _ _
             (fun tracks s' =>
                Forall2
                  (fun p track =>
                     heap s' !! p
                     = Some (track_info artist album release_id best track))
                  tracks (all_tracks rel))).
    { intros s' _.
      destruct (map_m_alloc (R:=option (list loc))
                  (track_info artist album release_id best) (all_tracks rel) s')
        as (locs & s2 & -> & _ & HF). exact HF. }
    intros tracks. apply hoare_store_return. intros s' HF.
    exists query, result, best, best_score, release_id, detailed, rel.
    done. }
  specialize (H s eq_refl).
  by destruct (search_album_tracks _ _ _ _ s) as [[[tracks|]|r|e] s'].
Qed.

(** X18.  [search_musicbrainz_individual]: a record is returned only for
    a best recording that reaches the threshold of its query, 0.8
    for the first and 0.6 for the others. *)
Theorem track_match_reaches_the_threshold {R} artist album title s :
  cache s !! track_key artist album title = None ->
  match search_musicbrainz_individual (R:=R) oracle ratio artist album title s
  with
  | (Normal (Some p), s') =>
      exists i query result best score d,
        search_strategies artist album title !! i = Some query
        /\ answered oracle (SearchRecordings query) result
        /\ best_recording_loop ratio artist album title result None 0
           = inr (Some best, score)
        /\ Qle_bool (if Nat.eqb i 0 then 0.8 else 0.6) score = true
        /\ _extract_recording_metadata best artist album title = inr d
        /\ heap s' !! p = Some d
  | _ => True
  end.
Proof.
  intros Hc.
  set (Q := fun (r : option loc) (s' : State W) =>
    match r with
    | Some p =>
        exists i query result best score d,
          search_strategies artist album title !! i = Some query
          /\ answered oracle (SearchRecordings query) result
          /\ best_recording_loop ratio artist album title result None 0
             = inr (Some best, score)
          /\ Qle_bool (if Nat.eqb i 0 then 0.8 else 0.6) score = true
          /\ _extract_recording_metadata best artist album title = inr d
          /\ heap s' !! p = Some d
    | None => True
    end).
  assert (hoare (fun s' => s' = s)
            (search_musicbrainz_individual (R:=R) oracle ratio artist album title)
            Q (fun _ _ => True) (fun _ _ => True)) as H.
  { unfold search_musicbrainz_individual, enter.
    fold (track_key artist album title).
    apply (hoare_bind _ _ _
             (fun _ s' => cache s' !! track_key artist album title = None)).
    { apply hoare_modify. by intros s' ->. }
    intros _. apply hoare_fn.
    apply (hoare_bind _ _ _
             (fun _ s' => cache s' !! track_key artist album title = None)).
    { apply hoare_when; [| done]. intros _. apply hoare_return; intros; exact I. }
    intros _. cbv zeta.
    apply (hoare_bind _ _ _
             (fun s1 _ => cache s1 !! track_key artist album title = None)).
    { by apply hoare_get_state. }
    intros s1. apply hoare_fact. intros ->.
    apply (hoare_bind _ _ _ (fun _ _ => True)); [by apply hoare_ret |].
    intros _.
    apply (hoare_try _ _ _ (fun _ _ => True));
      [| intros e; apply hoare_store_return; intros; exact I].
    apply (hoare_bind _ _ _ (fun _ _ => True)); [apply rate_limit_any |].
    intros _.
    apply (hoare_bind _ _ _ (fun _ _ => True));
      [| intros _; apply hoare_store_return; intros; exact I].
    apply hoare_for_each. intros [i query] Hin.
    apply list_elem_of_In, elem_of_lookup_imap in Hin
      as (i' & query' & [= -> ->] & Hq).
    apply (hoare_try _ _ _ (fun _ _ => True));
      [| intros e; by apply hoare_ret].
    apply (hoare_bind _ _ _
             (fun result _ => answered oracle (SearchRecordings query') result)).
    { by apply hoare_call_answered. }
    intros result. apply hoare_fact. intros Hres.
    apply (hoare_bind _ _ _ (fun _ _ => True)).
    2:{ intros _. apply hoare_when; [| done]. intros _. apply rate_limit_any. }
    apply hoare_when; [| done]. intros _.
    apply (hoare_bind _ _ _
             (fun x _ => best_recording_loop ratio artist album title result
                           None 0 = inr x)).
    { apply hoare_lift. intros s' _.
      by destruct (best_recording_loop _ _ _ _ _ _ _). }
    intros [best_recording best_score]. apply hoare_fact. intros Hbest.
    destruct best_recording as [best|]; [| by apply hoare_ret].
    apply hoare_when; [| done]. intros [_ Hscore]%andb_prop.
    apply (hoare_bind _ _ _
             (fun d _ =>
                _extract_recording_metadata best artist album title = inr d)).
    { apply hoare_lift. intros s' _.
      by destruct (_extract_recording_metadata _ _ _ _). }
    intros d. apply hoare_fact. intros Hd.
    apply (hoare_bind _ _ _ (fun p s' => heap s' !! p = Some d)).
    { intros s' _. simpl. by apply list_lookup_middle. }
    intros p. apply hoare_store_return. intros s' Hp.
    exists i', query', result, best, best_score, d. done. }
  specialize (H s eq_refl).
  by destruct (search_musicbrainz_individual _ _ _ _ _ s) as [[[p|]|r|e] s'].
Qed.

End Threshold.

(** ** A program logic for the converter's methods *)

Section ConverterLogic.
Context {W : Type}.
Implicit Types c : Converter W.

Lemma choare_conseq {R A} (P P' : Converter W -> Prop) (m : CM W R A)
    Qn Qn' (Qr Qr' : R -> Converter W -> Prop) Qe Qe' :
  choare P' m Qn' Qr' Qe' ->
  (forall c, P c -> P' c) ->
  (forall a c, Qn' a c -> Qn a c) ->
  (forall r c, Qr' r c -> Qr r c) ->
  (forall e c, Qe' e c -> Qe e c) ->
  choare P m Qn Qr Qe.
Proof.
  intros H HP Hn Hr He c Hc. specialize (H c (HP c Hc)).
  destruct (m c) as [[a|r|e] c']; auto.
Qed.

(** A statement that does not raise fits any handler. *)
Lemma choare_no_raise {R A} (P : Converter W -> Prop) (m : CM W R A) Qn
    (Qr : R -> Converter W -> Prop) Qe :
  choare P m Qn Qr (fun _ _ => False) -> choare P m Qn Qr Qe.
Proof. intros H. eapply choare_conseq; eauto. simpl. tauto. Qed.

Lemma choare_ret {R A} (P : Converter W -> Prop) (a : A) Qn
    (Qr : R -> Converter W -> Prop) Qe :
  (forall c, P c -> Qn a c) -> choare P (cret a) Qn Qr Qe.
Proof. intros H c Hc. by apply H. Qed.

Lemma choare_return {R A} (P : Converter W -> Prop) (r : R)
    (Qn : A -> Converter W -> Prop) Qr Qe :
  (forall c, P c -> Qr r c) -> choare P (creturn r) Qn Qr Qe.
Proof. intros H c Hc. by apply H. Qed.

Lemma choare_raise {R A} (P : Converter W -> Prop) (e : exn)
    (Qn : A -> Converter W -> Prop) (Qr : R -> Converter W -> Prop) Qe :
  (forall c, P c -> Qe e c) -> choare P (craise e) Qn Qr Qe.
Proof. intros H c Hc. by apply H. Qed.

Lemma choare_bind {R A B} (P : Converter W -> Prop) (m : CM W R A)
    (f : A -> CM W R B) Qm Qn (Qr : R -> Converter W -> Prop) Qe :
  choare P m Qm Qr Qe ->
  (forall a, choare (Qm a) (f a) Qn Qr Qe) ->
  choare P (cbind m f) Qn Qr Qe.
Proof.
  intros Hm Hf c Hc. unfold cbind. specialize (Hm c Hc).
  destruct (m c) as [[a|r|e] c']; [by apply Hf | done | done].
Qed.

Lemma choare_try {R A} (P : Converter W -> Prop) (m : CM W R A)
    (h : exn -> CM W R A) Qx Qn (Qr : R -> Converter W -> Prop) Qe :
  choare P m Qn Qr Qx ->
  (forall e, choare (Qx e) (h e) Qn Qr Qe) ->
  choare P (ctry m h) Qn Qr Qe.
Proof.
  intros Hm Hh c Hc. unfold ctry. specialize (Hm c Hc).
  destruct (m c) as [[a|r|e] c']; [done | done | by apply Hh].
Qed.

Lemma choare_fn {R R'} (P : Converter W -> Prop) (body : CM W R Empty_set)
    Qn (Qr : R' -> Converter W -> Prop) Qe :
  choare P body (fun _ _ => False) Qn Qe ->
  choare P (cfn body) Qn Qr Qe.
Proof.
  intros H c Hc. unfold cfn. specialize (H c Hc).
  destruct (body c) as [[a|r|e] c']; done.
Qed.

Lemma choare_get {R} (P : Converter W -> Prop) Qn
    (Qr : R -> Converter W -> Prop) Qe :
  (forall c, P c -> Qn c c) -> choare P cget Qn Qr Qe.
Proof. intros H c Hc. by apply H. Qed.

Lemma choare_modify {R} (P : Converter W -> Prop) f Qn
    (Qr : R -> Converter W -> Prop) Qe :
  (forall c, P c -> Qn tt (f c)) -> choare P (cmodify f) Qn Qr Qe.
Proof. intros H c Hc. by apply H. Qed.

Lemma choare_when {R} (P : Converter W -> Prop) (b : bool) (m : CM W R unit)
    Qn (Qr : R -> Converter W -> Prop) Qe :
  (b = true -> choare P m Qn Qr Qe) ->
  (b = false -> forall c, P c -> Qn tt c) ->
  choare P (cwhen b m) Qn Qr Qe.
Proof.
  intros Hm Hs. destruct b; simpl; [by apply Hm |].
  apply choare_ret. by apply Hs.
Qed.

Lemma choare_lookup {R A} (P : Converter W -> Prop) (m : M W R A) Qn
    (Qr : R -> Converter W -> Prop) Qe :
  (forall c, P c ->
     match m (metadata_lookup c) with
     | (Normal a, s') => Qn a (set_lookup (fun _ => s') c)
     | (Returned r, s') => Qr r (set_lookup (fun _ => s') c)
     | (Raised e, s') => Qe e (set_lookup (fun _ => s') c)
     end) ->
  choare P (on_lookup m) Qn Qr Qe.
Proof.
  intros H c Hc. unfold on_lookup. specialize (H c Hc).
  destruct (m (metadata_lookup c)) as [[a|r|e] s']; done.
Qed.

Section WithOracle.
Variable file_oracle : forall A : Type, file_call A -> W -> (exn + A) * W.

Lemma choare_call_file {R A} (fc : file_call A) (P : Converter W -> Prop) Qn
    (Qr : R -> Converter W -> Prop) Qe :
  (forall c w a, P c ->
     file_oracle A fc (world (metadata_lookup c)) = (inr a, w) ->
     Qn a (record_file_call w (FEv fc) c)) ->
  (forall c w e, P c ->
     file_oracle A fc (world (metadata_lookup c)) = (inl e, w) ->
     Qe e (record_file_call w (FEv fc) c)) ->
  choare P (call_file file_oracle fc) Qn Qr Qe.
Proof.
  intros Hn He c Hc. unfold call_file.
  destruct (file_oracle A fc (world (metadata_lookup c))) as [[e|a] w] eqn:E;
    eauto.
Qed.

Lemma choare_for_each {R A} (I : Converter W -> Prop) (l : list A)
    (body : A -> CM W R unit) (Qr : R -> Converter W -> Prop) Qe :
  (forall x, In x l -> choare I (body x) (fun _ => I) Qr Qe) ->
  choare I (cfor_each l body) (fun _ => I) Qr Qe.
Proof.
  induction l as [|x l IH]; intros H; simpl.
  - by apply choare_ret.
  - eapply choare_bind.
    + apply H. by left.
    + intros ?. apply IH. intros y Hy. apply H. by right.
Qed.

End WithOracle.
End ConverterLogic.

(** ** What the converter's methods keep *)

Section ConverterKeeps.
Context {W : Type}.
Variable file_oracle : forall A : Type, file_call A -> W -> (exn + A) * W.
Implicit Types c : Converter W.

(** [I] is any property of the converter that survives what the
    methods do to it: calls on files and uses of the lookup. *)
Variable I : Converter W -> Prop.
Hypothesis I_file : forall c w e, I c -> I (record_file_call w e c).
Hypothesis I_lookup : forall c s', I c -> I (set_lookup (fun _ => s') c).

Lemma get_existing_metadata_keeps {R'} file_path (Qr : R' -> Converter W -> Prop) :
  choare I (get_existing_metadata (R:=R') file_oracle file_path)
    (fun _ => I) Qr (fun _ _ => False).
Proof.
  unfold get_existing_metadata. apply choare_fn.
  apply (choare_bind _ _ _ (fun _ => I)).
  { apply (choare_try _ _ _ (fun _ => I)).
    - destruct (String.eqb _ _); [| by apply choare_ret].
      eapply choare_bind.
      + apply choare_call_file; [intros; apply I_file; eassumption |].
        intros. apply I_file. eassumption.
      + intros tags. simpl. by apply choare_ret.
    - intros e. by apply choare_ret. }
  intros metadata.
  apply (choare_bind _ _ _ (fun _ => I)).
  { apply choare_lookup. intros c Hc. simpl. by apply I_lookup. }
  intros l. by apply choare_return.
Qed.

Lemma embed_metadata_keeps {R'} flac_file metadata (Qr : R' -> Converter W -> Prop) :
  choare I (embed_metadata (R:=R') file_oracle flac_file metadata)
    (fun _ => I) Qr (fun _ _ => False).
Proof.
  unfold embed_metadata. apply choare_fn.
  apply (choare_try _ _ _ (fun _ => I)); [| intros e; by apply choare_return].
  apply (choare_bind _ _ _ (fun _ => I)).
  { apply choare_call_file; intros; by apply I_file. }
  intros ?.
  apply (choare_bind _ _ _ (fun _ => I)).
  { apply choare_call_file; intros; by apply I_file. }
  intros ?.
  apply (choare_bind _ _ _ (fun _ => I)).
  { apply choare_lookup. intros c Hc. simpl. by apply I_lookup. }
  intros d.
  apply (choare_bind _ _ _ (fun _ => I)).
  { apply choare_call_file; intros; by apply I_file. }
  intros ?. by apply choare_return.
Qed.

Lemma convert_wav_to_flac_keeps {R'} input_file output_file (Qr : R' -> Converter W -> Prop) :
  choare I (convert_wav_to_flac (R:=R') file_oracle input_file output_file)
    (fun _ => I) Qr (fun _ _ => False).
Proof.
  unfold convert_wav_to_flac. apply choare_fn.
  apply (choare_try _ _ _ (fun _ => I)); [| intros e; by apply choare_return].
  apply (choare_bind _ _ _ (fun _ => I)).
  { apply choare_call_file; intros; by apply I_file. }
  intros audio.
  apply (choare_bind _ _ _ (fun _ => I)); [by apply choare_get |].
  intros c0.
  apply (choare_bind _ _ _ (fun _ => I)).
  { apply choare_call_file; intros; by apply I_file. }
  intros ?.
  apply (choare_bind _ _ _ (fun _ => I)).
  { apply choare_call_file; intros; by apply I_file. }
  intros ex.
  apply (choare_bind _ _ _ (fun _ => I)).
  { destruct ex; [| by apply choare_ret].
    eapply choare_bind.
    - apply choare_call_file; intros; apply I_file; eassumption.
    - intros sz. simpl. by apply choare_ret. }
  intros created. destruct created; [| by apply choare_return].
  apply (choare_bind _ _ _ (fun _ => I)).
  { apply choare_call_file; intros; by apply I_file. }
  intros input_size.
  apply (choare_bind _ _ _ (fun _ => I)).
  { apply choare_call_file; intros; by apply I_file. }
  intros ?.
  apply (choare_bind _ _ _ (fun _ => I)).
  { apply choare_when; [| auto]. intros _. by apply choare_raise. }
  intros ?. by apply choare_return.
Qed.

End ConverterKeeps.

(** ** Equations of the converter monad *)

Section ConvertAll.
Context {W : Type}.
Variable oracle : forall A : Type, call A -> W -> (exn + A) * W.
Variable file_oracle : forall A : Type, file_call A -> W -> (exn + A) * W.
Variable ratio : string -> string -> Q.
Variable str_of_float : Q -> string.
Implicit Types c : Converter W.

Lemma cbind_normal {R A B} (m : CM W R A) (f : A -> CM W R B) c a c' :
  m c = (Normal a, c') -> cbind m f c = f a c'.
Proof. intros E. unfold cbind. by rewrite E. Qed.

Lemma cbind_raised {R A B} (m : CM W R A) (f : A -> CM W R B) c e c' :
  m c = (Raised e, c') -> cbind m f c = (Raised e, c').
Proof. intros E. unfold cbind. by rewrite E. Qed.

Lemma cbind_returned {R A B} (m : CM W R A) (f : A -> CM W R B) c r c' :
  m c = (Returned r, c') -> cbind m f c = (Returned r, c').
Proof. intros E. unfold cbind. by rewrite E. Qed.

Lemma find_audio_files_eq {R} c :
  find_audio_files (R:=R) file_oracle c
  = match file_oracle _ (OsWalk (source_path c)) (world (metadata_lookup c)) with
    | (inl e, w) =>
        (Raised e, record_file_call w (FEv (OsWalk (source_path c))) c)
    | (inr walk, w) =>
        (Normal (audio_files_of walk),
         record_file_call w (FEv (OsWalk (source_path c))) c)
    end.
Proof.
  unfold find_audio_files, cbind, cget, call_file, cret.
  by destruct (file_oracle _ _ _) as [[e|walk] w].
Qed.

End ConvertAll.

(** ** Tags written and read *)

Lemma fold_left_ext {A B} (f g : A -> B -> A) l a :
  (forall a b, f a b = g a b) -> fold_left f l a = fold_left g l a.
Proof.
  intros H. revert a. induction l as [|x l IH]; intros a; simpl; [done |].
  by rewrite H, IH.
Qed.

Lemma put_all_lookup {V} (g : string -> option V) l k0 : forall m,
  put_all g l m !! k0 = last_put g l k0 (m !! k0).
Proof.
  unfold put_all. induction l as [|[a k] l IH]; intros m; simpl; [done |].
  rewrite IH. f_equal.
  destruct (String.eqb_spec k k0) as [->|Hne].
  - destruct (g a); [by rewrite lookup_insert_eq | done].
  - destruct (g a); [by rewrite lookup_insert_ne | done].
Qed.

Lemma last_put_source {V} (g : string -> option V) l k0 : forall acc v,
  last_put g l k0 acc = Some v ->
  acc = Some v \/ exists a, (a, k0) ∈ l /\ g a = Some v.
Proof.
  induction l as [|[a k] l IH]; intros acc v H; simpl in H; [by left |].
  apply IH in H as [H | (a' & Hin & Hg)].
  - destruct (String.eqb_spec k k0) as [->|Hne]; [| by left].
    destruct (g a) eqn:Eg; [| by left].
    right. exists a. split; [by left | congruence].
  - right. exists a'. split; [by right | done].
Qed.

Lemma metadata_of_tags_put tags :
  metadata_of_tags tags = put_all (read_value tags) flac_to_meta ∅.
Proof.
  unfold metadata_of_tags, put_all. apply fold_left_ext.
  intros m [flac_tag meta_key]. unfold read_value.
  destruct (first_value tags flac_tag) as [value|]; [| done].
  by destruct (Py.truthy value && Py.truthy (Py.strip value)).
Qed.

Lemma set_tags_put mapping metadata tags :
  set_tags mapping metadata tags
  = put_all (written_value metadata) mapping tags.
Proof.
  unfold set_tags, put_all. apply fold_left_ext.
  intros m [key flac_key]. unfold written_value.
  by destruct (has_value metadata key).
Qed.

Lemma tags_of_metadata_lookup metadata flac_key :
  tags_of_metadata metadata !! flac_key
  = last_put (written_value metadata) mb_mapping flac_key
      (last_put (written_value metadata) tag_mapping flac_key None).
Proof.
  unfold tags_of_metadata.
  rewrite !set_tags_put, !put_all_lookup. by rewrite lookup_empty.
Qed.

Lemma metadata_of_tags_lookup tags k :
  metadata_of_tags tags !! k
  = last_put (read_value tags) flac_to_meta k None.
Proof. by rewrite metadata_of_tags_put, put_all_lookup, lookup_empty. Qed.

Lemma metadata_of_tags_well_read tags :
  well_read (metadata_of_tags tags).
Proof.
  intros k v H. rewrite metadata_of_tags_lookup in H.
  apply last_put_source in H as [H | (a & Hin & Hg)]; [done |].
  unfold read_value in Hg.
  destruct (first_value tags a) as [value|]; [| done].
  destruct (Py.truthy value && Py.truthy (Py.strip value)) eqn:E; [| done].
  injection Hg as <-. apply andb_prop in E as [_ E].
  split_and!; [done | apply strip_idem |].
  apply list_elem_of_fmap. by exists (a, k).
Qed.

(** X22.  [embed_metadata]: each tag written has one value, the non-empty
    value of a key mapped to that tag. *)
Theorem written_tags_come_from_the_metadata metadata flac_key values :
  tags_of_metadata metadata !! flac_key = Some values ->
  exists key value,
    (key, flac_key) ∈ tag_mapping ++ mb_mapping
    /\ metadata !! key = Some value
    /\ value <> ""
    /\ values = [value].
Proof.
  rewrite tags_of_metadata_lookup. intros H.
  assert (exists key, (key, flac_key) ∈ tag_mapping ++ mb_mapping
            /\ written_value metadata key = Some values) as (key & Hin & Hw).
  { apply last_put_source in H as [H | (a & Hin & Hg)].
    - apply last_put_source in H as [H | (a & Hin & Hg)]; [done |].
      exists a. split; [| done]. apply elem_of_app. by left.
    - exists a. split; [| done]. apply elem_of_app. by right. }
  unfold written_value, has_value, dict_get in Hw.
  destruct (metadata !! key) as [value|] eqn:E; [| done].
  destruct (Py.truthy value) eqn:Ht; [| done].
  injection Hw as <-. exists key, value. split_and!; try done.
  by destruct value.
Qed.

Lemma has_value_well_read metadata k :
  well_read metadata ->
  has_value metadata k = present (metadata !! k).
Proof.
  intros Hw. unfold has_value. destruct (metadata !! k) as [v|] eqn:E; [| done].
  by destruct (Hw k v E) as [-> _].
Qed.

Lemma well_read_no_key metadata k :
  well_read metadata -> k ∉ map snd flac_to_meta -> metadata !! k = None.
Proof.
  intros Hw Hk. destruct (metadata !! k) as [v|] eqn:E; [| done].
  by destruct (Hw k v E) as (_ & _ & ?).
Qed.

(** X23.  [embed_metadata] then [get_existing_metadata]: metadata of the
    form the reader yields is read back as it was written. *)
Theorem read_after_embed_gives_back metadata :
  well_read metadata ->
  metadata_of_tags (tags_of_metadata metadata) = metadata.
Proof.
  intros Hw. apply map_eq. intros k.
  destruct (decide (k ∈ map snd flac_to_meta)) as [Hk | Hk].
  - assert (has_value metadata "year" = false) as Hyear.
    { rewrite has_value_well_read by done.
      rewrite (well_read_no_key _ "year" Hw); [done |].
      rewrite list_elem_of_In. simpl. intuition discriminate. }
    rewrite metadata_of_tags_lookup.
    simpl in Hk. 
    repeat (apply elem_of_cons in Hk as [-> | Hk]);
      [.. | by apply elem_of_nil in Hk];
      cbn [last_put flac_to_meta String.eqb Ascii.eqb Bool.eqb];
      unfold read_value, first_value;
      rewrite tags_of_metadata_lookup;
      cbn [last_put tag_mapping mb_mapping String.eqb Ascii.eqb Bool.eqb];
      unfold written_value; rewrite ?Hyear;
      match goal with
      | |- context [has_value metadata ?key] =>
          rewrite (has_value_well_read metadata key Hw);
          unfold dict_get;
          destruct (metadata !! key) as [v|] eqn:E; simpl; [| done];
          destruct (Hw key v E) as (Ht & Hs & _);
          by rewrite Hs, Ht
      end.
  - rewrite (well_read_no_key _ k Hw Hk).
    destruct (metadata_of_tags (tags_of_metadata metadata) !! k) as [v|] eqn:E;
      [| done].
    by destruct (metadata_of_tags_well_read _ k v E) as (_ & _ & ?).
Qed.

(** ** [get_existing_metadata] and [embed_metadata] *)

Section Methods.
Context {W : Type}.
Variable oracle : forall A : Type, call A -> W -> (exn + A) * W.
Variable file_oracle : forall A : Type, file_call A -> W -> (exn + A) * W.
Variable ratio : string -> string -> Q.
Variable str_of_float : Q -> string.
Implicit Types c : Converter W.

Lemma cfn_returned {R R'} (body : CM W R Empty_set) c r c' :
  body c = (Returned r, c') -> cfn (R':=R') body c = (Normal r, c').
Proof. intros E. unfold cfn. by rewrite E. Qed.

Lemma ctry_normal {R A} (m : CM W R A) h c a c' :
  m c = (Normal a, c') -> ctry m h c = (Normal a, c').
Proof. intros E. unfold ctry. by rewrite E. Qed.

Lemma ctry_returned {R A} (m : CM W R A) h c r c' :
  m c = (Returned r, c') -> ctry m h c = (Returned r, c').
Proof. intros E. unfold ctry. by rewrite E. Qed.

Lemma ctry_raised {R A} (m : CM W R A) h c e c' :
  m c = (Raised e, c') -> ctry m h c = h e c'.
Proof. intros E. unfold ctry. by rewrite E. Qed.

Lemma call_file_eq {R A} (fc : file_call A) c :
  call_file (R:=R) file_oracle fc c
  = match file_oracle A fc (world (metadata_lookup c)) with
    | (inl e, w) => (Raised e, record_file_call w (FEv fc) c)
    | (inr a, w) => (Normal a, record_file_call w (FEv fc) c)
    end.
Proof. reflexivity. Qed.

(** X21.  [get_existing_metadata]: it never raises; the dictionary it
    returns is new, holds only known keys with stripped, non-empty
    values, and is empty for a file that is not a FLAC file. *)
Theorem existing_metadata_is_well_read {R} file_path c :
  exists l c' d,
    get_existing_metadata (R:=R) file_oracle file_path c = (Normal l, c')
    /\ l = length (heap (metadata_lookup c))
    /\ heap (metadata_lookup c') = heap (metadata_lookup c) ++ [d]
    /\ well_read d
    /\ stats c' = stats c
    /\ trace (metadata_lookup c') = trace (metadata_lookup c)
    /\ (String.eqb (Py.lower (path_suffix file_path)) ".flac" = false ->
        d = ∅ /\ file_log c' = file_log c)
    /\ (forall tags w,
          String.eqb (Py.lower (path_suffix file_path)) ".flac" = true ->
          file_oracle _ (FlacOpen file_path) (world (metadata_lookup c))
          = (inr tags, w) ->
          d = metadata_of_tags tags).
Proof.
  unfold get_existing_metadata, cfn, cbind, ctry, call_file, cret, creturn,
    on_lookup, alloc.
  destruct (String.eqb (Py.lower (path_suffix file_path)) ".flac") eqn:Es.
  - destruct (file_oracle _ (FlacOpen file_path) (world (metadata_lookup c)))
      as [[e|tags] w] eqn:Eo.
    + eexists _, _, ∅. split; [reflexivity |].
      simpl. split_and!; try done.
    + eexists _, _, (metadata_of_tags tags). split; [reflexivity |].
      simpl. split_and!; try done.
      * apply metadata_of_tags_well_read.
      * by intros tags' w' _ [= <- _].
  - eexists _, _, ∅. split; [reflexivity |].
    simpl. split_and!; try done.
Qed.

(** X24.  [embed_metadata]: it never raises, and answers [True] only after
    opening, clearing and saving the file. *)
Theorem embed_metadata_saves_or_fails {R} flac_file metadata c :
  let d := deref (heap (metadata_lookup c)) metadata in
  let calls :=
    [ FEv (FlacOpen flac_file); FEv (FlacDelete flac_file);
      FEv (FlacSave flac_file (tags_of_metadata d)) ] in
  exists (b : bool) c' n,
    embed_metadata (R:=R) file_oracle flac_file metadata c = (Normal b, c')
    /\ file_log c' = file_log c ++ take n calls
    /\ (1 <= n <= 3)%nat
    /\ (b = true -> n = 3%nat)
    /\ stats c' = stats c
    /\ heap (metadata_lookup c') = heap (metadata_lookup c)
    /\ trace (metadata_lookup c') = trace (metadata_lookup c).
Proof.
  intros d calls.
  unfold embed_metadata, cfn, cbind, ctry, call_file, cret, creturn, on_lookup,
    read.
  destruct (file_oracle _ (FlacOpen flac_file) (world (metadata_lookup c)))
    as [[e|tags] w1] eqn:E1.
  { exists false, (record_file_call w1 (FEv (FlacOpen flac_file)) c), 1%nat.
    split; [reflexivity |]. simpl. split_and!; (done || lia). }
  cbn [world metadata_lookup record_file_call].
  destruct (file_oracle _ (FlacDelete flac_file) w1) as [[e|[]] w2] eqn:E2.
  { eexists false, _, 2%nat.
    split; [reflexivity |]. simpl. rewrite <- app_assoc.
    split_and!; (done || lia). }
  cbn [world metadata_lookup record_file_call set_lookup heap].
  fold d.
  destruct (file_oracle _ (FlacSave flac_file (tags_of_metadata d)) w2)
    as [[e|[]] w3] eqn:E3.
  { eexists false, _, 3%nat.
    split; [reflexivity |]. simpl. rewrite <- !app_assoc.
    split_and!; (done || lia). }
  eexists true, _, 3%nat.
  split; [reflexivity |]. simpl. rewrite <- !app_assoc.
  split_and!; (done || lia).
Qed.

End Methods.

(** ** [convert_wav_to_flac] *)

Section Conversion.
Context {W : Type}.
Variable file_oracle : forall A : Type, file_call A -> W -> (exn + A) * W.
Implicit Types c : Converter W.

Ltac same_answer :=
  repeat match goal with
    | E : file_oracle ?A ?fc ?w = _, H : file_oracle ?A ?fc ?w = _ |- _ =>
        rewrite E in H; inversion H; subst; clear H
    end.

Ltac failed_here :=
  eexists false, _; split; [reflexivity |]; split; [reflexivity |];
  split; [discriminate |];
  intros (? & ? & ? & ? & ? & ? & ? & ? & ? & ? & H1 & H2 & H3 & H4 & ? & H5 & ? & H6);
  same_answer; try discriminate; try lia.

(** X25.  [convert_wav_to_flac]: it never raises, and answers [True]
    exactly when every call answers, the output exists and is not
    empty, and the input's size is not zero. *)
Theorem conversion_succeeds_exactly_when_checked {R} input_file output_file c :
  exists (b : bool) c',
    convert_wav_to_flac (R:=R) file_oracle input_file output_file c
    = (Normal b, c')
    /\ stats c' = stats c
    /\ (b = true <->
        conversion_answers file_oracle input_file output_file
          (compatibility_mode c) (world (metadata_lookup c))).
Proof.
  unfold convert_wav_to_flac, cfn, cbind, ctry, call_file, cret, creturn, cget,
    cwhen, craise.
  destruct (file_oracle _ (FromWav input_file) (world (metadata_lookup c)))
    as [[e|audio] w1] eqn:E1; [failed_here |].
  cbn [world metadata_lookup record_file_call compatibility_mode].
  destruct (file_oracle _ (Export audio output_file "flac"
              (export_parameters (compatibility_mode c))) w1)
    as [[e|[]] w2] eqn:E2; [failed_here |].
  cbn [world metadata_lookup record_file_call].
  destruct (file_oracle _ (PathExists output_file) w2)
    as [[e|[]] w3] eqn:E3; [failed_here | | failed_here].
  cbn [world metadata_lookup record_file_call].
  destruct (file_oracle _ (FileSize output_file) w3)
    as [[e|st_size] w4] eqn:E4; [failed_here |].
  cbn [world metadata_lookup record_file_call].
  destruct (0 <? st_size) eqn:Hpos.
  2:{ apply Z.ltb_ge in Hpos. failed_here. }
  apply Z.ltb_lt in Hpos.
  cbn [world metadata_lookup record_file_call].
  destruct (file_oracle _ (FileSize input_file) w4)
    as [[e|input_size] w5] eqn:E5; [failed_here |].
  cbn [world metadata_lookup record_file_call].
  destruct (file_oracle _ (FileSize output_file) w5)
    as [[e|output_size] w6] eqn:E6; [failed_here |].
  cbn [world metadata_lookup record_file_call].
  destruct (input_size =? 0) eqn:Hz.
  { apply Z.eqb_eq in Hz. failed_here. }
  apply Z.eqb_neq in Hz.
  eexists true, _. split; [reflexivity |]. split; [reflexivity |].
  split; [| done]. intros _.
  by exists audio, w1, w2, w3, st_size, w4, input_size, w5, output_size, w6.
Qed.

End Conversion.

(** ** Files that are already tagged *)

Section Complete.
Context {W : Type}.
Variable oracle : forall A : Type, call A -> W -> (exn + A) * W.
Variable file_oracle : forall A : Type, file_call A -> W -> (exn + A) * W.
Variable ratio : string -> string -> Q.
Variable str_of_float : Q -> string.
Implicit Types c : Converter W.

Lemma deref_new (h : list Dict) d : deref (h ++ [d]) (length h) = d.
Proof. unfold deref. by rewrite list_lookup_middle. Qed.

Lemma deref_insert (h : list Dict) (l : nat) d :
  (l < length h)%nat -> deref (<[l := d]> h) l = d.
Proof. intros H. unfold deref. by rewrite list_lookup_insert_eq. Qed.

Lemma complete_is_truthy d : _is_metadata_complete d = true -> dict_truthy d = true.
Proof.
  unfold _is_metadata_complete, dict_truthy. intros H.
  apply negb_true_iff, bool_decide_eq_false. intros ->.
  by vm_compute in H.
Qed.

Lemma insert_truthy (d : Dict) k v : dict_truthy (<[k := v]> d) = true.
Proof.
  unfold dict_truthy. apply negb_true_iff, bool_decide_eq_false.
  apply insert_non_empty.
Qed.

(** With complete existing metadata [get_metadata] returns it as it
    stands. *)
Lemma get_metadata_returns_complete {R} artist album title track_number
    is_generic file_path l (s : State W) :
  _is_metadata_complete (deref (heap s) l) = true ->
  get_metadata (R:=R) oracle ratio str_of_float artist album title track_number
    is_generic file_path (Some l) s = (Normal l, s).
Proof.
  intros Hc. unfold get_metadata, fn, bind, read, when, return_.
  by rewrite Hc, (complete_is_truthy _ Hc).
Qed.

Lemma should_update_same d : dict_truthy d = true -> should_update d d = false.
Proof.
  intros H. unfold should_update. rewrite H, bool_decide_eq_true_2 by done.
  simpl. by destruct (has_value d "musicbrainz_recordingid").
Qed.

Lemma count_source_same d st : count_source d d st = bump_metadata_complete st.
Proof. unfold count_source. by rewrite bool_decide_eq_true_2. Qed.

Lemma set_stats_same_source d c :
  set_stats (count_source d d) c = set_stats bump_metadata_complete c.
Proof. unfold set_stats. by rewrite count_source_same. Qed.

(** X27.  [process_single_file]: an output file with complete tags is
    read once, not looked up and not written, and is counted as
    complete. *)
Theorem complete_tags_are_left_alone {R} audio_file output_file c tags w
    dir_metadata :
  String.eqb (Py.lower (path_suffix output_file)) ".flac" = true ->
  file_oracle _ (FlacOpen output_file) (world (metadata_lookup c))
  = (inr tags, w) ->
  _is_metadata_complete (metadata_of_tags tags) = true ->
  parse_directory_structure audio_file (source_path c) = Some dir_metadata ->
  exists c',
    handle_metadata (R:=R) oracle file_oracle ratio str_of_float
      audio_file output_file c = (Normal tt, c')
    /\ file_log c' = file_log c ++ [FEv (FlacOpen output_file)]
    /\ trace (metadata_lookup c') = trace (metadata_lookup c)
    /\ entered (metadata_lookup c') = entered (metadata_lookup c)
    /\ stats c' = bump_metadata_complete (stats c).
Proof.
  intros Hs Ho Hc Hp.
  unfold handle_metadata, get_existing_metadata.
  unfold cbind at 1. unfold cget at 1.
  unfold cbind at 1. unfold cfn at 1. unfold cbind at 1. unfold ctry at 1.
  rewrite Hs. unfold cbind at 1. rewrite call_file_eq, Ho.
  unfold cret at 1. unfold cbind at 1. unfold on_lookup at 1. unfold alloc at 1.
  unfold creturn at 1.
  cbn [metadata_lookup record_file_call set_lookup heap source_path].
  rewrite Hp. unfold cbind at 1. unfold cret at 1. cbv zeta.
  set (d := metadata_of_tags tags) in *.
  set (l := length (heap (metadata_lookup c))).
  unfold cbind at 1. unfold on_lookup at 1.
  cbn [metadata_lookup record_file_call set_lookup].
  rewrite get_metadata_returns_complete
    by (cbn [heap set_heap]; by rewrite deref_new).
  unfold setitem, modify, read, cwhen, on_lookup, cbind, cret, cmodify.
  destruct (Py.truthy (pm_year dir_metadata)),
           (Py.truthy (pm_track_number dir_metadata));
    cbn [metadata_lookup set_lookup set_heap heap set_stats stats file_log
         trace entered];
    rewrite set_stats_same_source, should_update_same;
    try (eexists; split; [reflexivity |]; by cbn);
    rewrite ?deref_insert, ?deref_new;
    rewrite ?length_insert, ?length_app; simpl; try lia;
    solve [apply insert_truthy | by apply complete_is_truthy].
Qed.

End Complete.

(** ** The statistics of [process_single_file] and [convert_all] *)

Section Effect.
Context {W : Type}.
Variable oracle : forall A : Type, call A -> W -> (exn + A) * W.
Variable file_oracle : forall A : Type, file_call A -> W -> (exn + A) * W.
Variable ratio : string -> string -> Q.
Variable str_of_float : Q -> string.
Implicit Types c : Converter W.

Lemma tallied_source c0 k c md ex :
  tallied c0 false k c -> tallied c0 true k (set_stats (count_source md ex) c).
Proof.
  intros (Hs & He & Hl & Hm & Hk).
  assert (same_counts c0 (set_stats (count_source md ex) c)
          /\ skipped_flac (stats (set_stats (count_source md ex) c))
             = skipped_flac (stats c)
          /\ exists bump, bump ∈ source_bumps
               /\ source_counts (stats (set_stats (count_source md ex) c))
                  = source_counts (bump (stats c0))) as (Hs' & Hk' & Hm').
  { unfold same_counts, source_counts in *. simpl. unfold count_source.
    injection Hm as H1 H2 H3 H4 H5.
    repeat case_match; simpl;
      (split; [done |]; split; [done |]);
      [ exists bump_metadata_complete | exists bump_metadata_fingerprint
      | exists bump_metadata_lastfm | exists bump_metadata_found
      | exists bump_metadata_fallback ];
      (split; [unfold source_bumps; rewrite !elem_of_cons;
               repeat first [by left | right]
             | simpl; congruence]). }
  split; [exact Hs' |]. split; [exact He |]. split; [exact Hl |].
  split; [exact Hm' |]. lia.
Qed.

Lemma tallied_skipped c0 n c :
  tallied c0 n 0 c -> tallied c0 n 1 (set_stats bump_skipped_flac c).
Proof.
  intros (Hs & He & Hl & Hm & Hk).
  split; [exact Hs |]. split; [exact He |]. split; [exact Hl |].
  split; [exact Hm |]. simpl. lia.
Qed.

Lemma tallied_more c0 n c : tallied c0 n 0 c -> tallied c0 n 1 c.
Proof.
  intros (Hs & He & Hl & Hm & Hk).
  split; [exact Hs |]. split; [exact He |]. split; [exact Hl |].
  split; [exact Hm |]. lia.
Qed.

(** One counter one higher makes the sum one higher. *)
Lemma tallied_counted c0 (n : bool) k c :
  tallied c0 n k c -> counted c0 (if n then 1 else 0) k c.
Proof.
  intros (Hs & He & Hl & Hm & Hk).
  split; [exact Hs |]. split; [exact He |]. split; [exact Hl |].
  split; [| exact Hk].
  unfold metadata_total. destruct n.
  - destruct Hm as (bump & Hin & Hm). unfold source_counts in Hm.
    injection Hm as H1 H2 H3 H4 H5. rewrite H1, H2, H3, H4, H5.
    unfold source_bumps in Hin.
    repeat (apply elem_of_cons in Hin as [-> | Hin]; [simpl; lia |]).
    by apply elem_of_nil in Hin.
  - unfold source_counts in Hm. injection Hm as H1 H2 H3 H4 H5. lia.
Qed.

(** A method of the lookup that does not execute [return] in the
    caller keeps what the lookup's state has no part in. *)
Lemma keep_lookup_call {R A} (I : Converter W -> Prop) (m : M W R A)
    (Qr : R -> Converter W -> Prop) :
  (forall c s', I c -> I (set_lookup (fun _ => s') c)) ->
  (forall s, match m s with (Returned _, _) => False | _ => True end) ->
  choare I (on_lookup m) (fun _ => I) Qr (fun _ => I).
Proof.
  intros HI Hm. apply choare_lookup. intros c Hc.
  specialize (Hm (metadata_lookup c)).
  destruct (m (metadata_lookup c)) as [[a|r|e] s']; [auto | done | auto].
Qed.

Lemma get_metadata_no_return {R} artist album title track_number is_generic
    file_path existing_metadata (s : State W) :
  match get_metadata (R:=R) oracle ratio str_of_float artist album title
          track_number is_generic file_path existing_metadata s with
  | (Returned _, _) => False
  | _ => True
  end.
Proof.
  unfold get_metadata, fn.
  by destruct (bind _ _ s) as [[[]|r|e] s'].
Qed.

Lemma handle_metadata_tally {R} c0 k audio_file output_file
    (Qr : R -> Converter W -> Prop) :
  choare (tallied c0 false k)
    (handle_metadata (R:=R) oracle file_oracle ratio str_of_float
       audio_file output_file)
    (fun _ => tallied c0 true k) Qr (fun _ => tallied c0 false k).
Proof.
  set (I := tallied c0 false k). set (J := tallied c0 true k).
  unfold handle_metadata.
  apply (choare_bind _ _ _ (fun _ => I)); [by apply choare_get |].
  intros c1.
  apply (choare_bind _ _ _ (fun _ => I)).
  { apply choare_no_raise, get_existing_metadata_keeps; by intros. }
  intros existing_metadata.
  apply (choare_bind _ _ _ (fun _ => I)).
  { destruct (parse_directory_structure _ _);
      [by apply choare_ret | by apply choare_raise]. }
  intros dir_metadata. cbv zeta.
  apply (choare_bind _ _ _ (fun _ => I)).
  { apply keep_lookup_call; [by intros | apply get_metadata_no_return]. }
  intros metadata.
  apply (choare_bind _ _ _ (fun _ => I)).
  { apply choare_when; [| auto]. intros _.
    apply keep_lookup_call; by intros. }
  intros ?.
  apply (choare_bind _ _ _ (fun _ => I)).
  { apply choare_when; [| auto]. intros _.
    apply keep_lookup_call; by intros. }
  intros ?.
  apply (choare_bind _ _ _ (fun _ => I)).
  { apply keep_lookup_call; by intros. }
  intros md.
  apply (choare_bind _ _ _ (fun _ => I)).
  { apply keep_lookup_call; by intros. }
  intros existing.
  apply (choare_bind _ _ _ (fun _ => J)).
  { apply choare_modify. intros c Hc. by apply tallied_source. }
  intros ?.
  apply choare_when; [| auto]. intros _.
  eapply choare_bind.
  - apply choare_no_raise, embed_metadata_keeps; by intros.
  - intros b. simpl. by apply choare_ret.
Qed.

(** What one file does to the statistics: it is counted under one
    metadata source exactly when the method answers true and metadata
    is enabled. *)
Lemma process_single_file_tally {R} audio_file c :
  exists (ok : bool) c',
    process_single_file (R:=R) oracle file_oracle ratio str_of_float
      audio_file c = (Normal ok, c')
    /\ tallied c (ok && enable_metadata c && has_lookup c) 1 c'.
Proof.
  set (I := tallied c false 0). set (I1 := tallied c false 1).
  set (Q := fun (ok : bool) c' =>
              tallied c (ok && enable_metadata c && has_lookup c) 1 c').
  assert (choare (fun c' => c' = c)
            (process_single_file (R:=R) oracle file_oracle ratio str_of_float
               audio_file)
            Q (fun _ _ => False) (fun _ _ => False)) as H.
  { unfold process_single_file. apply choare_fn.
    apply (choare_try _ _ _ (fun _ => I1));
      [| intros e; by apply choare_return].
    apply (choare_bind _ _ _ (fun _ => I)).
    { unfold get_relative_path.
      apply (choare_bind _ _ _ (fun _ => I)).
      { apply choare_get. intros ? ->. unfold I, tallied, same_counts.
        repeat split; lia. }
      intros c1. destruct (Path.relative_to _ _); [by apply choare_ret |].
      apply choare_raise. intros c2 Hc2. by apply tallied_more. }
    intros relative_path.
    apply (choare_bind _ _ _ (fun _ => I)).
    { eapply choare_conseq with (Qe' := fun _ => I) (Qn' := fun _ => I)
        (P' := I) (Qr' := fun _ _ => False);
        [| done | done | done | by intros; apply tallied_more].
      unfold create_output_directory.
      apply (choare_bind _ _ _ (fun _ => I)); [by apply choare_get |].
      intros c1.
      apply (choare_bind _ _ _ (fun _ => I)).
      { apply choare_call_file; by intros. }
      intros cwd. cbv zeta.
      apply (choare_bind _ _ _ (fun _ => I)).
      { apply choare_call_file; by intros. }
      intros ?. by apply choare_ret. }
    intros output_dir.
    apply (choare_bind _ _ _ (fun _ => I1)).
    { destruct (String.eqb _ _).
      { apply choare_ret. by intros; apply tallied_more. }
      cbv zeta.
      apply (choare_bind _ _ _ (fun _ => I)).
      { apply choare_call_file; intros; try done. by apply tallied_more. }
      intros ex.
      apply (choare_bind _ _ _ (fun _ => I)).
      { apply choare_when; [| auto]. intros _.
        apply choare_call_file; intros; try done. by apply tallied_more. }
      intros ?.
      apply (choare_bind _ _ _ (fun _ => I1)).
      { apply choare_modify. intros c1 Hc1. by apply tallied_skipped. }
      intros ?. by apply choare_ret. }
    intros [output_file needs_conversion].
    apply (choare_bind _ _ _ (fun _ => I1)).
    { apply choare_when; [| auto]. intros _.
      apply (choare_bind _ _ _ (fun _ => I1)).
      { apply choare_no_raise, convert_wav_to_flac_keeps. by intros. }
      intros ok. apply choare_when; [| auto]. intros _.
      by apply choare_return. }
    intros ?.
    apply (choare_bind _ _ _
             (fun c1 c' => I1 c' /\ enable_metadata c1 = enable_metadata c
                           /\ has_lookup c1 = has_lookup c)).
    { apply choare_get. intros c1 Hc1. split; [done |].
      destruct Hc1 as (_ & ? & ? & _). done. }
    intros c1.
    destruct (enable_metadata c && has_lookup c) eqn:Hen.
    - apply (choare_bind _ _ _ (fun _ => tallied c true 1)).
      { apply choare_when.
        - intros _.
          eapply choare_conseq with (P' := I1);
            [apply handle_metadata_tally | by intros ? [? _] | done | done | done].
        - intros Hoff c2 (_ & He & Hl). rewrite He, Hl in Hoff. congruence. }
      intros ?. apply choare_return. intros c2 Hc2. unfold Q.
      simpl. by rewrite Hen.
    - apply (choare_bind _ _ _ (fun _ => I1)).
      { apply choare_when.
        - intros Hon. intros c2 (_ & He & Hl). rewrite He, Hl in Hon. congruence.
        - intros _ c2 [? _]. done. }
      intros ?. apply choare_return. intros c2 Hc2. unfold Q.
      simpl. by rewrite Hen. }
  specialize (H c eq_refl).
  destruct (process_single_file _ _ _ _ _ c) as [[ok|r|e] c']; [| done | done].
  by exists ok, c'.
Qed.

Lemma process_single_file_effect {R} audio_file c :
  exists (ok : bool) c',
    process_single_file (R:=R) oracle file_oracle ratio str_of_float
      audio_file c = (Normal ok, c')
    /\ counted c
         (if ok && enable_metadata c && has_lookup c then 1 else 0) 1 c'.
Proof.
  destruct (process_single_file_tally (R:=R) audio_file c)
    as (ok & c' & E & H).
  exists ok, c'. split; [exact E |]. by apply tallied_counted.
Qed.

Lemma convert_loop_effect {R} (l : list Path.t) : forall c,
  exists c',
    cfor_each (R:=R) l (fun audio_file =>
      cbind (process_single_file oracle file_oracle ratio str_of_float audio_file)
        (fun ok : bool =>
           if ok then cmodify (set_stats bump_converted)
           else cmodify (set_stats bump_failed))) c
    = (Normal tt, c')
    /\ total_files (stats c') = total_files (stats c)
    /\ converted (stats c') + failed (stats c')
       = converted (stats c) + failed (stats c) + Z.of_nat (length l)
    /\ converted (stats c) <= converted (stats c')
    /\ failed (stats c) <= failed (stats c')
    /\ enable_metadata c' = enable_metadata c
    /\ has_lookup c' = has_lookup c
    /\ metadata_total (stats c') - metadata_total (stats c)
       = (if enable_metadata c && has_lookup c
          then converted (stats c') - converted (stats c) else 0)
    /\ skipped_flac (stats c) <= skipped_flac (stats c')
       <= skipped_flac (stats c) + Z.of_nat (length l).
Proof.
  induction l as [|x l IH]; intros c.
  - exists c. simpl. repeat split; try lia. by destruct (_ && _); lia.
  - destruct (process_single_file_effect (R:=R) x c)
      as (ok & c1 & E & (Ht & Hc & Hf) & He & Hl & Hm & Hk).
    cbn [cfor_each]. rewrite (cbind_normal _ _ c tt
      (set_stats (if ok then bump_converted else bump_failed) c1)).
    2:{ rewrite (cbind_normal _ _ _ _ _ E). by destruct ok. }
    destruct (IH (set_stats (if ok then bump_converted else bump_failed) c1))
      as (c' & E' & Ht' & Hs' & Hc' & Hf' & He' & Hl' & Hm' & Hk').
    exists c'. split; [exact E' |].
    cbn [enable_metadata has_lookup set_stats] in He', Hl', Hm'.
    rewrite He, Hl in Hm'.
    assert (length (x :: l) = S (length l)) as -> by done.
    destruct ok; simpl in *;
      (split; [congruence |]; split; [lia |]; split; [lia |]; split; [lia |];
       split; [congruence |]; split; [congruence |]; split; [| lia]);
      unfold metadata_total in *; simpl in *;
      destruct (enable_metadata c && has_lookup c); lia.
Qed.

(** X28.  [process_single_file]: it never raises and leaves the counters
    of [convert_all] alone; exactly one of the five counters of the
    metadata sources goes up by one, the other four staying as they
    were, when the method answers [True] and metadata is enabled,
    and all five stay as they were otherwise. *)
Theorem one_file_is_counted_once {R} audio_file c :
  exists (ok : bool) c',
    process_single_file (R:=R) oracle file_oracle ratio str_of_float
      audio_file c = (Normal ok, c')
    /\ total_files (stats c') = total_files (stats c)
    /\ converted (stats c') = converted (stats c)
    /\ failed (stats c') = failed (stats c)
    /\ skipped_flac (stats c) <= skipped_flac (stats c')
       <= skipped_flac (stats c) + 1
    /\ (if ok && enable_metadata c && has_lookup c
        then exists bump, bump ∈ source_bumps
               /\ source_counts (stats c') = source_counts (bump (stats c))
        else source_counts (stats c') = source_counts (stats c)).
Proof.
  destruct (process_single_file_tally (R:=R) audio_file c)
    as (ok & c' & E & (Ht & Hc & Hf) & _ & _ & Hm & Hk).
  exists ok, c'. split; [exact E |].
  split; [exact Ht |]. split; [exact Hc |]. split; [exact Hf |].
  split; [exact Hk |]. exact Hm.
Qed.

(** X29.  [convert_all]: every file found is counted as converted or as
    failed, and the two numbers returned are these counters. *)
Theorem convert_all_counts_every_file {R} c :
  converted (stats c) = 0 -> failed (stats c) = 0 ->
  match file_oracle _ (OsWalk (source_path c)) (world (metadata_lookup c)) with
  | (inl e, w) =>
      convert_all (R:=R) oracle file_oracle ratio str_of_float c
      = (Raised e, record_file_call w (FEv (OsWalk (source_path c))) c)
  | (inr walk, w) =>
      exists n_converted n_failed c',
        convert_all (R:=R) oracle file_oracle ratio str_of_float c
        = (Normal (n_converted, n_failed), c')
        /\ total_files (stats c') = Z.of_nat (length (audio_files_of walk))
        /\ n_converted + n_failed = total_files (stats c')
        /\ 0 <= n_converted /\ 0 <= n_failed
        /\ n_converted = converted (stats c') /\ n_failed = failed (stats c')
  end.
Proof.
  intros Hc Hf. unfold convert_all, cfn.
  pose proof (find_audio_files_eq file_oracle (R:=Z * Z) c) as Efind.
  destruct (file_oracle _ (OsWalk (source_path c)) (world (metadata_lookup c)))
    as [[e|walk] w].
  { by rewrite (cbind_raised _ _ _ _ _ Efind). }
  rewrite (cbind_normal _ _ _ _ _ Efind). clear Efind.
  set (c1 := record_file_call w (FEv (OsWalk (source_path c))) c).
  erewrite cbind_normal by reflexivity.
  set (c2 := set_stats (set_total_files (Z.of_nat (length (audio_files_of walk)))) c1).
  destruct (audio_files_of walk) as [|f files] eqn:El.
  - erewrite cbind_returned by reflexivity.
    exists 0, 0, c2. subst c2 c1. simpl. split_and!; try done.
  - erewrite cbind_normal by reflexivity.
    destruct (convert_loop_effect (R:=Z * Z) (f :: files) c2)
      as (c' & E & Ht & Hsum & Hc' & Hf' & _).
    erewrite cbind_normal by exact E.
    exists (converted (stats c')), (failed (stats c')), c'.
    split; [reflexivity |].
    subst c2 c1. simpl in *.
    split_and!; try done; lia.
Qed.

(** X30.  [convert_all]: the metadata counters add up to the number of
    converted files. *)
Theorem metadata_sources_add_up {R} c :
  stats c = zero_stats ->
  match convert_all (R:=R) oracle file_oracle ratio str_of_float c with
  | (Normal (n_converted, n_failed), c') =>
      metadata_total (stats c')
      = (if enable_metadata c && has_lookup c then n_converted else 0)
      /\ 0 <= skipped_flac (stats c') <= total_files (stats c')
  | (Returned _, _) => False
  | (Raised _, c') => stats c' = zero_stats
  end.
Proof.
  intros Hz. unfold convert_all, cfn.
  pose proof (find_audio_files_eq file_oracle (R:=Z * Z) c) as Efind.
  destruct (file_oracle _ (OsWalk (source_path c)) (world (metadata_lookup c)))
    as [[e|walk] w].
  { by rewrite (cbind_raised _ _ _ _ _ Efind). }
  rewrite (cbind_normal _ _ _ _ _ Efind). clear Efind.
  set (c1 := record_file_call w (FEv (OsWalk (source_path c))) c).
  erewrite cbind_normal by reflexivity.
  set (c2 := set_stats (set_total_files (Z.of_nat (length (audio_files_of walk)))) c1).
  destruct (audio_files_of walk) as [|f files] eqn:El.
  - erewrite cbind_returned by reflexivity.
    subst c2 c1. simpl. rewrite Hz. simpl.
    split; [by destruct (_ && _) | lia].
  - erewrite cbind_normal by reflexivity.
    destruct (convert_loop_effect (R:=Z * Z) (f :: files) c2)
      as (c' & E & Ht & Hsum & Hc' & Hf' & He & Hl & Hm & Hk).
    erewrite cbind_normal by exact E.
    unfold cbind, cget, creturn.
    subst c2 c1. simpl in *. rewrite Hz in *. simpl in *.
    unfold metadata_total in Hm at 2. simpl in Hm.
    split; [| lia].
    destruct (enable_metadata c && has_lookup c); lia.
Qed.

End Effect.

(** ** The files [find_audio_files] accepts *)

Lemma lower_char_dot c : Py.lower_char c = "."%char <-> c = "."%char.
Proof.
  split; [| by intros ->].
  destruct c as [[] [] [] [] [] [] [] []]; vm_compute; congruence.
Qed.

Lemma rfind_dot_none t :
  Forall (fun c => c <> "."%char) t -> Path.rfind_dot t = None.
Proof.
  induction 1 as [|c t Hc _ IH]; simpl; [done |]. rewrite IH.
  by apply Ascii.eqb_neq in Hc as ->.
Qed.

Lemma rfind_dot_last pre t :
  Forall (fun c => c <> "."%char) t ->
  Path.rfind_dot (pre ++ "."%char :: t) = Some (length pre).
Proof.
  intros Ht. induction pre as [|c pre IH]; simpl.
  - by rewrite rfind_dot_none.
  - by rewrite IH.
Qed.

(** A name that ends in an extension, whatever the case: its suffix
    is the extension, unless the name is nothing but the extension. *)
Lemma suffix_of_ending (p : Path.t) (e : list ascii) :
  e <> [] ->
  Forall (fun c => c <> "."%char) e ->
  endswith (Py.lower (Path.name p)) (string_of_list_ascii ("."%char :: e)) = true ->
  if bool_decide (Py.lower (Path.name p) = string_of_list_ascii ("."%char :: e))
  then path_suffix p = ""
  else Py.lower (path_suffix p) = string_of_list_ascii ("."%char :: e).
Proof.
  intros Hne He. unfold endswith, path_suffix.
  rewrite list_ascii_of_string_of_list_ascii.
  unfold Py.lower. rewrite list_ascii_map_string.
  set (n := list_ascii_of_string (Path.name p)).
  rewrite length_map.
  intros [Hlen%Nat.leb_le Hd%bool_decide_eq_true]%andb_prop.
  rewrite skipn_map in Hd.
  set (i := (length n - length ("."%char :: e))%nat) in *.
  assert (n = take i n ++ drop i n) as En by (by rewrite take_drop).
  destruct (drop i n) as [|c t] eqn:Ed; [done |].
  simpl in Hd. injection Hd as Hc Ht. apply lower_char_dot in Hc as ->.
  assert (Forall (fun c => c <> "."%char) t) as Hnd.
  { rewrite <- Ht in He. clear -He. induction t as [|c t IH]; [done |].
    inversion He as [|? ? Hc Ht]; subst. constructor; [| by apply IH].
    intros ->. by apply Hc. }
  assert (length t = length e) as Hlt by (by rewrite <- Ht, length_map).
  assert (length (take i n) = i) as Hi.
  { rewrite length_take. simpl in *. lia. }
  assert (Path.rfind_dot n = Some i) as ->.
  { rewrite En, rfind_dot_last by done. by rewrite Hi. }
  assert (length n = (i + S (length e))%nat) as Hn.
  { rewrite En, length_app, Hi. simpl. lia. }
  destruct e as [|e0 e]; [done |]. simpl in Hn.
  replace (i <? length n - 1)%nat with true by (symmetry; apply Nat.ltb_lt; lia).
  rewrite andb_true_r.
  case_bool_decide as Hb.
  - apply (f_equal list_ascii_of_string) in Hb.
    rewrite list_ascii_map_string, list_ascii_of_string_of_list_ascii in Hb.
    fold n in Hb. apply (f_equal (@length ascii)) in Hb.
    rewrite length_map, Hn in Hb. simpl in Hb.
    assert (i = 0)%nat as -> by lia. done.
  - destruct i as [|i'].
    + exfalso. apply Hb. simpl in En. 
      rewrite <- (string_of_list_ascii_of_string (Py.map_string _ _)).
      rewrite list_ascii_map_string. fold n. rewrite En. simpl.
      by rewrite Ht.
    + rewrite Ed. change (0 <? S i')%nat with true. cbv iota.
      rewrite <- string_of_list_map. simpl. by rewrite Ht.
Qed.

(** X26.  [find_audio_files]: a file that is found has the suffix [.wav]
    or [.flac], unless its whole name is [.wav] or [.flac], which has
    no suffix. *)
Theorem files_found_and_their_suffix (p : Path.t) :
  is_audio_name (Path.name p) = true ->
  (Py.lower (Path.name p) = ".wav" \/ Py.lower (Path.name p) = ".flac") 
  /\ path_suffix p = ""
  \/ Py.lower (Path.name p) <> ".wav" /\ Py.lower (Path.name p) <> ".flac"
     /\ (Py.lower (path_suffix p) = ".wav" \/ Py.lower (path_suffix p) = ".flac").
Proof.
  unfold is_audio_name. intros [H | H]%orb_prop.
  - pose proof (suffix_of_ending p (list_ascii_of_string "wav")
                  ltac:(done) ltac:(by repeat constructor) H) as Hs.
    simpl string_of_list_ascii in Hs.
    case_bool_decide as Hb; [left; auto |].
    right. split; [done |]. split; [| by left].
    intros E. 
    assert (endswith ".flac" ".wav" = true) as Habs by (by rewrite <- E).
    by vm_compute in Habs.
  - pose proof (suffix_of_ending p (list_ascii_of_string "flac")
                  ltac:(done) ltac:(by repeat constructor) H) as Hs.
    simpl string_of_list_ascii in Hs.
    case_bool_decide as Hb; [left; auto |].
    right. split; [| split; [done | by right]].
    intros E. 
    assert (endswith ".wav" ".flac" = true) as Habs by (by rewrite <- E).
    by vm_compute in Habs.
Qed.

(** ** Examples *)

Lemma leading_digits_are_the_track_number_witness :
  _extract_track_number ("04" ++ " Bohemian Rhapsody")
  = Some (Py.digits_value 0 (list_ascii_of_string "04")).
Proof.
  apply (leading_digits_are_the_track_number "04" " Bohemian Rhapsody");
    reflexivity.
Defined.

Lemma track_number_is_never_negative_witness :
  _extract_track_number "04 Bohemian Rhapsody" = Some 4 /\ 0 <= 4.
Proof.
  assert (_extract_track_number "04 Bohemian Rhapsody" = Some 4) as H
    by (vm_compute; reflexivity).
  split; [exact H |].
  exact (track_number_is_never_negative "04 Bohemian Rhapsody" 4 H).
Defined.

Lemma no_digit_no_track_number_witness :
  _extract_track_number "Bohemian Rhapsody" = None.
Proof.
  apply (no_digit_no_track_number "Bohemian Rhapsody"); reflexivity.
Defined.

Lemma bare_number_is_generic_witness : _is_generic_filename "2024" = true.
Proof. apply (bare_number_is_generic "2024"). reflexivity. Defined.

Lemma without_digits_only_untitled_is_generic_witness :
  _is_generic_filename "My Untitled Song"
  = Py.contains "untitled" (Py.strip (Py.lower "My Untitled Song")).
Proof.
  apply (without_digits_only_untitled_is_generic "My Untitled Song").
  reflexivity.
Defined.

Lemma track_number_survives_the_text_field_witness :
  track_number_of (pm_track_number opera_parsed)
  = (if int_truthy (_extract_track_number (Path.stem opera_relative))
     then _extract_track_number (Path.stem opera_relative)
     else None).
Proof.
  apply (track_number_survives_the_text_field opera_file
           (Path.of_string "/music") opera_relative opera_parsed);
    vm_compute; reflexivity.
Defined.

Lemma path_fields_are_stripped_witness :
  Py.strip (pm_title opera_parsed) = pm_title opera_parsed
  /\ Py.strip (pm_artist opera_parsed) = pm_artist opera_parsed
  /\ Py.strip (pm_album opera_parsed) = pm_album opera_parsed
  /\ Py.strip (pm_year opera_parsed) = pm_year opera_parsed.
Proof.
  apply (path_fields_are_stripped opera_file (Path.of_string "/music")
           opera_parsed).
  vm_compute. reflexivity.
Defined.

Lemma shallow_files_have_no_artist_witness :
  exists md,
    parse_directory_structure (Path.of_string "/music/Jazz/Mustapha.wav")
      (Path.of_string "/music") = Some md
    /\ pm_artist md = "" /\ pm_album md = "Jazz".
Proof.
  eexists. split; [vm_compute; reflexivity |]. split; [| reflexivity].
  refine (proj1 (shallow_files_have_no_artist
                   (Path.of_string "/music/Jazz/Mustapha.wav")
                   (Path.of_string "/music") ["Jazz"; "Mustapha.wav"] _ _ _) _).
  - vm_compute. reflexivity.
  - vm_compute. reflexivity.
  - simpl. lia.
Defined.

Lemma standalone_year_keeps_two_digits_witness :
  pm_year opera_parsed = "19" \/ pm_year opera_parsed = "20".
Proof.
  apply (standalone_year_keeps_two_digits opera_file (Path.of_string "/music")
           opera_relative "A Night at the Opera (1975)" opera_parsed);
    vm_compute; reflexivity.
Defined.

Lemma shallow_files_are_never_searched_by_name_witness :
  calls_only file_and_acoustic song_start
    (snd (lookup_for_file (R:=unit) offline exact_ratio plain_float
            song_file (Path.of_string "/music") (Some 0%nat) song_start)).
Proof.
  apply (shallow_files_are_never_searched_by_name offline exact_ratio
           plain_float song_file (Path.of_string "/music") ["Song.wav"]).
  - vm_compute. reflexivity.
  - simpl. lia.
Defined.

Lemma fingerprinting_off_stays_off_witness :
  let s := init_state false false [] tt in
  let s' := snd (get_metadata (R:=unit) empty_catalog exact_ratio plain_float
                   "Queen" "Jazz" "Mustapha" (Some 1) false None None s) in
  fingerprint_enabled s' = false /\ calls_only clock_catalog_text s s'.
Proof.
  apply (fingerprinting_off_stays_off empty_catalog exact_ratio plain_float).
  reflexivity.
Defined.

Lemma rate_limit_spaces_requests_witness :
  exists s',
    _rate_limit (R:=unit) ticking (init_state true true [] 5%Q)
    = (Normal tt, s')
    /\ (last_request_time (init_state true true [] 5%Q) + rate_limit_delay
        <= last_request_time s')%Q
    /\ (5 <= last_request_time s')%Q
    /\ calls_only (fun svc => bool_decide (svc = Clock))
         (init_state true true [] 5%Q) s'.
Proof.
  apply (rate_limit_spaces_requests ticking (fun w => w)
           (init_state true true [] 5%Q)).
  apply ticking_clock.
Defined.

Lemma best_release_scores_highest_witness :
  (forall r, r ∈ [jazz_release] ->
     exists t, release_total exact_ratio "Queen" "Jazz" r = inr t
               /\ (t <= 2 # 2)%Q)
  /\ jazz_release ∈ [jazz_release]
  /\ release_total exact_ratio "Queen" "Jazz" jazz_release = inr (2 # 2)%Q
  /\ (0 < 2 # 2)%Q.
Proof.
  apply (best_release_scores_highest exact_ratio "Queen" "Jazz" [jazz_release]
           (Some jazz_release) (2 # 2)%Q).
  vm_compute. reflexivity.
Defined.

Lemma best_recording_scores_highest_witness :
  let score := (1 * 0.5 + 1 * 0.3 + 1 * 0.2)%Q in
  (forall r, r ∈ [queen_song] ->
     exists t, recording_total exact_ratio "Queen" "Opera" "Song" r = inr t
               /\ (t <= score)%Q)
  /\ queen_song ∈ [queen_song]
  /\ recording_total exact_ratio "Queen" "Opera" "Song" queen_song = inr score
  /\ (0 < score)%Q.
Proof.
  apply (best_recording_scores_highest exact_ratio "Queen" "Opera" "Song"
           [queen_song] (Some queen_song)).
  vm_compute. reflexivity.
Defined.

Lemma missing_fpcalc_switches_fingerprinting_off_witness :
  exists s',
    audio_fingerprint_lookup (R:=unit) no_fpcalc plain_float song_file
      catalog_start = (Normal None, s')
    /\ fingerprint_enabled s' = false
    /\ fingerprint_cache s' !! fingerprint_key song_file 1024 = Some None
    /\ trace s'
       = trace catalog_start
         ++ [Ev (Stat song_file); Ev RunFpcalcVersion; Ev RunFpcalc].
Proof.
  apply (missing_fpcalc_switches_fingerprinting_off no_fpcalc plain_float
           song_file catalog_start 1024 tt
           (MkExn FileNotFoundError "fpcalc") tt
           (inl (MkExn FileNotFoundError "fpcalc")) tt);
    reflexivity.
Defined.

Lemma album_tracks_need_a_good_release_witness :
  match search_album_tracks (R:=unit) jazz_catalog exact_ratio "Queen" "Jazz"
          catalog_start with
  | (Normal (Some tracks), s') =>
      exists query result best score release_id detailed rel,
        answered jazz_catalog (SearchReleases query) result
        /\ best_release_loop exact_ratio "Queen" "Jazz" result None 0
           = inr (Some best, score)
        /\ Qlt_bool 0.7 score = true
        /\ rel_id best = Some release_id
        /\ answered jazz_catalog (GetReleaseById release_id) detailed
        /\ rd_release detailed = Some rel
        /\ Forall2
             (fun p track =>
                heap s' !! p
                = Some (track_info "Queen" "Jazz" release_id best track))
             tracks (all_tracks rel)
  | _ => True
  end.
Proof.
  apply (album_tracks_need_a_good_release jazz_catalog exact_ratio
           "Queen" "Jazz" catalog_start).
  reflexivity.
Defined.

Lemma track_match_reaches_the_threshold_witness :
  match search_musicbrainz_individual (R:=unit) flaky_catalog exact_ratio
          "Queen" "Opera" "Song" catalog_start with
  | (Normal (Some p), s') =>
      exists i query result best score d,
        search_strategies "Queen" "Opera" "Song" !! i = Some query
        /\ answered flaky_catalog (SearchRecordings query) result
        /\ best_recording_loop exact_ratio "Queen" "Opera" "Song" result None 0
           = inr (Some best, score)
        /\ Qle_bool (if Nat.eqb i 0 then 0.8 else 0.6) score = true
        /\ _extract_recording_metadata best "Queen" "Opera" "Song" = inr d
        /\ heap s' !! p = Some d
  | _ => True
  end.
Proof.
  apply (track_match_reaches_the_threshold flaky_catalog exact_ratio
           "Queen" "Opera" "Song" catalog_start).
  reflexivity.
Defined.

Lemma files_found_and_their_suffix_witness :
  (Py.lower (Path.name ["Jazz"; "Mustapha.WAV"]) = ".wav"
   \/ Py.lower (Path.name ["Jazz"; "Mustapha.WAV"]) = ".flac")
  /\ path_suffix ["Jazz"; "Mustapha.WAV"] = ""
  \/ Py.lower (Path.name ["Jazz"; "Mustapha.WAV"]) <> ".wav"
     /\ Py.lower (Path.name ["Jazz"; "Mustapha.WAV"]) <> ".flac"
     /\ (Py.lower (path_suffix ["Jazz"; "Mustapha.WAV"]) = ".wav"
         \/ Py.lower (path_suffix ["Jazz"; "Mustapha.WAV"]) = ".flac").
Proof.
  apply (files_found_and_their_suffix ["Jazz"; "Mustapha.WAV"]). reflexivity.
Defined.

Lemma written_tags_come_from_the_metadata_witness :
  exists key value,
    (key, "TITLE") ∈ tag_mapping ++ mb_mapping
    /\ tagged_record !! key = Some value
    /\ value <> ""
    /\ ["Bohemian Rhapsody"] = [value].
Proof.
  apply (written_tags_come_from_the_metadata tagged_record "TITLE"
           ["Bohemian Rhapsody"]).
  vm_compute. reflexivity.
Defined.

Lemma read_after_embed_gives_back_witness :
  metadata_of_tags (tags_of_metadata (metadata_of_tags opera_tags))
  = metadata_of_tags opera_tags.
Proof.
  apply (read_after_embed_gives_back (metadata_of_tags opera_tags)).
  apply metadata_of_tags_well_read.
Defined.

Lemma complete_tags_are_left_alone_witness :
  exists c',
    handle_metadata (R:=unit) offline small_library exact_ratio plain_float
      opera_file opera_output music_converter = (Normal tt, c')
    /\ file_log c' = file_log music_converter ++ [FEv (FlacOpen opera_output)]
    /\ trace (metadata_lookup c') = trace (metadata_lookup music_converter)
    /\ entered (metadata_lookup c') = entered (metadata_lookup music_converter)
    /\ stats c' = bump_metadata_complete (stats music_converter).
Proof.
  apply (complete_tags_are_left_alone offline small_library exact_ratio
           plain_float opera_file opera_output music_converter opera_tags tt
           opera_parsed);
    vm_compute; reflexivity.
Defined.

Lemma convert_all_counts_every_file_witness :
  exists n_converted n_failed c',
    convert_all (R:=unit) offline small_library exact_ratio plain_float
      music_converter = (Normal (n_converted, n_failed), c')
    /\ total_files (stats c') = 2
    /\ n_converted + n_failed = total_files (stats c')
    /\ 0 <= n_converted /\ 0 <= n_failed
    /\ n_converted = converted (stats c') /\ n_failed = failed (stats c').
Proof.
  exact (convert_all_counts_every_file offline small_library exact_ratio
           plain_float (R:=unit) music_converter eq_refl eq_refl).
Defined.

Lemma metadata_sources_add_up_witness :
  match convert_all (R:=unit) offline small_library exact_ratio plain_float
          music_converter with
  | (Normal (n_converted, n_failed), c') =>
      metadata_total (stats c')
      = (if enable_metadata music_converter && has_lookup music_converter
         then n_converted else 0)
      /\ 0 <= skipped_flac (stats c') <= total_files (stats c')
  | (Returned _, _) => False
  | (Raised _, c') => stats c' = zero_stats
  end.
Proof.
  exact (metadata_sources_add_up offline small_library exact_ratio plain_float
           (R:=unit) music_converter eq_refl).
Defined.
